(** * Electron Cash: transaction entities, CashToken output data and PSBT

    A shallow embedding of [electroncash/bitcoin_types.py],
    [electroncash/token.py] and [electroncash/psbt.py], with the theorems
    that settle the specification's testable properties against them.

    Python objects are records; a method that mutates its receiver is a
    computation in a state-and-exception monad whose state holds the
    receiver and the stream it reads, so that what the receiver looks like
    when an exception escapes is part of the model. *)

From Stdlib Require Import ZArith List String Bool Lia Arith.
From Stdlib.Strings Require Import Byte.
From Stdlib Require Import DecimalString.
Import ListNotations.
Open Scope Z_scope.

(** ** Bytes and little-endian integers *)

Definition bytes : Type := list byte.

Definition Z_of_byte (b : byte) : Z := Z.of_N (Byte.to_N b).

Definition byte_of_Z (z : Z) : byte :=
  match Byte.of_N (Z.to_N (z mod 256)) with
  | Some b => b
  | None => x00
  end.

(** [struct.pack] of a fixed-width little-endian integer: [width] bytes,
    least significant first (two's complement for a negative [z]). *)
Fixpoint le_encode (width : nat) (z : Z) : bytes :=
  match width with
  | O => []
  | S w => byte_of_Z z :: le_encode w (z / 256)
  end.

(** [struct.unpack] of an unsigned little-endian integer. *)
Fixpoint le_decode (bs : bytes) : Z :=
  match bs with
  | [] => 0
  | b :: rest => Z_of_byte b + 256 * le_decode rest
  end.

(** The signed reading of a [width]-byte unsigned value. *)
Definition to_signed (width : nat) (u : Z) : Z :=
  if u <? 2 ^ (8 * Z.of_nat width - 1) then u else u - 2 ^ (8 * Z.of_nat width).

Fixpoint bytes_eqb (a b : bytes) : bool :=
  match a, b with
  | [], [] => true
  | x :: a', y :: b' => Byte.eqb x y && bytes_eqb a' b'
  | _, _ => false
  end.

(** Python truthiness of a bytes object: [bool(b)] is [len(b) != 0]. *)
Definition truthy (b : bytes) : bool :=
  match b with
  | [] => false
  | _ :: _ => true
  end.

(** ** Text transport: [bytes.fromhex] and [bytes.hex] *)

Definition hex_digit_value (c : Ascii.ascii) : option Z :=
  let n := Z.of_nat (Ascii.nat_of_ascii c) in
  if (48 <=? n) && (n <=? 57) then Some (n - 48)
  else if (97 <=? n) && (n <=? 102) then Some (n - 87)
  else if (65 <=? n) && (n <=? 70) then Some (n - 55)
  else None.

Definition is_ascii_space (c : Ascii.ascii) : bool :=
  let k := Z.of_nat (Ascii.nat_of_ascii c) in
  (k =? 32) || ((9 <=? k) && (k <=? 13)).

(** [bytes.fromhex]: two hex digits per byte, ASCII whitespace allowed
    between bytes; [None] stands for its [ValueError]. *)
Fixpoint bytes_fromhex (s : string) : option bytes :=
  match s with
  | EmptyString => Some []
  | String c rest =>
      if is_ascii_space c then bytes_fromhex rest
      else
        match hex_digit_value c, rest with
        | Some hi, String d rest' =>
            match hex_digit_value d, bytes_fromhex rest' with
            | Some lo, Some tl => Some (byte_of_Z (16 * hi + lo) :: tl)
            | _, _ => None
            end
        | _, _ => None
        end
  end.

Definition hex_digit (n : Z) : Ascii.ascii :=
  Ascii.ascii_of_nat (Z.to_nat (if n <? 10 then 48 + n else 87 + n)).

Fixpoint bytes_hex (bs : bytes) : string :=
  match bs with
  | [] => EmptyString
  | b :: rest =>
      String (hex_digit (Z_of_byte b / 16))
        (String (hex_digit (Z_of_byte b mod 16)) (bytes_hex rest))
  end.

(** ** Exceptions

    [serialize.py], which declares [SerializationError], is not among the
    sources; [psbt.py] derives the two PSBT classes from it.  [struct.error]
    and [AssertionError] are Python's own.  [FuelExhausted] is not a Python
    exception: it marks the unreachable end of a bounded loop of the model
    (see [PSBT_loops_total]). *)
Inductive exn : Type :=
| SerializationError (msg : string)
| PSBTSerializationError (msg : string)
| PSBTMagicBytesError (msg : string)
| StructError
| AssertionError
| FuelExhausted.

(** [PSBTSerializationError.__init__] prefixes its message. *)
Definition mkPSBTSerializationError (msg : string) : exn :=
  PSBTSerializationError ("PSBT: " ++ msg)%string.

Definition mkPSBTMagicBytesError (msg : string) : exn :=
  PSBTMagicBytesError ("PSBT: " ++ msg)%string.

(** [isinstance(e, SerializationError)]: what [except SerializationError]
    catches. *)
Definition is_SerializationError (e : exn) : bool :=
  match e with
  | SerializationError _ | PSBTSerializationError _ | PSBTMagicBytesError _ => true
  | StructError | AssertionError | FuelExhausted => false
  end.

(** [isinstance(e, PSBTSerializationError)]. *)
Definition is_PSBTSerializationError (e : exn) : bool :=
  match e with
  | PSBTSerializationError _ | PSBTMagicBytesError _ => true
  | _ => false
  end.

(** ** The state-and-exception monad

    A computation runs on a state and yields the state it reached together
    with a value or the exception that escaped. *)
Inductive result (A : Type) : Type :=
| Ok (a : A)
| Raise (e : exn).
Arguments Ok {A} a.
Arguments Raise {A} e.

Definition M (St A : Type) : Type := St -> result A * St.

Definition ret {St A : Type} (a : A) : M St A := fun s => (Ok a, s).

Definition bind {St A B : Type} (m : M St A) (f : A -> M St B) : M St B :=
  fun s =>
    match m s with
    | (Ok a, s') => f a s'
    | (Raise e, s') => (Raise e, s')
    end.

Definition raise {St A : Type} (e : exn) : M St A := fun s => (Raise e, s).

Definition get {St : Type} : M St St := fun s => (Ok s, s).

Definition modify {St : Type} (f : St -> St) : M St unit := fun s => (Ok tt, f s).

(** [assert c]. *)
Definition assert {St : Type} (c : bool) : M St unit :=
  if c then ret tt else raise AssertionError.

Declare Scope monad_scope.
Delimit Scope monad_scope with monad.
Notation "x <- m ;; k" := (bind m (fun x => k))
  (at level 61, m at next level, right associativity) : monad_scope.
Notation "m ;;; k" := (bind m (fun _ => k))
  (at level 61, right associativity) : monad_scope.
Open Scope monad_scope.

(** [for x in xs: body(x)]. *)
Fixpoint for_each {St A : Type} (xs : list A) (body : A -> M St unit) : M St unit :=
  match xs with
  | [] => ret tt
  | x :: rest => body x ;;; for_each rest body
  end.

(** [for _ in range(n): body()]. *)
Fixpoint repeat_n {St : Type} (n : nat) (body : M St unit) : M St unit :=
  match n with
  | O => ret tt
  | S k => body ;;; repeat_n k body
  end.

(** ** The byte stream *)

Module BCDataStream.

(** Modelled from the spec: [BCDataStream] is declared in
    [electroncash/serialize.py], which is not among the sources.  Section
    4.1 gives its contract: a cursor over a byte buffer; fixed-width
    little-endian integers; compact-size integers (1 byte for 0..252,
    0xfd and 2 bytes, 0xfe and 4 bytes, 0xff and 8 bytes), whose
    non-minimal encodings are rejected only in strict mode; a byte vector
    as a compact-size length followed by that many bytes;
    [can_read_more] true while unconsumed bytes remain; reading past the
    end or a malformed compact size fails with a serialization error.
    The callers use the attributes [input] and [read_cursor]. *)
Record t : Type := mk { input : bytes; read_cursor : nat }.

(** [BCDataStream(data)]; [BCDataStream()] is [new []]. *)
Definition new (data : bytes) : t := mk data 0.

(** The unconsumed bytes, [input[read_cursor:]]. *)
Definition remaining (v : t) : bytes := skipn (read_cursor v) (input v).

Definition advance (k : nat) (v : t) : t := mk (input v) (read_cursor v + k).

Definition has_more (v : t) : bool :=
  Nat.ltb (read_cursor v) (List.length (input v)).

Definition can_read_more : M t bool := fun v => (Ok (has_more v), v).

Definition past_end : exn := SerializationError "attempt to read past end of buffer".

(** Modelled from the spec: the next [n] bytes; in strict mode fewer than
    [n] remaining bytes is a serialization error. *)
Definition read_exact (n : Z) (strict : bool) : M t bytes :=
  fun v =>
    if strict && ((n <? 0) || (Z.of_nat (List.length (remaining v)) <? n))
    then (Raise past_end, v)
    else (Ok (firstn (Z.to_nat n) (remaining v)), advance (Z.to_nat n) v).

(** Modelled from the spec: an unsigned little-endian integer of [width]
    bytes; a short buffer is a serialization error. *)
Definition _read_num (width : nat) : M t Z :=
  bs <- read_exact (Z.of_nat width) true ;;
  ret (le_decode bs).

Definition read_uint32 : M t Z := _read_num 4.

Definition read_int32 : M t Z := u <- _read_num 4 ;; ret (to_signed 4 u).

Definition read_int64 : M t Z := u <- _read_num 8 ;; ret (to_signed 8 u).

Definition non_canonical : exn := SerializationError "non-canonical compact size".

(** Modelled from the spec: the compact-size integer of section 3. *)
Definition read_compact_size (strict : bool) : M t Z :=
  size <- _read_num 1 ;;
  if size <? 253 then ret size
  else if size =? 253 then
    v <- _read_num 2 ;;
    if strict && (v <? 253) then raise non_canonical else ret v
  else if size =? 254 then
    v <- _read_num 4 ;;
    if strict && (v <? 2 ^ 16) then raise non_canonical else ret v
  else
    v <- _read_num 8 ;;
    if strict && (v <? 2 ^ 32) then raise non_canonical else ret v.

(** [read_bytes(length=None, strict=False)]: without a length, a byte
    vector (its compact-size length first). *)
Definition read_bytes (length : option Z) (strict : bool) : M t bytes :=
  n <- match length with
       | Some n => ret n
       | None => read_compact_size strict
       end ;;
  read_exact n strict.

Definition write (bs : bytes) : M t unit :=
  fun v => (Ok tt, mk (input v ++ bs) (read_cursor v)).

(** Modelled from the spec: a fixed-width integer is written in [width]
    little-endian bytes; a value outside [lo, hi) cannot be packed
    ([struct.error]). *)
Definition _write_num (width : nat) (lo hi : Z) (z : Z) : M t unit :=
  if (lo <=? z) && (z <? hi) then write (le_encode width z) else raise StructError.

Definition write_uint32 (z : Z) : M t unit := _write_num 4 0 (2 ^ 32) z.

Definition write_int32 (z : Z) : M t unit := _write_num 4 (- 2 ^ 31) (2 ^ 31) z.

Definition write_int64 (z : Z) : M t unit := _write_num 8 (- 2 ^ 63) (2 ^ 63) z.

(** Modelled from the spec: the shortest compact-size form of [size]; no
    length or count may be negative. *)
Definition write_compact_size (size : Z) : M t unit :=
  if size <? 0 then raise (SerializationError "attempt to write size < 0")
  else if size <? 253 then write [byte_of_Z size]
  else if size <? 2 ^ 16 then write [xfd] ;;; _write_num 2 0 (2 ^ 16) size
  else if size <? 2 ^ 32 then write [xfe] ;;; _write_num 4 0 (2 ^ 32) size
  else write [xff] ;;; _write_num 8 0 (2 ^ 64) size.

(** [write_string]: a byte vector. *)
Definition write_string (s : bytes) : M t unit :=
  write_compact_size (Z.of_nat (List.length s)) ;;; write s.

End BCDataStream.

(** ** Receivers and streams

    A method body runs on the pair of its receiver and the stream it was
    handed. *)

Definition on_stream {Self A : Type} (m : M BCDataStream.t A) : M (Self * BCDataStream.t) A :=
  fun s =>
    match m (snd s) with
    | (r, vds') => (r, (fst s, vds'))
    end.

(** Read the receiver. *)
Definition this {Self V : Type} : M (Self * V) Self := fun s => (Ok (fst s), s).

(** [self.field = ...]. *)
Definition update {Self V : Type} (f : Self -> Self) : M (Self * V) unit :=
  fun s => (Ok tt, (f (fst s), snd s)).

(** [self.attr.method(vds)]: the method of an object held in an attribute
    runs on that object; what it did to the object stays when it raises. *)
Definition zoom {Self T A : Type} (getf : Self -> T) (setf : T -> Self -> Self)
    (m : M (T * BCDataStream.t) A) : M (Self * BCDataStream.t) A :=
  fun s =>
    match m (getf (fst s), snd s) with
    | (r, (obj', vds')) => (r, (setf obj' (fst s), vds'))
    end.

(** [obj = T(); obj.method(vds)], the object a local variable: it is
    returned once the method has returned, and dropped when it raises. *)
Definition call_new {Self T A : Type} (obj : T) (m : M (T * BCDataStream.t) A)
    : M (Self * BCDataStream.t) T :=
  fun s =>
    match m (obj, snd s) with
    | (Ok _, (obj', vds')) => (Ok obj', (fst s, vds'))
    | (Raise e, (_, vds')) => (Raise e, (fst s, vds'))
    end.

(** [vds2 = BCDataStream(data); self.attr = T(); self.attr.method(vds2)]:
    the object is stored in the receiver before the method runs on a stream
    of its own, so it stays there, as far as it got, when the method
    raises.  Yields [vds2] as the method left it. *)
Definition deserialize_into {Self T V : Type} (setf : T -> Self -> Self) (obj : T)
    (data : bytes) (m : M (T * BCDataStream.t) unit) : M (Self * V) BCDataStream.t :=
  fun s =>
    match m (obj, BCDataStream.new data) with
    | (Ok _, (obj', vds2)) => (Ok vds2, (setf obj' (fst s), snd s))
    | (Raise e, (obj', _)) => (Raise e, (setf obj' (fst s), snd s))
    end.

(** A computation on local objects (a stream of its own, a fresh object):
    its value and what became of them, or its exception. *)
Definition run_on {St L A : Type} (l : L) (m : M L A) : M St (A * L) :=
  fun s =>
    match m l with
    | (Ok a, l') => (Ok (a, l'), s)
    | (Raise e, _) => (Raise e, s)
    end.

(** [vds2 = BCDataStream(); x.serialize(vds2); ... vds2.input]. *)
Definition written_by {St : Type} (m : M BCDataStream.t unit) : M St bytes :=
  r <- run_on (BCDataStream.new []) m ;;
  ret (BCDataStream.input (snd r)).

(** [while vds.can_read_more(): body], where [body] answers whether the
    loop goes on ([false] for [break] and for [return]).  Every body reads
    at least one byte before it goes on, so the number of unread bytes
    bounds the iterations: [while_more] starts with that much fuel. *)
Fixpoint while_can_read_more {Self : Type} (fuel : nat)
    (body : M (Self * BCDataStream.t) bool) : M (Self * BCDataStream.t) unit :=
  more <- on_stream BCDataStream.can_read_more ;;
  if negb more then ret tt
  else
    match fuel with
    | O => raise FuelExhausted
    | S fuel' =>
        go_on <- body ;;
        if go_on then while_can_read_more fuel' body else ret tt
    end.

Definition while_more {Self : Type} (body : M (Self * BCDataStream.t) bool)
    : M (Self * BCDataStream.t) unit :=
  fun s => while_can_read_more (List.length (BCDataStream.remaining (snd s))) body s.

(** ** Python dictionaries

    A [dict] keyed by bytes keeps its entries in insertion order, which is
    the order serialization walks them in. *)
Definition dict (V : Type) : Type := list (bytes * V).

Fixpoint dict_get {V : Type} (k : bytes) (d : dict V) : option V :=
  match d with
  | [] => None
  | (k', v) :: rest => if bytes_eqb k' k then Some v else dict_get k rest
  end.

(** [k in d]. *)
Definition dict_contains {V : Type} (k : bytes) (d : dict V) : bool :=
  match dict_get k d with
  | Some _ => true
  | None => false
  end.

(** [d[k] = v]: a new key goes last, a present key keeps its place. *)
Fixpoint dict_set {V : Type} (k : bytes) (v : V) (d : dict V) : dict V :=
  match d with
  | [] => [(k, v)]
  | (k', v') :: rest =>
      if bytes_eqb k' k then (k', v) :: rest else (k', v') :: dict_set k v rest
  end.

(** [d1 == d2]: the same keys with equal values, whatever the order. *)
Definition dict_eqb {V : Type} (veqb : V -> V -> bool) (d1 d2 : dict V) : bool :=
  Nat.eqb (List.length d1) (List.length d2)
  && forallb (fun kv => match dict_get (fst kv) d2 with
                        | Some v' => veqb (snd kv) v'
                        | None => false
                        end) d1.

Fixpoint list_eqb {A : Type} (eqb : A -> A -> bool) (l1 l2 : list A) : bool :=
  match l1, l2 with
  | [], [] => true
  | x :: l1', y :: l2' => eqb x y && list_eqb eqb l1' l2'
  | _, _ => false
  end.

Definition option_eqb {A : Type} (eqb : A -> A -> bool) (o1 o2 : option A) : bool :=
  match o1, o2 with
  | None, None => true
  | Some x, Some y => eqb x y
  | _, _ => false
  end.

(** ** What the codec takes from outside the sources

    [bitcoin.py] is not among the sources, and the spec leaves the
    cryptographic primitives opaque.  [SPECIAL_TOKEN_PREFIX] is
    [OpCodes.SPECIAL_TOKEN_PREFIX], one byte; [ser_to_point pubkey] is
    [true] when [bitcoin.ser_to_point] returns a point and [false] when it
    raises; [hash_160] is [bitcoin.hash_160].  [a2b_base64] and
    [b2a_base64] are Python's [binascii] functions, [None] standing for
    [binascii.Error]. *)
Class Externals : Type := {
  SPECIAL_TOKEN_PREFIX : byte;
  ser_to_point : bytes -> bool;
  hash_160 : bytes -> bytes;
  a2b_base64 : string -> option bytes;
  b2a_base64 : bytes -> string
}.

(** ** token.py *)

Module Structure.
Definition HasAmount : Z := 16.
Definition HasNFT : Z := 32.
Definition HasCommitmentLength : Z := 64.
End Structure.

Module Capability.
Definition NoCapability : Z := 0.
Definition Mutable : Z := 1.
Definition Minting : Z := 2.
End Capability.

Module OutputData.

Record t : Type := mk { id : bytes; bitfield : Z; amount : Z; commitment : bytes }.

(** [OutputData()]: the constructor's defaults. *)
Definition default : t := mk (repeat x00 32) Structure.HasAmount 1 [].

Definition set_id (x : bytes) (self : t) : t :=
  mk x (bitfield self) (amount self) (commitment self).
Definition set_bitfield (x : Z) (self : t) : t :=
  mk (id self) x (amount self) (commitment self).
Definition set_amount (x : Z) (self : t) : t :=
  mk (id self) (bitfield self) x (commitment self).
Definition set_commitment (x : bytes) (self : t) : t :=
  mk (id self) (bitfield self) (amount self) x.

Definition eqb (self other : t) : bool :=
  bytes_eqb (id self) (id other) && (bitfield self =? bitfield other)
  && (amount self =? amount other) && bytes_eqb (commitment self) (commitment other).

Definition get_capability (self : t) : Z := Z.land (bitfield self) 15.

Definition has_commitment_length (self : t) : bool :=
  negb (Z.land (bitfield self) Structure.HasCommitmentLength =? 0).

Definition has_amount (self : t) : bool :=
  negb (Z.land (bitfield self) Structure.HasAmount =? 0).

Definition has_nft (self : t) : bool :=
  negb (Z.land (bitfield self) Structure.HasNFT =? 0).

Definition is_minting_nft (self : t) : bool :=
  has_nft self && (get_capability self =? Capability.Minting).

Definition is_mutable_nft (self : t) : bool :=
  has_nft self && (get_capability self =? Capability.Mutable).

Definition is_immutable_nft (self : t) : bool :=
  has_nft self && (get_capability self =? Capability.NoCapability).

Definition is_valid_bitfield (self : t) : bool :=
  let s := Z.land (bitfield self) 240 in
  if (s >=? 128) || (s =? 0) then false
  else if Z.land (bitfield self) 15 >? 2 then false
  else if negb (has_nft self) && negb (has_amount self) then false
  else if negb (has_nft self) && negb (Z.land (bitfield self) 15 =? 0) then false
  else if negb (has_nft self) && has_commitment_length self then false
  else true.

Definition invalid : exn :=
  SerializationError "Unable to parse token data or token data is invalid".

(** [deserialize(ds=ds)]. *)
Definition deserialize : M (t * BCDataStream.t) unit :=
  x <- on_stream (BCDataStream.read_bytes (Some 32) true) ;;
  update (set_id x) ;;;
  b <- on_stream (BCDataStream.read_bytes (Some 1) true) ;;
  update (set_bitfield (le_decode b)) ;;;
  self <- this ;;
  (if has_commitment_length self
   then c <- on_stream (BCDataStream.read_bytes None true) ;; update (set_commitment c)
   else update (set_commitment [])) ;;;
  self <- this ;;
  (if has_amount self
   then a <- on_stream (BCDataStream.read_compact_size true) ;; update (set_amount a)
   else update (set_amount 0)) ;;;
  self <- this ;;
  if negb (is_valid_bitfield self) || (has_amount self && (amount self =? 0))
     || (amount self <? 0) || (amount self >? 2 ^ 63 - 1)
     || (has_commitment_length self && negb (truthy (commitment self)))
     || ((amount self =? 0) && negb (has_nft self))
  then raise invalid
  else ret tt.

Definition serialize_to (self : t) : M BCDataStream.t unit :=
  BCDataStream.write (id self) ;;;
  (if (0 <=? bitfield self) && (bitfield self <? 256)
   then BCDataStream.write [byte_of_Z (bitfield self)]
   else raise StructError) ;;;
  (if has_commitment_length self
   then BCDataStream.write_compact_size (Z.of_nat (List.length (commitment self))) ;;;
        BCDataStream.write (commitment self)
   else ret tt) ;;;
  (if has_amount self then BCDataStream.write_compact_size (amount self) else ret tt).

(** [serialize()]: the bytes of a stream of its own. *)
Definition serialize (self : t) : result bytes :=
  fst (written_by (serialize_to self) tt).

End OutputData.

Definition PREFIX_BYTE `{Externals} : bytes := [SPECIAL_TOKEN_PREFIX].

Definition wrap_spk `{Externals} (token_data : option OutputData.t) (script_pub_key : bytes)
    : result bytes :=
  match token_data with
  | None => Ok script_pub_key
  | Some td =>
      match OutputData.serialize td with
      | Ok ser => Ok (PREFIX_BYTE ++ ser ++ script_pub_key)
      | Raise e => Raise e
      end
  end.

Definition unwrap_spk `{Externals} (wrapped_spk : bytes) : result (option OutputData.t * bytes) :=
  match wrapped_spk with
  | [] => Ok (None, wrapped_spk)
  | b :: _ =>
      if negb (Byte.eqb b SPECIAL_TOKEN_PREFIX) then Ok (None, wrapped_spk)
      else
        let token_data := OutputData.default in
        let ds := BCDataStream.new wrapped_spk in
        match BCDataStream.read_bytes (Some 1) true ds with
        | (Raise e, _) => Raise e
        | (Ok pfx, ds1) =>
            if negb (bytes_eqb pfx PREFIX_BYTE) then Raise AssertionError
            else
              match OutputData.deserialize (token_data, ds1) with
              | (Raise e, _) =>
                  if is_SerializationError e then Ok (None, wrapped_spk) else Raise e
              | (Ok _, (td, ds2)) =>
                  Ok (Some td, skipn (BCDataStream.read_cursor ds2) wrapped_spk)
              end
        end
  end.

(** ** bitcoin_types.py *)

Module uint256.

Record t : Type := mk { data : bytes }.

(** [uint256()]. *)
Definition default : t := mk (repeat x00 32).

(** [uint256(data)] for a [str]: the hex text, byte-reversed; [None] when
    the constructor raises ([ValueError] from [bytes.fromhex], or its
    [assert len(self.data) == 32]). *)
Definition of_str (hex : string) : option t :=
  match bytes_fromhex hex with
  | Some b => if Nat.eqb (List.length b) 32 then Some (mk (rev b)) else None
  | None => None
  end.

(** [__str__]. *)
Definition __str__ (self : t) : string := bytes_hex (rev (data self)).

Definition eqb (self other : t) : bool := bytes_eqb (data self) (data other).

Definition serialize (self : t) : M BCDataStream.t unit :=
  assert (Nat.eqb (List.length (data self)) 32) ;;;
  BCDataStream.write (data self).

Definition deserialize : M (t * BCDataStream.t) unit :=
  d <- on_stream (BCDataStream.read_bytes (Some 32) true) ;;
  update (fun _ => mk d) ;;;
  assert (Nat.eqb (List.length d) 32).

End uint256.

(** [class TxId(uint256): pass]. *)
Module TxId := uint256.

Module COutPoint.

Record t : Type := mk { txid : TxId.t; n : Z }.

(** [COutPoint()]. *)
Definition default : t := mk TxId.default 0.

Definition set_txid (x : TxId.t) (self : t) : t := mk x (n self).
Definition set_n (x : Z) (self : t) : t := mk (txid self) x.

Definition eqb (self other : t) : bool :=
  TxId.eqb (txid self) (txid other) && (n self =? n other).

Definition serialize (self : t) : M BCDataStream.t unit :=
  TxId.serialize (txid self) ;;;
  assert (n self >=? 0) ;;;
  BCDataStream.write_uint32 (n self).

Definition deserialize : M (t * BCDataStream.t) unit :=
  zoom txid set_txid TxId.deserialize ;;;
  x <- on_stream BCDataStream.read_uint32 ;;
  update (set_n x).

End COutPoint.

Module CTxIn.

Record t : Type := mk { prevout : COutPoint.t; script_sig : bytes; sequence : Z }.

Definition SEQUENCE_FINAL : Z := 4294967295.

(** [CTxIn()]. *)
Definition default : t := mk COutPoint.default [] SEQUENCE_FINAL.

Definition set_prevout (x : COutPoint.t) (self : t) : t :=
  mk x (script_sig self) (sequence self).
Definition set_script_sig (x : bytes) (self : t) : t :=
  mk (prevout self) x (sequence self).
Definition set_sequence (x : Z) (self : t) : t :=
  mk (prevout self) (script_sig self) x.

Definition eqb (self other : t) : bool :=
  COutPoint.eqb (prevout self) (prevout other)
  && bytes_eqb (script_sig self) (script_sig other)
  && (sequence self =? sequence other).

Definition serialize (self : t) : M BCDataStream.t unit :=
  COutPoint.serialize (prevout self) ;;;
  BCDataStream.write_string (script_sig self) ;;;
  assert (sequence self >=? 0) ;;;
  BCDataStream.write_uint32 (sequence self).

Definition deserialize : M (t * BCDataStream.t) unit :=
  zoom prevout set_prevout COutPoint.deserialize ;;;
  s <- on_stream (BCDataStream.read_bytes None true) ;;
  update (set_script_sig s) ;;;
  q <- on_stream BCDataStream.read_uint32 ;;
  update (set_sequence q).

End CTxIn.

Module CTxOut.

Record t : Type :=
  mk { value : Z; script_pub_key : bytes; token_data : option OutputData.t }.

(** [CTxOut()]. *)
Definition default : t := mk 0 [] None.

Definition set_value (x : Z) (self : t) : t :=
  mk x (script_pub_key self) (token_data self).
Definition set_unwrapped (x : option OutputData.t * bytes) (self : t) : t :=
  mk (value self) (snd x) (fst x).

Definition eqb (self other : t) : bool :=
  (value self =? value other)
  && bytes_eqb (script_pub_key self) (script_pub_key other)
  && option_eqb OutputData.eqb (token_data self) (token_data other).

Definition serialize `{Externals} (self : t) : M BCDataStream.t unit :=
  BCDataStream.write_int64 (value self) ;;;
  match wrap_spk (token_data self) (script_pub_key self) with
  | Ok wspk => BCDataStream.write_string wspk
  | Raise e => raise e
  end.

Definition deserialize `{Externals} : M (t * BCDataStream.t) unit :=
  v <- on_stream BCDataStream.read_int64 ;;
  update (set_value v) ;;;
  w <- on_stream (BCDataStream.read_bytes None true) ;;
  match unwrap_spk w with
  | Ok unwrapped => update (set_unwrapped unwrapped)
  | Raise e => raise e
  end.

End CTxOut.

Module CMutableTransaction.

Record t : Type :=
  mk { vin : list CTxIn.t; vout : list CTxOut.t; version : Z; locktime : Z }.

(** [CMutableTransaction()]. *)
Definition default : t := mk [] [] 2 0.

Definition set_vin (x : list CTxIn.t) (self : t) : t :=
  mk x (vout self) (version self) (locktime self).
Definition set_vout (x : list CTxOut.t) (self : t) : t :=
  mk (vin self) x (version self) (locktime self).
Definition set_version (x : Z) (self : t) : t :=
  mk (vin self) (vout self) x (locktime self).
Definition set_locktime (x : Z) (self : t) : t :=
  mk (vin self) (vout self) (version self) x.

Definition eqb (self other : t) : bool :=
  list_eqb CTxIn.eqb (vin self) (vin other)
  && list_eqb CTxOut.eqb (vout self) (vout other)
  && (version self =? version other)
  && (locktime self =? locktime other).

Definition serialize `{Externals} (self : t) : M BCDataStream.t unit :=
  BCDataStream.write_int32 (version self) ;;;
  BCDataStream.write_compact_size (Z.of_nat (List.length (vin self))) ;;;
  for_each (vin self) CTxIn.serialize ;;;
  BCDataStream.write_compact_size (Z.of_nat (List.length (vout self))) ;;;
  for_each (vout self) CTxOut.serialize ;;;
  BCDataStream.write_uint32 (locktime self).

Definition deserialize `{Externals} : M (t * BCDataStream.t) unit :=
  v <- on_stream BCDataStream.read_int32 ;;
  update (set_version v) ;;;
  num_ins <- on_stream (BCDataStream.read_compact_size true) ;;
  update (set_vin []) ;;;
  repeat_n (Z.to_nat num_ins)
    (inp <- call_new CTxIn.default CTxIn.deserialize ;;
     update (fun self => set_vin (vin self ++ [inp]) self)) ;;;
  num_outs <- on_stream (BCDataStream.read_compact_size true) ;;
  update (set_vout []) ;;;
  repeat_n (Z.to_nat num_outs)
    (outp <- call_new CTxOut.default CTxOut.deserialize ;;
     update (fun self => set_vout (vout self ++ [outp]) self)) ;;;
  l <- on_stream BCDataStream.read_uint32 ;;
  update (set_locktime l).

(** [__bytes__]: the serialization on a stream of its own. *)
Definition __bytes__ `{Externals} (self : t) : result bytes :=
  fst (written_by (serialize self) tt).

(** [__str__]: [bytes(self).hex()]. *)
Definition __str__ `{Externals} (self : t) : result string :=
  match __bytes__ self with
  | Ok b => Ok (bytes_hex b)
  | Raise e => Raise e
  end.

End CMutableTransaction.

(** ** psbt.py *)

Definition PSBT_MAGIC_BYTES : bytes := [x70; x73; x62; x74; xff].

Definition PSBT_GLOBAL_UNSIGNED_TX : Z := 0.

Definition PSBT_IN_UTXO : Z := 0.
Definition PSBT_IN_PARTIAL_SIG : Z := 2.
Definition PSBT_IN_SIGHASH : Z := 3.
Definition PSBT_IN_REDEEMSCRIPT : Z := 4.
Definition PSBT_IN_BIP32_DERIVATION : Z := 6.
Definition PSBT_IN_SCRIPTSIG : Z := 7.

Definition PSBT_OUT_REDEEMSCRIPT : Z := 0.
Definition PSBT_OUT_BIP32_DERIVATION : Z := 2.

Definition PSBT_SEPARATOR : bytes := [].

(** [bytes((typ,))]. *)
Definition type_byte (typ : Z) : bytes := [byte_of_Z typ].

(** [f"{i}"]. *)
Definition decimal (i : nat) : string := NilEmpty.string_of_uint (Nat.to_uint i).

Module KeyOriginInfo.

Record t : Type := mk { fingerprint : bytes; path : list Z }.

(** [KeyOriginInfo()]. *)
Definition default : t := mk [x00; x00; x00; x00] [].

Definition set_fingerprint (x : bytes) (self : t) : t := mk x (path self).
Definition append_path (x : Z) (self : t) : t := mk (fingerprint self) (path self ++ [x]).

Definition eqb (self other : t) : bool :=
  bytes_eqb (fingerprint self) (fingerprint other)
  && list_eqb Z.eqb (path self) (path other).

End KeyOriginInfo.

Definition _deserialize_unknown (key : bytes) : M (dict bytes * BCDataStream.t) unit :=
  unknown <- this ;;
  if dict_contains key unknown
  then raise (mkPSBTSerializationError "Duplicate Key, key for unknown value already provided")
  else
    val <- on_stream (BCDataStream.read_bytes None true) ;;
    update (dict_set key val).

Definition _serialize_unknown (unknown : dict bytes) : M BCDataStream.t unit :=
  for_each unknown (fun kv =>
    BCDataStream.write_string (fst kv) ;;;
    BCDataStream.write_string (snd kv)).

Definition _validate_pubkey `{Externals} {St : Type} (pubkey : bytes) (extra_msg : string)
    : M St unit :=
  if ser_to_point pubkey then ret tt
  else raise (mkPSBTSerializationError ("Invalid pubkey" ++ extra_msg)).

Definition _parse_pubkey `{Externals} {St : Type} (psbt_key : bytes) : M St bytes :=
  if negb (Nat.eqb (List.length psbt_key) 66) && negb (Nat.eqb (List.length psbt_key) 34)
  then raise (mkPSBTSerializationError
                "Size of key was not the expected size for the type partial signature pubkey")
  else
    let pubkey := tl psbt_key in
    _validate_pubkey pubkey "" ;;;
    ret pubkey.

Definition _deserialize_hd_keypath `{Externals} (psbt_key : bytes)
    : M (dict KeyOriginInfo.t * BCDataStream.t) unit :=
  pubkey <- _parse_pubkey psbt_key ;;
  hd_keypaths <- this ;;
  if dict_contains pubkey hd_keypaths
  then raise (mkPSBTSerializationError "Duplicate Key, pubkey derivation path already provided")
  else
    value <- on_stream (BCDataStream.read_bytes None true) ;;
    let value_len := List.length value in
    if Nat.leb value_len 0 || negb (Nat.eqb (Nat.modulo value_len 4) 0)
    then raise (mkPSBTSerializationError "Invalid length for HD key path")
    else
      r <- run_on (KeyOriginInfo.default, BCDataStream.new value)
             (fp <- on_stream (BCDataStream.read_bytes (Some 4) true) ;;
              update (KeyOriginInfo.set_fingerprint fp) ;;;
              while_more
                (index <- on_stream BCDataStream.read_uint32 ;;
                 update (KeyOriginInfo.append_path index) ;;;
                 ret true)) ;;
      let keypath := fst (snd r) in
      assert (Nat.eqb value_len ((List.length (KeyOriginInfo.path keypath) + 1) * 4)) ;;;
      update (dict_set pubkey keypath).

Definition _serialize_hd_keypaths `{Externals} (hd_keypaths : dict KeyOriginInfo.t) (typ : Z)
    : M BCDataStream.t unit :=
  for_each hd_keypaths (fun kv =>
    let pubkey := fst kv in
    let keypath := snd kv in
    _validate_pubkey pubkey " being serialized" ;;;
    BCDataStream.write_string (type_byte typ ++ pubkey) ;;;
    value <- written_by
               ((if negb (Nat.eqb (List.length (KeyOriginInfo.fingerprint keypath)) 4)
                 then raise (mkPSBTSerializationError "Expected fingerprint length of 4")
                 else ret tt) ;;;
                BCDataStream.write (KeyOriginInfo.fingerprint keypath) ;;;
                for_each (KeyOriginInfo.path keypath) BCDataStream.write_uint32) ;;
    BCDataStream.write_string value).

Module PSBTInputOutputBase.

Record t : Type :=
  mk { redeem_script : bytes; hd_keypaths : dict KeyOriginInfo.t; unknown : dict bytes }.

(** What [_clear] leaves. *)
Definition cleared : t := mk [] [] [].

Definition set_redeem_script (x : bytes) (self : t) : t :=
  mk x (hd_keypaths self) (unknown self).
Definition set_hd_keypaths (x : dict KeyOriginInfo.t) (self : t) : t :=
  mk (redeem_script self) x (unknown self).
Definition set_unknown (x : dict bytes) (self : t) : t :=
  mk (redeem_script self) (hd_keypaths self) x.

Definition eqb (self other : t) : bool :=
  bytes_eqb (redeem_script self) (redeem_script other)
  && dict_eqb KeyOriginInfo.eqb (hd_keypaths self) (hd_keypaths other)
  && dict_eqb bytes_eqb (unknown self) (unknown other).

End PSBTInputOutputBase.

Module PSBTInput.

(** [class PSBTInput(_PSBTInputOutputBase)]: the inherited attributes are
    the record [base]. *)
Record t : Type :=
  mk { base : PSBTInputOutputBase.t;
       utxo : option CTxOut.t;
       final_script_sig : bytes;
       partial_sigs : dict (bytes * bytes);
       sighash_type : Z }.

Definition redeem_script (self : t) : bytes := PSBTInputOutputBase.redeem_script (base self).
Definition hd_keypaths (self : t) : dict KeyOriginInfo.t :=
  PSBTInputOutputBase.hd_keypaths (base self).
Definition unknown (self : t) : dict bytes := PSBTInputOutputBase.unknown (base self).

(** [PSBTInput()], and what [_clear()] leaves. *)
Definition default : t := mk PSBTInputOutputBase.cleared None [] [] 0.

Definition set_base (x : PSBTInputOutputBase.t) (self : t) : t :=
  mk x (utxo self) (final_script_sig self) (partial_sigs self) (sighash_type self).
Definition set_utxo (x : option CTxOut.t) (self : t) : t :=
  mk (base self) x (final_script_sig self) (partial_sigs self) (sighash_type self).
Definition set_final_script_sig (x : bytes) (self : t) : t :=
  mk (base self) (utxo self) x (partial_sigs self) (sighash_type self).
Definition set_partial_sigs (x : dict (bytes * bytes)) (self : t) : t :=
  mk (base self) (utxo self) (final_script_sig self) x (sighash_type self).
Definition set_sighash_type (x : Z) (self : t) : t :=
  mk (base self) (utxo self) (final_script_sig self) (partial_sigs self) x.
Definition set_redeem_script (x : bytes) (self : t) : t :=
  set_base (PSBTInputOutputBase.set_redeem_script x (base self)) self.
Definition set_hd_keypaths (x : dict KeyOriginInfo.t) (self : t) : t :=
  set_base (PSBTInputOutputBase.set_hd_keypaths x (base self)) self.
Definition set_unknown (x : dict bytes) (self : t) : t :=
  set_base (PSBTInputOutputBase.set_unknown x (base self)) self.

Definition eqb (self other : t) : bool :=
  PSBTInputOutputBase.eqb (base self) (base other)
  && option_eqb CTxOut.eqb (utxo self) (utxo other)
  && bytes_eqb (final_script_sig self) (final_script_sig other)
  && dict_eqb (fun a b => bytes_eqb (fst a) (fst b) && bytes_eqb (snd a) (snd b))
       (partial_sigs self) (partial_sigs other)
  && (sighash_type self =? sighash_type other).

(** One turn of the loop of [deserialize]: [false] when the separator
    ended the map. *)
Definition deserialize_entry `{Externals} : M (t * BCDataStream.t) bool :=
  key <- on_stream (BCDataStream.read_bytes None true) ;;
  match key with
  | [] => ret false
  | key0 :: _ =>
      let typ := Z_of_byte key0 in
      self <- this ;;
      (if typ =? PSBT_IN_UTXO then
         match utxo self with
         | Some _ =>
             raise (mkPSBTSerializationError "Duplicate Key, input utxo already provided")
         | None =>
             if negb (Nat.eqb (List.length key) 1)
             then raise (mkPSBTSerializationError "utxo key is more than one byte type")
             else
               data <- on_stream (BCDataStream.read_bytes None true) ;;
               vds2 <- deserialize_into (fun o => set_utxo (Some o)) CTxOut.default data
                         CTxOut.deserialize ;;
               if BCDataStream.has_more vds2
               then raise (mkPSBTSerializationError
                             "utxo serialization has extra or unexpected bytes at the end")
               else ret tt
         end
       else if typ =? PSBT_IN_PARTIAL_SIG then
         pubkey <- _parse_pubkey key ;;
         let key_id := hash_160 pubkey in
         if dict_contains key_id (partial_sigs self)
         then raise (mkPSBTSerializationError
                       "Duplicate Key, input partial signature for pubkey already provided")
         else
           sig <- on_stream (BCDataStream.read_bytes None true) ;;
           update (fun self => set_partial_sigs
                                 (dict_set key_id (pubkey, sig) (partial_sigs self)) self)
       else if typ =? PSBT_IN_SIGHASH then
         if negb (sighash_type self =? 0)
         then raise (mkPSBTSerializationError
                       "Duplicate Key, input sighash type already provided")
         else if negb (Nat.eqb (List.length key) 1)
         then raise (mkPSBTSerializationError "Sighash type key is more than one byte type")
         else
           data <- on_stream (BCDataStream.read_bytes None true) ;;
           r <- run_on (BCDataStream.new data) BCDataStream.read_uint32 ;;
           update (set_sighash_type (fst r)) ;;;
           if BCDataStream.has_more (snd r)
           then raise (mkPSBTSerializationError
                         "sighash type serialization has extra or unexpected bytes at the end")
           else ret tt
       else if typ =? PSBT_IN_REDEEMSCRIPT then
         if truthy (redeem_script self)
         then raise (mkPSBTSerializationError
                       "Duplicate Key, input redeemScript already provided")
         else if negb (Nat.eqb (List.length key) 1)
         then raise (mkPSBTSerializationError
                       "Input redeemScript key is more than one byte type")
         else
           x <- on_stream (BCDataStream.read_bytes None true) ;;
           update (set_redeem_script x)
       else if typ =? PSBT_IN_BIP32_DERIVATION then
         zoom hd_keypaths set_hd_keypaths (_deserialize_hd_keypath key)
       else if typ =? PSBT_IN_SCRIPTSIG then
         if truthy (final_script_sig self)
         then raise (mkPSBTSerializationError
                       "Duplicate Key, input final scriptSig already provided")
         else if negb (Nat.eqb (List.length key) 1)
         then raise (mkPSBTSerializationError
                       "Final scriptSig key is more than one byte type")
         else
           x <- on_stream (BCDataStream.read_bytes None true) ;;
           update (set_final_script_sig x)
       else
         zoom unknown set_unknown (_deserialize_unknown key)) ;;;
      ret true
  end.

Definition deserialize `{Externals} : M (t * BCDataStream.t) unit :=
  update (fun _ => default) ;;;
  while_more deserialize_entry.

Definition serialize `{Externals} (self : t) : M BCDataStream.t unit :=
  match utxo self with
  | Some o =>
      BCDataStream.write_string (type_byte PSBT_IN_UTXO) ;;;
      data <- written_by (CTxOut.serialize o) ;;
      BCDataStream.write_string data
  | None => ret tt
  end ;;;
  (if negb (truthy (final_script_sig self)) then
     for_each (partial_sigs self) (fun kv =>
       BCDataStream.write_string (type_byte PSBT_IN_PARTIAL_SIG ++ fst (snd kv)) ;;;
       BCDataStream.write_string (snd (snd kv))) ;;;
     (if negb (sighash_type self =? 0) then
        BCDataStream.write_string (type_byte PSBT_IN_SIGHASH) ;;;
        data <- written_by (BCDataStream.write_uint32 (sighash_type self)) ;;
        BCDataStream.write_string data
      else ret tt) ;;;
     (if truthy (redeem_script self) then
        BCDataStream.write_string (type_byte PSBT_IN_REDEEMSCRIPT) ;;;
        BCDataStream.write_string (redeem_script self)
      else ret tt) ;;;
     _serialize_hd_keypaths (hd_keypaths self) PSBT_IN_BIP32_DERIVATION
   else
     BCDataStream.write_string (type_byte PSBT_IN_SCRIPTSIG) ;;;
     BCDataStream.write_string (final_script_sig self)) ;;;
  _serialize_unknown (unknown self) ;;;
  BCDataStream.write_string PSBT_SEPARATOR.

End PSBTInput.

Module PSBTOutput.

(** [class PSBTOutput(_PSBTInputOutputBase)], with no attribute of its
    own. *)
Record t : Type := mk { base : PSBTInputOutputBase.t }.

Definition redeem_script (self : t) : bytes := PSBTInputOutputBase.redeem_script (base self).
Definition hd_keypaths (self : t) : dict KeyOriginInfo.t :=
  PSBTInputOutputBase.hd_keypaths (base self).
Definition unknown (self : t) : dict bytes := PSBTInputOutputBase.unknown (base self).

(** [PSBTOutput()], and what [_clear()] leaves. *)
Definition default : t := mk PSBTInputOutputBase.cleared.

Definition set_redeem_script (x : bytes) (self : t) : t :=
  mk (PSBTInputOutputBase.set_redeem_script x (base self)).
Definition set_hd_keypaths (x : dict KeyOriginInfo.t) (self : t) : t :=
  mk (PSBTInputOutputBase.set_hd_keypaths x (base self)).
Definition set_unknown (x : dict bytes) (self : t) : t :=
  mk (PSBTInputOutputBase.set_unknown x (base self)).

Definition eqb (self other : t) : bool :=
  PSBTInputOutputBase.eqb (base self) (base other).

Definition deserialize_entry `{Externals} : M (t * BCDataStream.t) bool :=
  key <- on_stream (BCDataStream.read_bytes None true) ;;
  match key with
  | [] => ret false
  | key0 :: _ =>
      let typ := Z_of_byte key0 in
      self <- this ;;
      (if typ =? PSBT_OUT_REDEEMSCRIPT then
         if truthy (redeem_script self)
         then raise (mkPSBTSerializationError
                       "Duplicate Key, output redeemScript already provided")
         else if negb (Nat.eqb (List.length key) 1)
         then raise (mkPSBTSerializationError
                       "Output redeemScript key is more than one byte type")
         else
           x <- on_stream (BCDataStream.read_bytes None true) ;;
           update (set_redeem_script x)
       else if typ =? PSBT_OUT_BIP32_DERIVATION then
         zoom hd_keypaths set_hd_keypaths (_deserialize_hd_keypath key)
       else
         zoom unknown set_unknown (_deserialize_unknown key)) ;;;
      ret true
  end.

Definition deserialize `{Externals} : M (t * BCDataStream.t) unit :=
  update (fun _ => default) ;;;
  while_more deserialize_entry.

Definition serialize `{Externals} (self : t) : M BCDataStream.t unit :=
  (if truthy (redeem_script self) then
     BCDataStream.write_string (type_byte PSBT_OUT_REDEEMSCRIPT) ;;;
     BCDataStream.write_string (redeem_script self)
   else ret tt) ;;;
  _serialize_hd_keypaths (hd_keypaths self) PSBT_OUT_BIP32_DERIVATION ;;;
  _serialize_unknown (unknown self) ;;;
  BCDataStream.write_string PSBT_SEPARATOR.

End PSBTOutput.

Module PSBT.

Record t : Type :=
  mk { tx : option CMutableTransaction.t;
       inputs : list PSBTInput.t;
       outputs : list PSBTOutput.t;
       unknown : dict bytes }.

(** [PSBT()], and what [_clear()] leaves. *)
Definition default : t := mk None [] [] [].

Definition set_tx (x : option CMutableTransaction.t) (self : t) : t :=
  mk x (inputs self) (outputs self) (unknown self).
Definition set_inputs (x : list PSBTInput.t) (self : t) : t :=
  mk (tx self) x (outputs self) (unknown self).
Definition set_outputs (x : list PSBTOutput.t) (self : t) : t :=
  mk (tx self) (inputs self) x (unknown self).
Definition set_unknown (x : dict bytes) (self : t) : t :=
  mk (tx self) (inputs self) (outputs self) x.

Definition eqb (self other : t) : bool :=
  option_eqb CMutableTransaction.eqb (tx self) (tx other)
  && list_eqb PSBTInput.eqb (inputs self) (inputs other)
  && list_eqb PSBTOutput.eqb (outputs self) (outputs other)
  && dict_eqb bytes_eqb (unknown self) (unknown other).

(** What [deserialize] accepts as [src]. *)
Inductive source : Type :=
| FromBytes (b : bytes)
| FromStr (s : string)
| FromStream (vds : BCDataStream.t).

(** [for i, inp in enumerate(self.tx.vin)]: the first input with a
    non-empty [script_sig] raises.  ([script_sig] is bytes by its type, so
    the loop's [assert isinstance] holds.) *)
Fixpoint check_script_sigs {St : Type} (i : nat) (vin : list CTxIn.t) : M St unit :=
  match vin with
  | [] => ret tt
  | inp :: rest =>
      if negb (Nat.eqb (List.length (CTxIn.script_sig inp)) 0)
      then raise (mkPSBTSerializationError
                    ("Unsigned tx has a non-empty empty scriptSig at input " ++ decimal i))
      else check_script_sigs (S i) rest
  end.

(** One turn of the loop over the global map: [false] at the separator. *)
Definition deserialize_global_entry `{Externals} : M (t * BCDataStream.t) bool :=
  key <- on_stream (BCDataStream.read_bytes None true) ;;
  match key with
  | [] => ret false
  | key0 :: _ =>
      let typ := Z_of_byte key0 in
      self <- this ;;
      (if typ =? PSBT_GLOBAL_UNSIGNED_TX then
         if negb (Nat.eqb (List.length key) 1)
         then raise (mkPSBTSerializationError "Global unsigned tx key is more than one byte")
         else
           match tx self with
           | Some _ =>
               raise (mkPSBTSerializationError "Duplicate Key, unsigned tx already provided")
           | None =>
               txdata <- on_stream (BCDataStream.read_bytes None true) ;;
               vds2 <- deserialize_into (fun o => set_tx (Some o)) CMutableTransaction.default
                         txdata CMutableTransaction.deserialize ;;
               if BCDataStream.has_more vds2
               then raise (mkPSBTSerializationError
                             "transaction serialization has extra or unexpected bytes at the end")
               else
                 self <- this ;;
                 match tx self with
                 | Some tx' => check_script_sigs 0 (CMutableTransaction.vin tx')
                 | None => ret tt
                 end
           end
       else
         zoom unknown set_unknown (_deserialize_unknown key)) ;;;
      ret true
  end.

(** [deserialize] once [src] has become the stream [vds]. *)
Definition deserialize_stream `{Externals} : M (t * BCDataStream.t) unit :=
  magic <- on_stream (BCDataStream.read_bytes (Some 5) false) ;;
  if negb (bytes_eqb magic PSBT_MAGIC_BYTES)
  then raise (mkPSBTMagicBytesError "Invalid magic bytes")
  else
    update (fun _ => default) ;;;
    while_more deserialize_global_entry ;;;
    self <- this ;;
    match tx self with
    | None => raise (mkPSBTSerializationError "No unsigned transcation was provided")
    | Some tx' =>
        repeat_n (List.length (CMutableTransaction.vin tx'))
          (more <- on_stream BCDataStream.can_read_more ;;
           if negb more
           then raise (mkPSBTSerializationError
                         "Inputs provided does not match the number of inputs in transaction.")
           else
             psbti <- call_new PSBTInput.default PSBTInput.deserialize ;;
             update (fun self => set_inputs (inputs self ++ [psbti]) self)) ;;;
        repeat_n (List.length (CMutableTransaction.vout tx'))
          (more <- on_stream BCDataStream.can_read_more ;;
           if negb more
           then raise (mkPSBTSerializationError
                         "Outputs provided does not match the number of inputs in transaction.")
           else
             output <- call_new PSBTOutput.default PSBTOutput.deserialize ;;
             update (fun self => set_outputs (outputs self ++ [output]) self))
    end.

(** [deserialize(src, is_hex=False)]: a computation on the receiver. *)
Definition deserialize `{Externals} (src : source) (is_hex : bool) : M t unit :=
  fun self =>
    let opened : result BCDataStream.t :=
      match src with
      | FromStr s =>
          if is_hex then
            match bytes_fromhex s with
            | Some decoded => Ok (BCDataStream.new decoded)
            | None =>
                Raise (mkPSBTSerializationError
                         "PSBT with is_hex=True expects string argument to be hex-encoded")
            end
          else
            match a2b_base64 s with
            | Some decoded => Ok (BCDataStream.new decoded)
            | None =>
                Raise (mkPSBTSerializationError
                         "PSBT expects string argument to be base64-encoded")
            end
      | FromBytes b => Ok (BCDataStream.new b)
      | FromStream vds => Ok vds
      end in
    match opened with
    | Raise e => (Raise e, self)
    | Ok vds =>
        match deserialize_stream (self, vds) with
        | (r, (self', _)) => (r, self')
        end
    end.

(** The body of [serialize] on the stream it writes. *)
Definition serialize_to `{Externals} (self : t) : M BCDataStream.t unit :=
  BCDataStream.write PSBT_MAGIC_BYTES ;;;
  match tx self with
  | None =>
      raise (mkPSBTSerializationError "No unsigned transaction was provided for serialization")
  | Some tx' =>
      if existsb (fun inp => truthy (CTxIn.script_sig inp)) (CMutableTransaction.vin tx')
      then raise (mkPSBTSerializationError
                    "Unsigned transaction provided for serialization has non-empty scriptSig(s)")
      else
        BCDataStream.write_string (type_byte PSBT_GLOBAL_UNSIGNED_TX) ;;;
        txdata <- written_by (CMutableTransaction.serialize tx') ;;
        BCDataStream.write_string txdata ;;;
        _serialize_unknown (unknown self) ;;;
        BCDataStream.write_string PSBT_SEPARATOR ;;;
        (if negb (Nat.eqb (List.length (inputs self))
                    (List.length (CMutableTransaction.vin tx')))
         then raise (mkPSBTSerializationError
                       "The number PSBT inputs must equal the unsigned tx's number of inputs")
         else ret tt) ;;;
        for_each (inputs self) PSBTInput.serialize ;;;
        (if negb (Nat.eqb (List.length (outputs self))
                    (List.length (CMutableTransaction.vout tx')))
         then raise (mkPSBTSerializationError
                       "The number PSBT outputs must equal the unsigned tx's number of outputs")
         else ret tt) ;;;
        for_each (outputs self) PSBTOutput.serialize
  end.

(** [serialize(vds=None, return_hex=False)]: the string returned ([None]
    when the caller gave the stream) and the stream as written. *)
Definition serialize `{Externals} (self : t) (vds : option BCDataStream.t) (return_hex : bool)
    : result (option string) * BCDataStream.t :=
  let return_string := match vds with None => true | Some _ => false end in
  let vds := match vds with Some v => v | None => BCDataStream.new [] end in
  match serialize_to self vds with
  | (Ok _, vds') =>
      (Ok (if return_string
           then Some (if return_hex then bytes_hex (BCDataStream.input vds')
                      else b2a_base64 (BCDataStream.input vds'))
           else None), vds')
  | (Raise e, vds') => (Raise e, vds')
  end.

End PSBT.

(** ** The fixture of [tests/test_psbt.py] *)

Definition raw_psbt : string :=
  ("70736274ff0100a0020000000258e87a21b56daf0c23be8e7070456c336f7cbaa5c875" ++
   "7924f545887bb2abdd750000000000ffffffff6b04ec37326fbac8e468a73bf952c887" ++
   "7f84f96c3f9deadeab246455e34fe0cd0100000000ffffffff0270aaf0080000000019" ++
   "76a914d85c2b71d0060b09c9886aeb815e50991dda124d88ac00e1f505000000001976" ++
   "a91400aea9a2e5f0f876a588df5546e8742d1d87008f88ac000000000001002080f0fa" ++
   "020000000017a9140fb9463421696b82c833af241c78c17ddbde493487010447522102" ++
   "9583bf39ae0a609747ad199addd634fa6108559d6c5cd39b4c2183f1ab96e07f2102da" ++
   "b61ff49a14db6a7d02b0cd1fbb78fc4b18312b5b4e54dae4dba2fbfef536d752ae2206" ++
   "029583bf39ae0a609747ad199addd634fa6108559d6c5cd39b4c2183f1ab96e07f10d9" ++
   "0c6a4f000000800000008000000080220602dab61ff49a14db6a7d02b0cd1fbb78fc4b" ++
   "18312b5b4e54dae4dba2fbfef536d710d90c6a4f000000800000008001000080000100" ++
   "2000c2eb0b0000000017a914f6539307e3a48d1e0136d061f5d1fe19e1a24089870104" ++
   "47522103089dc10c7ac6db54f91329af617333db388cead0c231f723379d1b99030b02" ++
   "dc21023add904f3d6dcf59ddb906b0dee23529b7ffb9ed50e5e86151926860221f0e73" ++
   "52ae2206023add904f3d6dcf59ddb906b0dee23529b7ffb9ed50e5e86151926860221f" ++
   "0e7310d90c6a4f000000800000008003000080220603089dc10c7ac6db54f91329af61" ++
   "7333db388cead0c231f723379d1b99030b02dc10d90c6a4f0000008000000080020000" ++
   "8000220203a9a4c37f5996d3aa25dbac6b570af0650394492942460b354753ed9eeca5" ++
   "877110d90c6a4f000000800000008004000080002202027f6399757d2eff55a136ad02" ++
   "c684b1838b6556e5f1b6b34282a94b6b5005109610d90c6a4f00000080000000800500" ++
   "008000")%string.

(** An instance of the outside world to run the model on: the CashTokens
    prefix opcode, every key taken for a point, the identity for the digest
    and no base64 codec. *)
Definition test_externals : Externals :=
  {| SPECIAL_TOKEN_PREFIX := xef;
     ser_to_point := fun _ => true;
     hash_160 := fun b => b;
     a2b_base64 := fun _ => None;
     b2a_base64 := fun _ => EmptyString |}.


(** ** The wire format, as the spec writes it

    Pure counterparts of the writers, for stating what ends up on the
    wire. *)

(** The compact-size integer of section 3. *)
Definition compact_size (n : Z) : bytes :=
  if n <? 253 then [byte_of_Z n]
  else if n <? 2 ^ 16 then xfd :: le_encode 2 n
  else if n <? 2 ^ 32 then xfe :: le_encode 4 n
  else xff :: le_encode 8 n.

(** A byte vector: its compact-size length, then its bytes. *)
Definition byte_vector (data : bytes) : bytes :=
  compact_size (Z.of_nat (List.length data)) ++ data.

(** One entry of a TLV map: the key and the value, each a byte vector. *)
Definition map_entry (key value : bytes) : bytes := byte_vector key ++ byte_vector value.

(** A length that a compact size can carry. *)
Definition fits (data : bytes) : Prop := Z.of_nat (List.length data) < 2 ^ 64.

(** The stream after [out] was appended to its buffer. *)
Definition appended (v : BCDataStream.t) (out : bytes) : BCDataStream.t :=
  BCDataStream.mk (BCDataStream.input v ++ out) (BCDataStream.read_cursor v).

(** [m] writes exactly [out], whatever the stream held. *)
Definition writes (m : M BCDataStream.t unit) (out : bytes) : Prop :=
  forall v, m v = (Ok tt, appended v out).

(** On a stream whose unread bytes start with [data], [m] turns the
    receiver [self] into [self'], yields [a] and consumes exactly [data]. *)
Definition parses {Self A : Type} (m : M (Self * BCDataStream.t) A)
    (self : Self) (data : bytes) (a : A) (self' : Self) : Prop :=
  forall v rest,
    BCDataStream.remaining v = data ++ rest ->
    m (self, v) = (Ok a, (self', BCDataStream.advance (List.length data) v)).

(** The same for a computation on the stream alone. *)
Definition reads {A : Type} (m : M BCDataStream.t A) (data : bytes) (a : A) : Prop :=
  forall v rest,
    BCDataStream.remaining v = data ++ rest ->
    m v = (Ok a, BCDataStream.advance (List.length data) v).

(** ** Token data, as the spec writes it *)

(** The fields of a token as [OutputData.deserialize] reads them, before
    it validates them: the reading part of its body. *)
Definition token_read_fields : M (OutputData.t * BCDataStream.t) unit :=
  x <- on_stream (BCDataStream.read_bytes (Some 32) true) ;;
  update (OutputData.set_id x) ;;;
  b <- on_stream (BCDataStream.read_bytes (Some 1) true) ;;
  update (OutputData.set_bitfield (le_decode b)) ;;;
  self <- this ;;
  (if OutputData.has_commitment_length self
   then c <- on_stream (BCDataStream.read_bytes None true) ;;
        update (OutputData.set_commitment c)
   else update (OutputData.set_commitment [])) ;;;
  self <- this ;;
  (if OutputData.has_amount self
   then a <- on_stream (BCDataStream.read_compact_size true) ;;
        update (OutputData.set_amount a)
   else update (OutputData.set_amount 0)).

(** The invariants of TokenData in the words of section 3: the top nibble
    is one of 0x10 .. 0x70; the capability nibble is at most 2; without the
    NFT flag the amount flag is set, the capability is 0 and the
    commitment-length flag is unset; with the amount flag the amount is
    nonzero (and at most 2^63 - 1); with the commitment-length flag the
    commitment is non-empty; a token with neither a nonzero amount nor the
    NFT flag is invalid. *)
Definition token_invariants (td : OutputData.t) : bool :=
  let top := Z.land (OutputData.bitfield td) 240 in
  let capability := Z.land (OutputData.bitfield td) 15 in
  let amount_flag := negb (Z.land (OutputData.bitfield td) 16 =? 0) in
  let nft_flag := negb (Z.land (OutputData.bitfield td) 32 =? 0) in
  let commitment_flag := negb (Z.land (OutputData.bitfield td) 64 =? 0) in
  existsb (Z.eqb top) [16; 32; 48; 64; 80; 96; 112]
  && (capability <=? 2)
  && (nft_flag || (amount_flag && (capability =? 0) && negb commitment_flag))
  && (negb amount_flag
      || (negb (OutputData.amount td =? 0) && (OutputData.amount td <=? 2 ^ 63 - 1)))
  && (negb commitment_flag || negb (Nat.eqb (List.length (OutputData.commitment td)) 0))
  && negb ((OutputData.amount td =? 0) && negb nft_flag).

(** A token as it is on the wire: a 32-byte id, a one-byte bitfield that
    satisfies the invariants, and the optional fields exactly as the
    bitfield announces them. *)
Definition token_on_wire (td : OutputData.t) : Prop :=
  List.length (OutputData.id td) = 32%nat
  /\ 0 <= OutputData.bitfield td < 256
  /\ token_invariants td = true
  /\ 0 <= OutputData.amount td
  /\ (OutputData.has_amount td = false -> OutputData.amount td = 0)
  /\ (OutputData.has_commitment_length td = false -> OutputData.commitment td = [])
  /\ fits (OutputData.commitment td).

(** The bytes of a token in section 4.3's layout. *)
Definition token_bytes (td : OutputData.t) : bytes :=
  OutputData.id td ++ [byte_of_Z (OutputData.bitfield td)]
  ++ (if OutputData.has_commitment_length td
      then byte_vector (OutputData.commitment td) else [])
  ++ (if OutputData.has_amount td then compact_size (OutputData.amount td) else []).

(** [script] begins with the marker byte. *)
Definition begins_with_marker `{Externals} (script : bytes) : bool :=
  match script with
  | [] => false
  | b :: _ => Byte.eqb b SPECIAL_TOKEN_PREFIX
  end.

(** A token that breaks an invariant: [OutputData(amount=0)]. *)
Definition zero_amount_token : OutputData.t :=
  OutputData.mk (repeat x00 32) Structure.HasAmount 0 [].

(** ** The container, as the spec writes it *)

(** [b] begins with the five magic bytes. *)
Definition begins_with_magic (b : bytes) : bool :=
  bytes_eqb (firstn 5 b) PSBT_MAGIC_BYTES.

(** The bytes [deserialize] gets to read from [src]: the bytes themselves,
    the decoded string, or what the caller's stream has left. *)
Definition source_bytes `{Externals} (src : PSBT.source) (is_hex : bool) : option bytes :=
  match src with
  | PSBT.FromBytes b => Some b
  | PSBT.FromStr s => if is_hex then bytes_fromhex s else a2b_base64 s
  | PSBT.FromStream vds => Some (BCDataStream.remaining vds)
  end.

(** The stream [deserialize] reads [src] through. *)
Definition source_stream `{Externals} (src : PSBT.source) (is_hex : bool)
    : option BCDataStream.t :=
  match src with
  | PSBT.FromBytes b => Some (BCDataStream.new b)
  | PSBT.FromStr s =>
      option_map BCDataStream.new (if is_hex then bytes_fromhex s else a2b_base64 s)
  | PSBT.FromStream vds => Some vds
  end.

(** A transaction with no input and no output, and a global map that gives
    it twice: the second key is a duplicate. *)
Definition empty_tx_bytes : bytes :=
  [x02; x00; x00; x00; x00; x00; x00; x00; x00; x00].

Definition twice_the_tx : bytes :=
  PSBT_MAGIC_BYTES ++ map_entry [x00] empty_tx_bytes ++ map_entry [x00] empty_tx_bytes.

(** ** Entities, as the spec writes them (section 4.2) *)

(** An outpoint: identifier, output index. *)
Definition outpoint_bytes (p : COutPoint.t) : bytes :=
  uint256.data (COutPoint.txid p) ++ le_encode 4 (COutPoint.n p).

(** An input: outpoint (identifier, index), unlocking-script byte vector,
    sequence. *)
Definition txin_bytes (i : CTxIn.t) : bytes :=
  uint256.data (COutPoint.txid (CTxIn.prevout i))
  ++ le_encode 4 (COutPoint.n (CTxIn.prevout i))
  ++ byte_vector (CTxIn.script_sig i)
  ++ le_encode 4 (CTxIn.sequence i).

(** An input whose attributes are within their types. *)
Definition txin_wf (i : CTxIn.t) : Prop :=
  List.length (uint256.data (COutPoint.txid (CTxIn.prevout i))) = 32%nat
  /\ 0 <= COutPoint.n (CTxIn.prevout i) < 2 ^ 32
  /\ fits (CTxIn.script_sig i)
  /\ 0 <= CTxIn.sequence i < 2 ^ 32.

(** The wrapped locking script of an output (section 4.3). *)
Definition wrapped_script `{Externals} (o : CTxOut.t) : bytes :=
  match CTxOut.token_data o with
  | None => CTxOut.script_pub_key o
  | Some td => PREFIX_BYTE ++ token_bytes td ++ CTxOut.script_pub_key o
  end.

(** An output: value, wrapped-locking-script byte vector. *)
Definition txout_bytes `{Externals} (o : CTxOut.t) : bytes :=
  le_encode 8 (CTxOut.value o) ++ byte_vector (wrapped_script o).

(** An output whose attributes are within their types: its token data, if
    any, as on the wire; without token data, a script that does not unwrap
    to token data. *)
Definition txout_wf `{Externals} (o : CTxOut.t) : Prop :=
  - 2 ^ 63 <= CTxOut.value o < 2 ^ 63
  /\ fits (wrapped_script o)
  /\ match CTxOut.token_data o with
     | None => unwrap_spk (CTxOut.script_pub_key o) = Ok (None, CTxOut.script_pub_key o)
     | Some td => token_on_wire td
     end.

(** A transaction: version, input count, inputs, output count, outputs,
    locktime. *)
Definition tx_bytes `{Externals} (tx : CMutableTransaction.t) : bytes :=
  le_encode 4 (CMutableTransaction.version tx)
  ++ compact_size (Z.of_nat (List.length (CMutableTransaction.vin tx)))
  ++ List.concat (map txin_bytes (CMutableTransaction.vin tx))
  ++ compact_size (Z.of_nat (List.length (CMutableTransaction.vout tx)))
  ++ List.concat (map txout_bytes (CMutableTransaction.vout tx))
  ++ le_encode 4 (CMutableTransaction.locktime tx).

Definition tx_wf `{Externals} (tx : CMutableTransaction.t) : Prop :=
  - 2 ^ 31 <= CMutableTransaction.version tx < 2 ^ 31
  /\ Forall txin_wf (CMutableTransaction.vin tx)
  /\ Z.of_nat (List.length (CMutableTransaction.vin tx)) < 2 ^ 64
  /\ Forall txout_wf (CMutableTransaction.vout tx)
  /\ Z.of_nat (List.length (CMutableTransaction.vout tx)) < 2 ^ 64
  /\ 0 <= CMutableTransaction.locktime tx < 2 ^ 32.

(** ** TLV maps, as the spec writes them (section 4.4) *)

(** A map on the wire: its entries, then the separator. *)
Definition encoded_map (entries : list (bytes * bytes)) : bytes :=
  List.concat (map (fun kv => map_entry (fst kv) (snd kv)) entries) ++ [x00].

(** Entries that can stand in a map: a non-empty key, lengths a compact
    size can carry. *)
Definition entries_wf (entries : list (bytes * bytes)) : Prop :=
  Forall (fun kv => fst kv <> [] /\ fits (fst kv) /\ fits (snd kv)) entries.

(** [body] takes the receiver from [s] to [s'] through the entries [es],
    one turn of the loop for each, none of them the last. *)
Inductive steps {Self : Type} (body : M (Self * BCDataStream.t) bool)
    : Self -> list bytes -> Self -> Prop :=
| steps_nil (s : Self) : steps body s [] s
| steps_cons (s s1 s2 : Self) (e : bytes) (es : list bytes) :
    e <> [] -> parses body s e true s1 -> steps body s1 es s2 ->
    steps body s (e :: es) s2.

(** The value of a BIP-32 derivation entry: fingerprint, then the path. *)
Definition keypath_bytes (kp : KeyOriginInfo.t) : bytes :=
  KeyOriginInfo.fingerprint kp ++ List.concat (map (le_encode 4) (KeyOriginInfo.path kp)).

Definition keypath_wf (kp : KeyOriginInfo.t) : Prop :=
  List.length (KeyOriginInfo.fingerprint kp) = 4%nat
  /\ Forall (fun i => 0 <= i < 2 ^ 32) (KeyOriginInfo.path kp)
  /\ fits (keypath_bytes kp).

(** A public key as a key's sub-key: 33 or 65 bytes, a point of the curve. *)
Definition pubkey_ok `{Externals} (pk : bytes) : Prop :=
  (List.length pk = 33%nat \/ List.length pk = 65%nat) /\ ser_to_point pk = true.

Definition hd_entry (typ : Z) (kv : bytes * KeyOriginInfo.t) : bytes :=
  map_entry (type_byte typ ++ fst kv) (keypath_bytes (snd kv)).

Definition hd_keypaths_wf `{Externals} (d : dict KeyOriginInfo.t) : Prop :=
  NoDup (map fst d)
  /\ Forall (fun kv => pubkey_ok (fst kv) /\ keypath_wf (snd kv)) d.

Definition unknown_entry (kv : bytes * bytes) : bytes := map_entry (fst kv) (snd kv).

(** Unknown entries of a map whose recognised types are [known]. *)
Definition unknown_wf (known : list Z) (d : dict bytes) : Prop :=
  NoDup (map fst d)
  /\ Forall (fun kv =>
               fits (fst kv) /\ fits (snd kv)
               /\ match fst kv with
                  | [] => False
                  | b :: _ => ~ In (Z_of_byte b) known
                  end) d.

Definition partial_sig_entry (kv : bytes * (bytes * bytes)) : bytes :=
  map_entry (type_byte PSBT_IN_PARTIAL_SIG ++ fst (snd kv)) (snd (snd kv)).

Definition partial_sigs_wf `{Externals} (d : dict (bytes * bytes)) : Prop :=
  NoDup (map fst d)
  /\ Forall (fun kv =>
               fst kv = hash_160 (fst (snd kv))
               /\ pubkey_ok (fst (snd kv))
               /\ fits (snd (snd kv))) d.


(** The types an input map, an output map and the global map recognise. *)
Definition IN_KNOWN : list Z :=
  [PSBT_IN_UTXO; PSBT_IN_PARTIAL_SIG; PSBT_IN_SIGHASH; PSBT_IN_REDEEMSCRIPT;
   PSBT_IN_BIP32_DERIVATION; PSBT_IN_SCRIPTSIG].

Definition OUT_KNOWN : list Z := [PSBT_OUT_REDEEMSCRIPT; PSBT_OUT_BIP32_DERIVATION].

Definition GLOBAL_KNOWN : list Z := [PSBT_GLOBAL_UNSIGNED_TX].

(** An input map in section 4.4's order: the UTXO; then either the final
    unlocking script alone, or the partial signatures, the sighash type,
    the redeem script and the derivation paths; then the unknown entries
    and the separator. *)
Definition input_bytes `{Externals} (i : PSBTInput.t) : bytes :=
  match PSBTInput.utxo i with
  | Some o => map_entry (type_byte PSBT_IN_UTXO) (txout_bytes o)
  | None => []
  end
  ++ (if truthy (PSBTInput.final_script_sig i)
      then map_entry (type_byte PSBT_IN_SCRIPTSIG) (PSBTInput.final_script_sig i)
      else List.concat (map partial_sig_entry (PSBTInput.partial_sigs i))
           ++ (if PSBTInput.sighash_type i =? 0 then []
               else map_entry (type_byte PSBT_IN_SIGHASH)
                      (le_encode 4 (PSBTInput.sighash_type i)))
           ++ (if truthy (PSBTInput.redeem_script i)
               then map_entry (type_byte PSBT_IN_REDEEMSCRIPT) (PSBTInput.redeem_script i)
               else [])
           ++ List.concat (map (hd_entry PSBT_IN_BIP32_DERIVATION) (PSBTInput.hd_keypaths i)))
  ++ List.concat (map unknown_entry (PSBTInput.unknown i))
  ++ [x00].

(** An input whose attributes are within their types. *)
Definition input_wf `{Externals} (i : PSBTInput.t) : Prop :=
  match PSBTInput.utxo i with
  | Some o => txout_wf o /\ fits (txout_bytes o)
  | None => True
  end
  /\ partial_sigs_wf (PSBTInput.partial_sigs i)
  /\ 0 <= PSBTInput.sighash_type i < 2 ^ 32
  /\ fits (PSBTInput.redeem_script i)
  /\ hd_keypaths_wf (PSBTInput.hd_keypaths i)
  /\ fits (PSBTInput.final_script_sig i)
  /\ unknown_wf IN_KNOWN (PSBTInput.unknown i).

(** A finalized input holds nothing but its final unlocking script (and
    its UTXO and unknown entries). *)
Definition input_canonical (i : PSBTInput.t) : bool :=
  negb (truthy (PSBTInput.final_script_sig i))
  || (Nat.eqb (List.length (PSBTInput.partial_sigs i)) 0
      && (PSBTInput.sighash_type i =? 0)
      && negb (truthy (PSBTInput.redeem_script i))
      && Nat.eqb (List.length (PSBTInput.hd_keypaths i)) 0).

(** An output map: the redeem script, the derivation paths, the unknown
    entries, the separator. *)
Definition output_bytes `{Externals} (o : PSBTOutput.t) : bytes :=
  (if truthy (PSBTOutput.redeem_script o)
   then map_entry (type_byte PSBT_OUT_REDEEMSCRIPT) (PSBTOutput.redeem_script o)
   else [])
  ++ List.concat (map (hd_entry PSBT_OUT_BIP32_DERIVATION) (PSBTOutput.hd_keypaths o))
  ++ List.concat (map unknown_entry (PSBTOutput.unknown o))
  ++ [x00].

Definition output_wf `{Externals} (o : PSBTOutput.t) : Prop :=
  fits (PSBTOutput.redeem_script o)
  /\ hd_keypaths_wf (PSBTOutput.hd_keypaths o)
  /\ unknown_wf OUT_KNOWN (PSBTOutput.unknown o).

(** The global map: the unsigned transaction, the unknown entries, the
    separator. *)
Definition global_bytes `{Externals} (tx : CMutableTransaction.t) (unknown : dict bytes)
    : bytes :=
  map_entry (type_byte PSBT_GLOBAL_UNSIGNED_TX) (tx_bytes tx)
  ++ List.concat (map unknown_entry unknown)
  ++ [x00].

(** The container of section 4.4. *)
Definition psbt_bytes `{Externals} (p : PSBT.t) : bytes :=
  PSBT_MAGIC_BYTES
  ++ match PSBT.tx p with
     | Some tx => global_bytes tx (PSBT.unknown p)
     | None => []
     end
  ++ List.concat (map input_bytes (PSBT.inputs p))
  ++ List.concat (map output_bytes (PSBT.outputs p)).

(** An unsigned transaction: every input's unlocking script is empty. *)
Definition unsigned (tx : CMutableTransaction.t) : Prop :=
  Forall (fun inp => CTxIn.script_sig inp = []) (CMutableTransaction.vin tx).

(** A PSBT as the codec keeps it: an unsigned transaction within its types,
    one input map and one output map for each of its inputs and outputs. *)
Definition psbt_wf `{Externals} (p : PSBT.t) : Prop :=
  match PSBT.tx p with
  | Some tx =>
      tx_wf tx /\ fits (tx_bytes tx) /\ unsigned tx
      /\ List.length (PSBT.inputs p) = List.length (CMutableTransaction.vin tx)
      /\ List.length (PSBT.outputs p) = List.length (CMutableTransaction.vout tx)
  | None => False
  end
  /\ unknown_wf GLOBAL_KNOWN (PSBT.unknown p)
  /\ Forall input_wf (PSBT.inputs p)
  /\ Forall output_wf (PSBT.outputs p).

Definition psbt_canonical (p : PSBT.t) : bool := forallb input_canonical (PSBT.inputs p).


(** What the loop over the global map keeps true of the receiver. *)
Definition global_wf `{Externals} (p : PSBT.t) : Prop :=
  match PSBT.tx p with
  | Some tx => tx_wf tx /\ fits (tx_bytes tx) /\ unsigned tx
  | None => True
  end
  /\ unknown_wf GLOBAL_KNOWN (PSBT.unknown p).



(** A compressed public key and a derivation, to run the model on. *)
Definition sample_pubkey : bytes := x02 :: repeat x11 32.

Definition sample_keypath : KeyOriginInfo.t :=
  KeyOriginInfo.mk [xd9; x0c; x6a; x4f] [2147483648; 1].


(** An output map to run the model on: a redeem script, one derivation and
    one unknown entry. *)
Definition sample_output : PSBTOutput.t :=
  PSBTOutput.mk
    (PSBTInputOutputBase.mk [x51; x52] [(sample_pubkey, sample_keypath)] [([x09; x01], [xaa])]).


(** What serialization keeps of an input: a finalized input is written
    with its UTXO, its final unlocking script and its unknown entries
    only. *)
Definition finalized_view (i : PSBTInput.t) : PSBTInput.t :=
  if truthy (PSBTInput.final_script_sig i)
  then PSBTInput.mk (PSBTInputOutputBase.mk [] [] (PSBTInput.unknown i))
         (PSBTInput.utxo i) (PSBTInput.final_script_sig i) [] 0
  else i.


(** Input maps to run the model on: one with every pre-signing field, and
    the same input once a final unlocking script has been stored in it. *)
Definition sample_input : PSBTInput.t :=
  PSBTInput.mk
    (PSBTInputOutputBase.mk [x51; x52] [(sample_pubkey, sample_keypath)] [([x09; x01], [xaa])])
    (Some (CTxOut.mk 50000000 [x76; xa9] None))
    []
    [(sample_pubkey, (sample_pubkey, [x30; x44]))]
    65.

Definition sample_finalized_input : PSBTInput.t :=
  PSBTInput.set_final_script_sig [x53; x54] sample_input.


(** A container to run the model on: a transaction with one input and one
    output, the finalized sample input, the sample output and one unknown
    global entry. *)
Definition sample_tx : CMutableTransaction.t :=
  CMutableTransaction.mk [CTxIn.default] [CTxOut.mk 1 [x51] None] 2 0.

Definition sample_psbt : PSBT.t :=
  PSBT.mk (Some sample_tx) [sample_finalized_input] [sample_output] [([x0a], [x01])].

(** What the fixture of the test deserializes to. *)
Definition fixture_psbt : PSBT.t :=
  Eval vm_compute in
    snd (@PSBT.deserialize test_externals (PSBT.FromStr raw_psbt) true PSBT.default).


(** A PSBT whose transaction is not unsigned: its second input carries an
    unlocking script. *)
Definition signed_psbt : PSBT.t :=
  PSBT.mk
    (Some (CMutableTransaction.mk
             [CTxIn.default; CTxIn.mk COutPoint.default [x51] 0] [] 2 0))
    [] [] [].

(** * Lemmas *)

(** ** Bytes *)

Lemma Z_of_byte_range (b : byte) : 0 <= Z_of_byte b < 256.
Proof.
  unfold Z_of_byte. pose proof (Byte.to_N_bounded b). lia.
Qed.

Lemma byte_of_Z_of_byte (b : byte) : byte_of_Z (Z_of_byte b) = b.
Proof.
  unfold byte_of_Z, Z_of_byte.
  pose proof (Byte.to_N_bounded b).
  rewrite Z.mod_small by lia.
  rewrite N2Z.id. now rewrite Byte.of_to_N.
Qed.

Lemma Z_of_byte_of_Z (z : Z) : Z_of_byte (byte_of_Z z) = z mod 256.
Proof.
  unfold byte_of_Z, Z_of_byte.
  pose proof (Z.mod_pos_bound z 256 ltac:(lia)) as Hb.
  destruct (Byte.of_N (Z.to_N (z mod 256))) as [b|] eqn:E.
  - apply Byte.to_of_N in E. rewrite E. lia.
  - apply Byte.of_N_None_iff in E. lia.
Qed.

Lemma bytes_eqb_refl (a : bytes) : bytes_eqb a a = true.
Proof.
  induction a as [|x a IH]; simpl; [reflexivity|].
  rewrite IH, andb_true_r. now apply Byte.byte_dec_lb.
Qed.

Lemma bytes_eqb_eq (a b : bytes) : bytes_eqb a b = true <-> a = b.
Proof.
  split.
  - revert b. induction a as [|x a IH]; intros [|y b]; simpl; try discriminate; auto.
    intro H. apply andb_true_iff in H as [Hxy Hab].
    apply Byte.byte_dec_bl in Hxy. f_equal; auto.
  - intros ->. apply bytes_eqb_refl.
Qed.

Lemma bytes_eqb_neq (a b : bytes) : bytes_eqb a b = false <-> a <> b.
Proof.
  split.
  - intros H Heq. apply bytes_eqb_eq in Heq. congruence.
  - intro H. destruct (bytes_eqb a b) eqn:E; [|reflexivity].
    apply bytes_eqb_eq in E. contradiction.
Qed.

Lemma byte_eqb_eq (x y : byte) : Byte.eqb x y = true <-> x = y.
Proof.
  split.
  - apply Byte.byte_dec_bl.
  - apply Byte.byte_dec_lb.
Qed.

Lemma truthy_false (b : bytes) : truthy b = false <-> b = [].
Proof. destruct b; simpl; split; congruence. Qed.

(** ** Little-endian integers *)

Lemma length_le_encode (w : nat) (z : Z) : List.length (le_encode w z) = w.
Proof. revert z. induction w; intro z; simpl; auto. Qed.

Lemma le_decode_range (bs : bytes) : 0 <= le_decode bs < 256 ^ Z.of_nat (List.length bs).
Proof.
  induction bs as [|b bs IH].
  - simpl. lia.
  - cbn [le_decode List.length]. rewrite Nat2Z.inj_succ, Z.pow_succ_r by lia.
    pose proof (Z_of_byte_range b). nia.
Qed.

Lemma le_decode_encode (w : nat) (z : Z) :
  le_decode (le_encode w z) = z mod 256 ^ Z.of_nat w.
Proof.
  revert z. induction w as [|w IH]; intro z.
  - simpl. now rewrite Z.mod_1_r.
  - cbn [le_encode le_decode]. rewrite IH, Z_of_byte_of_Z.
    rewrite Nat2Z.inj_succ, Z.pow_succ_r by lia.
    rewrite Z.rem_mul_r by lia. lia.
Qed.

Lemma le_encode_decode (bs : bytes) : le_encode (List.length bs) (le_decode bs) = bs.
Proof.
  induction bs as [|b bs IH]; [reflexivity|].
  cbn [le_encode le_decode List.length].
  pose proof (Z_of_byte_range b) as Hb.
  assert ((Z_of_byte b + 256 * le_decode bs) mod 256 = Z_of_byte b) as Hm.
  { rewrite (Z.mul_comm 256), Z.mod_add by lia. now apply Z.mod_small. }
  assert ((Z_of_byte b + 256 * le_decode bs) / 256 = le_decode bs) as Hd.
  { rewrite (Z.mul_comm 256), Z.div_add by lia.
    rewrite Z.div_small by lia. lia. }
  rewrite Hd, IH. f_equal.
  unfold byte_of_Z. rewrite Hm. fold (byte_of_Z (Z_of_byte b)).
  rewrite <- (byte_of_Z_of_byte b) at 2. unfold byte_of_Z.
  now rewrite Z.mod_small by lia.
Qed.

Lemma le_decode_small (w : nat) (z : Z) :
  0 <= z < 256 ^ Z.of_nat w -> le_decode (le_encode w z) = z.
Proof. intro H. rewrite le_decode_encode. now apply Z.mod_small. Qed.

(** ** The monad *)

Lemma bind_ok {St A B : Type} (m : M St A) (f : A -> M St B) (s s' : St) (a : A) :
  m s = (Ok a, s') -> bind m f s = f a s'.
Proof. intro H. unfold bind. now rewrite H. Qed.

Lemma bind_raise {St A B : Type} (m : M St A) (f : A -> M St B) (s s' : St) (e : exn) :
  m s = (Raise e, s') -> bind m f s = (Raise e, s').
Proof. intro H. unfold bind. now rewrite H. Qed.

Lemma bind_inv_ok {St A B : Type} (m : M St A) (f : A -> M St B) (s s2 : St) (b : B) :
  bind m f s = (Ok b, s2) -> exists a s1, m s = (Ok a, s1) /\ f a s1 = (Ok b, s2).
Proof.
  unfold bind. destruct (m s) as [[a|e] s1]; intro H; [eauto | discriminate].
Qed.

Lemma bind_inv_raise {St A B : Type} (m : M St A) (f : A -> M St B) (s s2 : St) (e : exn) :
  bind m f s = (Raise e, s2) ->
  m s = (Raise e, s2) \/ exists a s1, m s = (Ok a, s1) /\ f a s1 = (Raise e, s2).
Proof.
  unfold bind. destruct (m s) as [[a|e'] s1]; intro H; [right; eauto | left].
  inversion H; subst. reflexivity.
Qed.

(** ** The stream: cursor arithmetic *)

Lemma remaining_new (data : bytes) : BCDataStream.remaining (BCDataStream.new data) = data.
Proof. reflexivity. Qed.

Lemma remaining_advance (k : nat) (v : BCDataStream.t) :
  BCDataStream.remaining (BCDataStream.advance k v) = skipn k (BCDataStream.remaining v).
Proof.
  unfold BCDataStream.remaining, BCDataStream.advance; simpl.
  rewrite skipn_skipn. f_equal. lia.
Qed.

Lemma remaining_consumed (v : BCDataStream.t) (data rest : bytes) :
  BCDataStream.remaining v = data ++ rest ->
  BCDataStream.remaining (BCDataStream.advance (List.length data) v) = rest.
Proof.
  intro H. rewrite remaining_advance, H, skipn_app, Nat.sub_diag, skipn_all. reflexivity.
Qed.

Lemma advance_advance (a b : nat) (v : BCDataStream.t) :
  BCDataStream.advance b (BCDataStream.advance a v) = BCDataStream.advance (a + b) v.
Proof. unfold BCDataStream.advance; simpl. f_equal. lia. Qed.

Lemma advance_0 (v : BCDataStream.t) : BCDataStream.advance 0 v = v.
Proof. destruct v as [i c]. unfold BCDataStream.advance; simpl. f_equal. lia. Qed.

Lemma input_advance (k : nat) (v : BCDataStream.t) :
  BCDataStream.input (BCDataStream.advance k v) = BCDataStream.input v.
Proof. reflexivity. Qed.

Lemma has_more_truthy (v : BCDataStream.t) :
  BCDataStream.has_more v = truthy (BCDataStream.remaining v).
Proof.
  destruct v as [inp c]. unfold BCDataStream.has_more, BCDataStream.remaining; simpl.
  revert c. induction inp as [|x inp IH]; intros [|c]; simpl; auto.
  apply IH.
Qed.

Lemma appended_nil (v : BCDataStream.t) : appended v [] = v.
Proof. destruct v. unfold appended; simpl. now rewrite app_nil_r. Qed.

Lemma appended_appended (v : BCDataStream.t) (a b : bytes) :
  appended (appended v a) b = appended v (a ++ b).
Proof. unfold appended; simpl. now rewrite app_assoc. Qed.

(** ** Composition of readers and of writers *)

Lemma reads_ret {A : Type} (a : A) : reads (ret a) [] a.
Proof. intros v rest _. unfold ret. simpl. now rewrite advance_0. Qed.

Lemma reads_bind {A B : Type} (m : M BCDataStream.t A) (f : A -> M BCDataStream.t B)
    (d1 d2 : bytes) (a : A) (b : B) :
  reads m d1 a -> reads (f a) d2 b -> reads (bind m f) (d1 ++ d2) b.
Proof.
  intros H1 H2 v rest Hv. rewrite <- app_assoc in Hv.
  rewrite (bind_ok _ _ _ _ _ (H1 _ _ Hv)).
  rewrite (H2 _ rest (remaining_consumed _ _ _ Hv)).
  now rewrite advance_advance, length_app.
Qed.

Lemma parses_ret {Self A : Type} (self : Self) (a : A) :
  parses (ret a) self [] a self.
Proof. intros v rest _. unfold ret. simpl. now rewrite advance_0. Qed.

Lemma parses_bind {Self A B : Type} (m : M (Self * BCDataStream.t) A)
    (f : A -> M (Self * BCDataStream.t) B) (s0 s1 s2 : Self) (d1 d2 : bytes) (a : A) (b : B) :
  parses m s0 d1 a s1 -> parses (f a) s1 d2 b s2 -> parses (bind m f) s0 (d1 ++ d2) b s2.
Proof.
  intros H1 H2 v rest Hv. rewrite <- app_assoc in Hv.
  rewrite (bind_ok _ _ _ _ _ (H1 _ _ Hv)).
  rewrite (H2 _ rest (remaining_consumed _ _ _ Hv)).
  now rewrite advance_advance, length_app.
Qed.

Lemma parses_on_stream {Self A : Type} (m : M BCDataStream.t A) (self : Self)
    (data : bytes) (a : A) :
  reads m data a -> parses (on_stream m) self data a self.
Proof.
  intros H v rest Hv. unfold on_stream. simpl. now rewrite (H _ _ Hv).
Qed.

Lemma parses_update {Self : Type} (f : Self -> Self) (self : Self) :
  parses (update f) self [] tt (f self).
Proof. intros v rest _. unfold update. simpl. now rewrite advance_0. Qed.

Lemma parses_this {Self : Type} (self : Self) :
  parses this self [] self self.
Proof. intros v rest _. unfold this. simpl. now rewrite advance_0. Qed.

Lemma writes_ret : writes (ret tt) [].
Proof. intro v. unfold ret. now rewrite appended_nil. Qed.

Lemma writes_write (bs : bytes) : writes (BCDataStream.write bs) bs.
Proof. intro v. reflexivity. Qed.

Lemma writes_bind (m : M BCDataStream.t unit) (k : unit -> M BCDataStream.t unit)
    (o1 o2 : bytes) :
  writes m o1 -> writes (k tt) o2 -> writes (bind m k) (o1 ++ o2).
Proof.
  intros H1 H2 v. rewrite (bind_ok _ _ _ _ _ (H1 v)), H2. now rewrite appended_appended.
Qed.

Lemma writes_written_by {St : Type} (m : M BCDataStream.t unit) (out : bytes) (s : St) :
  writes m out -> written_by m s = (Ok out, s).
Proof.
  intro H. unfold written_by, run_on, bind, ret. now rewrite H.
Qed.

Lemma writes_unique (m : M BCDataStream.t unit) (o1 o2 : bytes) :
  writes m o1 -> writes m o2 -> o1 = o2.
Proof.
  intros H1 H2. specialize (H1 (BCDataStream.new [])). rewrite H2 in H1.
  now inversion H1.
Qed.

(** ** The stream: readers *)

Lemma read_exact_reads (data : bytes) (strict : bool) :
  reads (BCDataStream.read_exact (Z.of_nat (List.length data)) strict) data data.
Proof.
  intros v rest H. unfold BCDataStream.read_exact. rewrite H.
  replace (strict && _) with false.
  - rewrite Nat2Z.id, firstn_app, Nat.sub_diag, firstn_all. simpl.
    now rewrite app_nil_r.
  - symmetry. rewrite length_app. destruct strict; simpl; auto.
    apply orb_false_iff. split; apply Z.ltb_ge; lia.
Qed.

Lemma read_exact_inv (n : Z) (v v' : BCDataStream.t) (data : bytes) :
  BCDataStream.read_exact n true v = (Ok data, v') ->
  Z.of_nat (List.length data) = n
  /\ BCDataStream.remaining v = data ++ BCDataStream.remaining v'
  /\ v' = BCDataStream.advance (List.length data) v.
Proof.
  unfold BCDataStream.read_exact. simpl andb.
  destruct ((n <? 0) || _) eqn:E; [discriminate|].
  apply orb_false_iff in E as [E1 E2]. apply Z.ltb_ge in E1, E2.
  intro H. inversion H; subst; clear H.
  assert (List.length (firstn (Z.to_nat n) (BCDataStream.remaining v)) = Z.to_nat n) as Hl.
  { apply firstn_length_le. lia. }
  rewrite Hl. repeat split.
  - lia.
  - rewrite remaining_advance. now rewrite firstn_skipn.
Qed.

Lemma read_exact_raise (n : Z) (strict : bool) (v v' : BCDataStream.t) (e : exn) :
  BCDataStream.read_exact n strict v = (Raise e, v') ->
  e = BCDataStream.past_end /\ v' = v.
Proof.
  unfold BCDataStream.read_exact. destruct (strict && _); intro H; inversion H; auto.
Qed.

Lemma _read_num_reads (bs : bytes) :
  reads (BCDataStream._read_num (List.length bs)) bs (le_decode bs).
Proof.
  unfold BCDataStream._read_num. rewrite <- (app_nil_r bs) at 2.
  eapply reads_bind; [apply read_exact_reads | apply reads_ret].
Qed.

Lemma _read_num_inv (w : nat) (v v' : BCDataStream.t) (z : Z) :
  BCDataStream._read_num w v = (Ok z, v') ->
  exists bs, List.length bs = w /\ z = le_decode bs
    /\ BCDataStream.remaining v = bs ++ BCDataStream.remaining v'
    /\ v' = BCDataStream.advance w v.
Proof.
  unfold BCDataStream._read_num. intro H.
  apply bind_inv_ok in H as (bs & v1 & H1 & H2).
  unfold ret in H2. inversion H2; subst; clear H2.
  apply read_exact_inv in H1 as (Hl & Hr & Hv).
  exists bs. apply Nat2Z.inj in Hl. rewrite Hl in Hv. auto.
Qed.

Lemma _read_num_raise (w : nat) (v v' : BCDataStream.t) (e : exn) :
  BCDataStream._read_num w v = (Raise e, v') -> e = BCDataStream.past_end.
Proof.
  unfold BCDataStream._read_num. intro H.
  apply bind_inv_raise in H as [H | (a & s1 & _ & H)].
  - now apply read_exact_raise in H.
  - discriminate.
Qed.

Lemma _read_num_encode (w : nat) (z : Z) :
  0 <= z < 256 ^ Z.of_nat w -> reads (BCDataStream._read_num w) (le_encode w z) z.
Proof.
  intro Hz. pose proof (_read_num_reads (le_encode w z)) as H.
  now rewrite length_le_encode, le_decode_small in H.
Qed.

Lemma le_decode_single (b : byte) : le_decode [b] = Z_of_byte b.
Proof. simpl. lia. Qed.

Lemma byte_of_Z_inj_value (b : byte) (z : Z) : Z_of_byte b = z -> b = byte_of_Z z.
Proof. intros <-. now rewrite byte_of_Z_of_byte. Qed.

Lemma length_compact_size (n : Z) :
  List.length (compact_size n) =
  if n <? 253 then 1%nat else if n <? 2 ^ 16 then 3%nat else if n <? 2 ^ 32 then 5%nat else 9%nat.
Proof.
  unfold compact_size.
  destruct (n <? 253); [reflexivity|].
  destruct (n <? 2 ^ 16); [reflexivity|].
  destruct (n <? 2 ^ 32); reflexivity.
Qed.

Lemma read_compact_size_reads (n : Z) (strict : bool) :
  0 <= n < 2 ^ 64 -> reads (BCDataStream.read_compact_size strict) (compact_size n) n.
Proof.
  intro Hn. unfold compact_size, BCDataStream.read_compact_size.
  destruct (n <? 253) eqn:E1.
  - apply Z.ltb_lt in E1.
    change [byte_of_Z n] with (le_encode 1 n ++ []).
    eapply reads_bind; [apply _read_num_encode; simpl; lia|].
    apply Z.ltb_lt in E1. rewrite E1. apply reads_ret.
  - apply Z.ltb_ge in E1.
    destruct (n <? 2 ^ 16) eqn:E2; [|destruct (n <? 2 ^ 32) eqn:E3].
    + apply Z.ltb_lt in E2.
      change (xfd :: le_encode 2 n) with (le_encode 1 253 ++ (le_encode 2 n ++ [])).
      eapply reads_bind; [apply _read_num_encode; simpl; lia|].
      change (253 <? 253) with false. change (253 =? 253) with true. cbv iota.
      eapply reads_bind; [apply _read_num_encode; simpl; lia|].
      replace (strict && (n <? 253)) with false; [apply reads_ret|].
      symmetry. apply andb_false_iff. right. apply Z.ltb_ge. lia.
    + apply Z.ltb_ge in E2. apply Z.ltb_lt in E3.
      change (xfe :: le_encode 4 n) with (le_encode 1 254 ++ (le_encode 4 n ++ [])).
      eapply reads_bind; [apply _read_num_encode; simpl; lia|].
      change (254 <? 253) with false. change (254 =? 253) with false.
      change (254 =? 254) with true. cbv iota.
      eapply reads_bind; [apply _read_num_encode; simpl; lia|].
      replace (strict && (n <? 2 ^ 16)) with false; [apply reads_ret|].
      symmetry. apply andb_false_iff. right. apply Z.ltb_ge. lia.
    + apply Z.ltb_ge in E2, E3.
      change (xff :: le_encode 8 n) with (le_encode 1 255 ++ (le_encode 8 n ++ [])).
      eapply reads_bind; [apply _read_num_encode; simpl; lia|].
      change (255 <? 253) with false. change (255 =? 253) with false.
      change (255 =? 254) with false. cbv iota.
      eapply reads_bind; [apply _read_num_encode; simpl; lia|].
      replace (strict && (n <? 2 ^ 32)) with false; [apply reads_ret|].
      symmetry. apply andb_false_iff. right. apply Z.ltb_ge. lia.
Qed.

Lemma read_compact_size_inv (v v' : BCDataStream.t) (n : Z) :
  BCDataStream.read_compact_size true v = (Ok n, v') ->
  0 <= n < 2 ^ 64
  /\ BCDataStream.remaining v = compact_size n ++ BCDataStream.remaining v'
  /\ v' = BCDataStream.advance (List.length (compact_size n)) v.
Proof.
  unfold BCDataStream.read_compact_size. intro H.
  apply bind_inv_ok in H as (size & v1 & H1 & H).
  apply _read_num_inv in H1 as (bs1 & Hl1 & Hs & Hr1 & Hv1).
  destruct bs1 as [|b [|? ?]]; try discriminate. clear Hl1.
  rewrite le_decode_single in Hs. pose proof (Z_of_byte_range b) as Hb.
  symmetry in Hs. apply byte_of_Z_inj_value in Hs as Hbyte.
  assert (size = Z_of_byte b) as Hsize by (rewrite Hbyte at 1; now rewrite Z_of_byte_of_Z, Z.mod_small by lia).
  rewrite <- Hsize in Hb. clear Hsize Hs.
  destruct (size <? 253) eqn:E1.
  - unfold ret in H. inversion H; subst n v'; clear H. apply Z.ltb_lt in E1.
    unfold compact_size. apply Z.ltb_lt in E1. rewrite E1. simpl List.length.
    subst b. repeat split; try lia; auto.
  - apply Z.ltb_ge in E1.
    assert (forall w lo tag,
      (w > 0)%nat ->
      Z_of_byte tag = size ->
      bind (BCDataStream._read_num w)
        (fun x => if true && (x <? lo) then raise BCDataStream.non_canonical else ret x) v1
        = (Ok n, v') ->
      0 <= n < 256 ^ Z.of_nat w /\ lo <= n
      /\ BCDataStream.remaining v = (tag :: le_encode w n) ++ BCDataStream.remaining v'
      /\ v' = BCDataStream.advance (S w) v) as Hcase.
    { intros w lo tag Hw Htag Hrun.
      apply bind_inv_ok in Hrun as (x & v2 & H2 & H3).
      apply _read_num_inv in H2 as (bs2 & Hl2 & Hx & Hr2 & Hv2).
      simpl andb in H3. destruct (x <? lo) eqn:E; [discriminate|].
      apply Z.ltb_ge in E. unfold ret in H3.
      assert (x = n /\ v2 = v') as [Hxn Hvv] by (inversion H3; auto).
      rewrite Hxn in *. rewrite Hvv in *. clear H3 Hxn Hvv.
      pose proof (le_decode_range bs2) as Hrange. rewrite Hl2 in Hrange.
      rewrite <- Hx in Hrange. repeat split; try lia.
      - rewrite Hr1, Hr2. simpl. f_equal.
        + subst b. apply byte_of_Z_inj_value in Htag. subst tag. reflexivity.
        + rewrite Hx, <- Hl2, le_encode_decode. reflexivity.
      - rewrite Hv2, Hv1, advance_advance. reflexivity. }
    rewrite length_compact_size. unfold compact_size.
    destruct (size =? 253) eqn:E2; [|destruct (size =? 254) eqn:E3].
    + apply Z.eqb_eq in E2.
      apply (Hcase 2%nat 253 xfd) in H as (Hr & Hlo & Hrem & Hv); [|lia|now rewrite E2].
      simpl in Hr.
      replace (n <? 253) with false by (symmetry; apply Z.ltb_ge; lia).
      replace (n <? 2 ^ 16) with true by (symmetry; apply Z.ltb_lt; lia).
      repeat split; try lia; auto.
    + apply Z.eqb_eq in E3.
      apply (Hcase 4%nat (2 ^ 16) xfe) in H as (Hr & Hlo & Hrem & Hv); [|lia|now rewrite E3].
      simpl in Hr.
      replace (n <? 253) with false by (symmetry; apply Z.ltb_ge; lia).
      replace (n <? 2 ^ 16) with false by (symmetry; apply Z.ltb_ge; lia).
      replace (n <? 2 ^ 32) with true by (symmetry; apply Z.ltb_lt; lia).
      repeat split; try lia; auto.
    + apply Z.eqb_neq in E2, E3. apply Z.ltb_ge in E1.
      assert (size = 255) as E4 by lia.
      apply (Hcase 8%nat (2 ^ 32) xff) in H as (Hr & Hlo & Hrem & Hv); [|lia|now rewrite E4].
      simpl in Hr.
      replace (n <? 253) with false by (symmetry; apply Z.ltb_ge; lia).
      replace (n <? 2 ^ 16) with false by (symmetry; apply Z.ltb_ge; lia).
      replace (n <? 2 ^ 32) with false by (symmetry; apply Z.ltb_ge; lia).
      repeat split; try lia; auto.
Qed.

Lemma read_compact_size_raise (strict : bool) (v v' : BCDataStream.t) (e : exn) :
  BCDataStream.read_compact_size strict v = (Raise e, v') ->
  e = BCDataStream.past_end \/ e = BCDataStream.non_canonical.
Proof.
  unfold BCDataStream.read_compact_size. intro H.
  apply bind_inv_raise in H as [H | (size & v1 & _ & H)].
  { left. now apply _read_num_raise in H. }
  assert (forall w lo,
    bind (BCDataStream._read_num w)
      (fun x => if strict && (x <? lo) then raise BCDataStream.non_canonical else ret x) v1
      = (Raise e, v') ->
    e = BCDataStream.past_end \/ e = BCDataStream.non_canonical) as Hcase.
  { intros w lo Hrun.
    apply bind_inv_raise in Hrun as [Hrun | (x & v2 & _ & Hrun)].
    - left. now apply _read_num_raise in Hrun.
    - destruct (strict && (x <? lo)); [|discriminate].
      unfold raise in Hrun. inversion Hrun; auto. }
  destruct (size <? 253); [discriminate|].
  destruct (size =? 253); [now apply Hcase in H|].
  destruct (size =? 254); now apply Hcase in H.
Qed.

Lemma read_bytes_vector_reads (data : bytes) (strict : bool) :
  fits data -> reads (BCDataStream.read_bytes None strict) (byte_vector data) data.
Proof.
  intro Hf. unfold BCDataStream.read_bytes, byte_vector.
  eapply reads_bind.
  - apply read_compact_size_reads. unfold fits in Hf. lia.
  - apply read_exact_reads.
Qed.

Lemma read_bytes_fixed_reads (data : bytes) (strict : bool) :
  reads (BCDataStream.read_bytes (Some (Z.of_nat (List.length data))) strict) data data.
Proof.
  unfold BCDataStream.read_bytes. change data with ([] ++ data) at 2.
  eapply reads_bind; [apply reads_ret | apply read_exact_reads].
Qed.

Lemma read_bytes_vector_inv (v v' : BCDataStream.t) (data : bytes) :
  BCDataStream.read_bytes None true v = (Ok data, v') ->
  fits data
  /\ BCDataStream.remaining v = byte_vector data ++ BCDataStream.remaining v'
  /\ v' = BCDataStream.advance (List.length (byte_vector data)) v.
Proof.
  unfold BCDataStream.read_bytes. intro H.
  apply bind_inv_ok in H as (n & v1 & H1 & H2).
  apply read_compact_size_inv in H1 as (Hn & Hr1 & Hv1).
  apply read_exact_inv in H2 as (Hl & Hr2 & Hv2).
  unfold fits, byte_vector. rewrite Hl. repeat split; try lia.
  - rewrite Hr1, Hr2. now rewrite app_assoc.
  - rewrite Hv2, Hv1, advance_advance, length_app. reflexivity.
Qed.

Lemma read_bytes_fixed_inv (n : Z) (v v' : BCDataStream.t) (data : bytes) :
  BCDataStream.read_bytes (Some n) true v = (Ok data, v') ->
  Z.of_nat (List.length data) = n
  /\ BCDataStream.remaining v = data ++ BCDataStream.remaining v'
  /\ v' = BCDataStream.advance (List.length data) v.
Proof.
  unfold BCDataStream.read_bytes. intro H.
  apply bind_inv_ok in H as (n' & v1 & H1 & H2).
  unfold ret in H1. inversion H1; subst. now apply read_exact_inv.
Qed.

Lemma read_bytes_raise (len : option Z) (strict : bool) (v v' : BCDataStream.t) (e : exn) :
  BCDataStream.read_bytes len strict v = (Raise e, v') ->
  e = BCDataStream.past_end \/ e = BCDataStream.non_canonical.
Proof.
  unfold BCDataStream.read_bytes. intro H.
  apply bind_inv_raise in H as [H | (n & v1 & _ & H)].
  - destruct len; [discriminate|]. now apply read_compact_size_raise in H.
  - left. now apply read_exact_raise in H.
Qed.

Lemma to_signed_range (w : nat) (u : Z) :
  (0 < w)%nat -> 0 <= u < 256 ^ Z.of_nat w ->
  - 2 ^ (8 * Z.of_nat w - 1) <= to_signed w u < 2 ^ (8 * Z.of_nat w - 1).
Proof.
  intros Hw Hu. unfold to_signed.
  assert (256 ^ Z.of_nat w = 2 ^ (8 * Z.of_nat w)) as E.
  { change 256 with (2 ^ 8). rewrite <- Z.pow_mul_r by lia. reflexivity. }
  assert (2 ^ (8 * Z.of_nat w) = 2 * 2 ^ (8 * Z.of_nat w - 1)) as E2.
  { rewrite <- Z.pow_succ_r by lia. f_equal. lia. }
  destruct (u <? 2 ^ (8 * Z.of_nat w - 1)) eqn:C.
  - apply Z.ltb_lt in C. lia.
  - apply Z.ltb_ge in C. lia.
Qed.

Lemma to_signed_mod (w : nat) (u : Z) :
  (0 < w)%nat -> 0 <= u < 256 ^ Z.of_nat w ->
  to_signed w u mod 256 ^ Z.of_nat w = u.
Proof.
  intros Hw Hu. unfold to_signed.
  assert (256 ^ Z.of_nat w = 2 ^ (8 * Z.of_nat w)) as E.
  { change 256 with (2 ^ 8). rewrite <- Z.pow_mul_r by lia. reflexivity. }
  destruct (u <? 2 ^ (8 * Z.of_nat w - 1)).
  - now apply Z.mod_small.
  - rewrite <- E. 
    replace (u - 256 ^ Z.of_nat w) with (u + (-1) * 256 ^ Z.of_nat w) by lia.
    rewrite Z.mod_add by lia. now apply Z.mod_small.
Qed.

Lemma le_encode_mod (w : nat) (z : Z) :
  le_encode w (z mod 256 ^ Z.of_nat w) = le_encode w z.
Proof.
  revert z. induction w as [|w IH]; intro z; [reflexivity|].
  cbn [le_encode]. rewrite Nat2Z.inj_succ, Z.pow_succ_r by lia.
  assert (0 < 256 ^ Z.of_nat w) as Hp by (apply Z.pow_pos_nonneg; lia).
  f_equal.
  - unfold byte_of_Z. f_equal. f_equal.
    rewrite Z.rem_mul_r by lia.
    rewrite (Z.mul_comm 256), Z.mod_add by lia.
    now rewrite Z.mod_mod by lia.
  - rewrite <- IH. rewrite <- (IH (z / 256)). f_equal.
    rewrite Z.rem_mul_r by lia.
    rewrite (Z.mul_comm 256), Z.div_add by lia.
    rewrite (Z.div_small (z mod 256)) by (apply Z.mod_pos_bound; lia).
    rewrite Z.add_0_l. now rewrite Z.mod_mod by lia.
Qed.

(** ** The stream: writers *)

Lemma writes__write_num (w : nat) (lo hi z : Z) :
  lo <= z < hi -> writes (BCDataStream._write_num w lo hi z) (le_encode w z).
Proof.
  intros Hz v. unfold BCDataStream._write_num.
  replace ((lo <=? z) && (z <? hi)) with true; [reflexivity|].
  symmetry. apply andb_true_iff. split; [apply Z.leb_le | apply Z.ltb_lt]; lia.
Qed.

Lemma writes_compact_size (n : Z) :
  0 <= n < 2 ^ 64 -> writes (BCDataStream.write_compact_size n) (compact_size n).
Proof.
  intro Hn. unfold BCDataStream.write_compact_size, compact_size.
  replace (n <? 0) with false by (symmetry; apply Z.ltb_ge; lia).
  destruct (n <? 253); [apply writes_write|].
  destruct (n <? 2 ^ 16) eqn:E2; [|destruct (n <? 2 ^ 32) eqn:E3].
  - apply Z.ltb_lt in E2.
    apply (writes_bind _ _ [xfd]); [apply writes_write | apply writes__write_num; lia].
  - apply Z.ltb_lt in E3.
    apply (writes_bind _ _ [xfe]); [apply writes_write | apply writes__write_num; lia].
  - apply (writes_bind _ _ [xff]); [apply writes_write | apply writes__write_num; lia].
Qed.

Lemma writes_write_string (data : bytes) :
  fits data -> writes (BCDataStream.write_string data) (byte_vector data).
Proof.
  intro Hf. unfold BCDataStream.write_string, byte_vector.
  apply writes_bind; [|apply writes_write].
  apply writes_compact_size. unfold fits in Hf. lia.
Qed.

Lemma writes_for_each {A : Type} (xs : list A) (body : A -> M BCDataStream.t unit)
    (enc : A -> bytes) :
  (forall x, In x xs -> writes (body x) (enc x)) ->
  writes (for_each xs body) (List.concat (map enc xs)).
Proof.
  induction xs as [|x xs IH]; intro H; simpl.
  - apply writes_ret.
  - apply writes_bind; [apply H; now left|]. apply IH. intros y Hy. apply H. now right.
Qed.

(** ** Token data *)

Lemma is_valid_bitfield_spec (b : byte) (i c : bytes) (a : Z) :
  let td := OutputData.mk i (Z_of_byte b) a c in
  OutputData.is_valid_bitfield td =
  existsb (Z.eqb (Z.land (Z_of_byte b) 240)) [16; 32; 48; 64; 80; 96; 112]
  && (Z.land (Z_of_byte b) 15 <=? 2)
  && (negb (Z.land (Z_of_byte b) 32 =? 0)
      || (negb (Z.land (Z_of_byte b) 16 =? 0) && (Z.land (Z_of_byte b) 15 =? 0)
          && negb (negb (Z.land (Z_of_byte b) 64 =? 0)))).
Proof. destruct b; reflexivity. Qed.

(** What [OutputData.deserialize] checks once the fields are read. *)
Lemma token_check_invariants (td : OutputData.t) :
  0 <= OutputData.bitfield td < 256 ->
  0 <= OutputData.amount td ->
  (OutputData.has_amount td = false -> OutputData.amount td = 0) ->
  negb (OutputData.is_valid_bitfield td)
  || (OutputData.has_amount td && (OutputData.amount td =? 0))
  || (OutputData.amount td <? 0) || (OutputData.amount td >? 2 ^ 63 - 1)
  || (OutputData.has_commitment_length td && negb (truthy (OutputData.commitment td)))
  || ((OutputData.amount td =? 0) && negb (OutputData.has_nft td))
  = negb (token_invariants td).
Proof.
  destruct td as [i bf a c]. cbn [OutputData.bitfield OutputData.amount OutputData.commitment].
  intros Hbf Ha Hflag.
  assert (bf = Z_of_byte (byte_of_Z bf)) as Ebf
    by (now rewrite Z_of_byte_of_Z, Z.mod_small by lia).
  unfold token_invariants. cbn [OutputData.bitfield OutputData.amount OutputData.commitment].
  rewrite Ebf at 1. rewrite is_valid_bitfield_spec. rewrite <- Ebf.
  unfold OutputData.has_amount, OutputData.has_nft, OutputData.has_commitment_length in *.
  cbn [OutputData.bitfield] in *.
  change Structure.HasAmount with 16 in *. change Structure.HasNFT with 32.
  change Structure.HasCommitmentLength with 64.
  replace (a <? 0) with false by (symmetry; apply Z.ltb_ge; lia).
  replace (a >? 2 ^ 63 - 1) with (negb (a <=? 2 ^ 63 - 1))
    by (rewrite Z.gtb_ltb, Z.leb_antisym, negb_involutive; reflexivity).
  replace (negb (truthy c)) with (Nat.eqb (List.length c) 0) by (destruct c; reflexivity).
  destruct (existsb _ _); destruct (Z.land bf 15 <=? 2); destruct (Z.land bf 32 =? 0);
    destruct (Z.land bf 16 =? 0) eqn:E16; destruct (Z.land bf 15 =? 0);
    destruct (Z.land bf 64 =? 0); destruct (a =? 0) eqn:Ea0;
    destruct (a <=? 2 ^ 63 - 1) eqn:Ele; destruct (Nat.eqb (List.length c) 0);
    try reflexivity;
    exfalso; simpl in Hflag;
    try apply Z.eqb_eq in Ea0; try apply Z.eqb_neq in Ea0;
    try apply Z.leb_gt in Ele; try specialize (Hflag eq_refl); lia.
Qed.

Lemma token_deserialize_split (s : OutputData.t * BCDataStream.t) :
  OutputData.deserialize s =
  bind token_read_fields (fun _ =>
    self <- this ;;
    if negb (OutputData.is_valid_bitfield self)
       || (OutputData.has_amount self && (OutputData.amount self =? 0))
       || (OutputData.amount self <? 0) || (OutputData.amount self >? 2 ^ 63 - 1)
       || (OutputData.has_commitment_length self
           && negb (truthy (OutputData.commitment self)))
       || ((OutputData.amount self =? 0) && negb (OutputData.has_nft self))
    then raise OutputData.invalid
    else ret tt) s.
Proof.
  unfold OutputData.deserialize, token_read_fields, bind.
  repeat match goal with
         | |- context [match ?m ?x with _ => _ end] =>
             lazymatch m with
             | on_stream _ => idtac
             | update _ => idtac
             | this => idtac
             | (if _ then _ else _) => idtac
             end;
             destruct (m x) as [[?|?] ?]; try reflexivity
         end.
Qed.

Lemma on_stream_inv_ok {Self A : Type} (m : M BCDataStream.t A) (self self' : Self)
    (v v' : BCDataStream.t) (a : A) :
  on_stream m (self, v) = (Ok a, (self', v')) -> m v = (Ok a, v') /\ self' = self.
Proof.
  unfold on_stream. simpl. destruct (m v) as [r v1]. intro H. inversion H; subst. auto.
Qed.

Lemma on_stream_inv_raise {Self A : Type} (m : M BCDataStream.t A) (self : Self)
    (v : BCDataStream.t) (e : exn) (s' : Self * BCDataStream.t) :
  on_stream m (self, v) = (Raise e, s') -> exists v', m v = (Raise e, v') /\ s' = (self, v').
Proof.
  unfold on_stream. simpl. destruct (m v) as [r v1]. intro H. inversion H; subst. eauto.
Qed.

Lemma update_inv {Self V : Type} (f : Self -> Self) (self : Self) (v : V) (r : result unit)
    (s' : Self * V) :
  update f (self, v) = (r, s') -> r = Ok tt /\ s' = (f self, v).
Proof. unfold update. simpl. intro H. inversion H; auto. Qed.

Lemma this_inv {Self V : Type} (self : Self) (v : V) (r : result Self) (s' : Self * V) :
  this (self, v) = (r, s') -> r = Ok self /\ s' = (self, v).
Proof. unfold this. simpl. intro H. inversion H; auto. Qed.

(** Inversion of one more step of a computation that returned. *)
Ltac step_ok H a s H1 :=
  apply bind_inv_ok in H as (a & s & H1 & H).

Ltac step_stream H a td v H1 :=
  let s := fresh "s" in
  let E := fresh "E" in
  apply bind_inv_ok in H as (a & s & H1 & H);
  destruct s as [td v];
  apply on_stream_inv_ok in H1 as [H1 E];
  rewrite E in *; clear E.

Ltac step_update H :=
  let a := fresh "a" in
  let s := fresh "s" in
  let H1 := fresh "H" in
  let E1 := fresh "E" in
  let E2 := fresh "E" in
  apply bind_inv_ok in H as (a & s & H1 & H);
  apply update_inv in H1 as [E1 E2];
  subst s; clear E1 a.

Ltac step_this H self :=
  let s := fresh "s" in
  let H1 := fresh "H" in
  let E1 := fresh "E" in
  let E2 := fresh "E" in
  apply bind_inv_ok in H as (self & s & H1 & H);
  apply this_inv in H1 as [E1 E2];
  injection E1 as E1;
  subst s; subst self.

Lemma token_read_fields_inv (td0 td : OutputData.t) (v v' : BCDataStream.t) :
  token_read_fields (td0, v) = (Ok tt, (td, v')) ->
  List.length (OutputData.id td) = 32%nat
  /\ 0 <= OutputData.bitfield td < 256
  /\ 0 <= OutputData.amount td < 2 ^ 64
  /\ (OutputData.has_amount td = false -> OutputData.amount td = 0)
  /\ (OutputData.has_commitment_length td = false -> OutputData.commitment td = [])
  /\ fits (OutputData.commitment td)
  /\ BCDataStream.remaining v = token_bytes td ++ BCDataStream.remaining v'
  /\ v' = BCDataStream.advance (List.length (token_bytes td)) v.
Proof.
  unfold token_read_fields. intro H.
  step_stream H x td1 v1 H1. apply read_bytes_fixed_inv in H1 as (Hlx & Hr1 & Hv1).
  step_update H.
  step_stream H b td2 v2 H2. apply read_bytes_fixed_inv in H2 as (Hlb & Hr2 & Hv2).
  step_update H.
  destruct b as [|b0 [|? ?]]; try (simpl in Hlb; lia). rewrite le_decode_single in H.
  pose proof (Z_of_byte_range b0) as Hb0.
  step_this H self.
  set (td3 := OutputData.set_bitfield (Z_of_byte b0) (OutputData.set_id x td0)) in *.
  assert (exists c v3,
    fits c
    /\ (OutputData.has_commitment_length td3 = false -> c = [])
    /\ BCDataStream.remaining v2 =
         (if OutputData.has_commitment_length td3 then byte_vector c else [])
         ++ BCDataStream.remaining v3
    /\ v3 = BCDataStream.advance
              (List.length (if OutputData.has_commitment_length td3 then byte_vector c else []))
              v2
    /\ bind this (fun self =>
         (if OutputData.has_amount self
          then a <- on_stream (BCDataStream.read_compact_size true) ;;
               update (OutputData.set_amount a)
          else update (OutputData.set_amount 0)))
         (OutputData.set_commitment c td3, v3) = (Ok tt, (td, v'))) as (c & v3 & Hfc & Hc0 & Hr3 & Hv3 & H').
  { destruct (OutputData.has_commitment_length td3) eqn:Ecl.
    - apply bind_inv_ok in H as (u & s & Hc & H).
      step_stream Hc c td4 v3 H3. apply read_bytes_vector_inv in H3 as (Hfc & Hr3 & Hv3).
      apply update_inv in Hc as [_ ->].
      exists c, v3. repeat split; auto; discriminate.
    - apply bind_inv_ok in H as (u & s & Hc & H).
      apply update_inv in Hc as [_ ->].
      exists [], v2. repeat split; auto. now rewrite advance_0. }
  clear H. rename H' into H.
  step_this H self'.
  set (td4 := OutputData.set_commitment c td3) in *.
  assert (OutputData.has_amount td4 = OutputData.has_amount td3) as Eam by reflexivity.
  assert (exists a,
    0 <= a < 2 ^ 64
    /\ (OutputData.has_amount td4 = false -> a = 0)
    /\ BCDataStream.remaining v3 =
         (if OutputData.has_amount td4 then compact_size a else [])
         ++ BCDataStream.remaining v'
    /\ v' = BCDataStream.advance
              (List.length (if OutputData.has_amount td4 then compact_size a else [])) v3
    /\ td = OutputData.set_amount a td4) as (a & Ha & Ha0 & Hr4 & Hv4 & Etd).
  { destruct (OutputData.has_amount td4) eqn:Eha.
    - step_stream H a td5 v4 H4. apply read_compact_size_inv in H4 as (Ha & Hr4 & Hv4).
      apply update_inv in H as [_ H]. inversion H; subst td v'.
      exists a. repeat split; auto; try lia; discriminate.
    - apply update_inv in H as [_ H]. inversion H; subst td v'.
      exists 0. repeat split; auto; try lia; now rewrite advance_0. }
  subst td. unfold token_bytes.
  assert (OutputData.has_commitment_length (OutputData.set_amount a td4)
          = OutputData.has_commitment_length td3) as -> by reflexivity.
  assert (OutputData.has_amount (OutputData.set_amount a td4)
          = OutputData.has_amount td4) as -> by reflexivity.
  cbn [OutputData.id OutputData.bitfield OutputData.amount OutputData.commitment
       OutputData.set_amount OutputData.set_commitment OutputData.set_bitfield
       OutputData.set_id td4 td3].
  rewrite byte_of_Z_of_byte.
  repeat split; auto; try lia.
  - rewrite Hr1, Hr2, Hr3, Hr4. now rewrite <- !app_assoc.
  - rewrite Hv4, Hv3, Hv2, Hv1, !advance_advance. f_equal.
    rewrite !length_app. simpl. lia.
Qed.

(** ** Which exceptions escape

    [solve_raise H] follows a computation that raised, [H], down to the
    statement that raised, and closes a goal about the exception with the
    facts in the [raises] database. *)

Lemma on_stream_raise {Self A : Type} (m : M BCDataStream.t A) (s s' : Self * BCDataStream.t)
    (e : exn) :
  on_stream m s = (Raise e, s') -> exists v', m (snd s) = (Raise e, v').
Proof.
  unfold on_stream. destruct (m (snd s)) as [r v1]. intro H. inversion H; subst. eauto.
Qed.

Lemma update_raise {Self V : Type} (f : Self -> Self) (s s' : Self * V) (e : exn) :
  update f s = (Raise e, s') -> False.
Proof. unfold update. discriminate. Qed.

Lemma this_raise {Self V : Type} (s s' : Self * V) (e : exn) :
  @this Self V s = (Raise e, s') -> False.
Proof. unfold this. discriminate. Qed.

Lemma ret_raise {St A : Type} (a : A) (s s' : St) (e : exn) :
  ret a s = (Raise e, s') -> False.
Proof. unfold ret. discriminate. Qed.

Lemma raise_inv {St A : Type} (e0 e : exn) (s s' : St) (r : result A) :
  raise e0 s = (r, s') -> r = Raise e0 /\ s' = s.
Proof. unfold raise. intro H. inversion H; auto. Qed.

Lemma raise_raise {St A : Type} (e0 e : exn) (s s' : St) :
  @raise St A e0 s = (Raise e, s') -> e = e0.
Proof. unfold raise. intro H. now inversion H. Qed.

Lemma read_bytes_raise_kind (len : option Z) (strict : bool) (v v' : BCDataStream.t) (e : exn) :
  BCDataStream.read_bytes len strict v = (Raise e, v') -> is_SerializationError e = true.
Proof. intro H. apply read_bytes_raise in H as [-> | ->]; reflexivity. Qed.

Lemma read_compact_size_raise_kind (strict : bool) (v v' : BCDataStream.t) (e : exn) :
  BCDataStream.read_compact_size strict v = (Raise e, v') -> is_SerializationError e = true.
Proof. intro H. apply read_compact_size_raise in H as [-> | ->]; reflexivity. Qed.

Lemma _read_num_raise_kind (w : nat) (v v' : BCDataStream.t) (e : exn) :
  BCDataStream._read_num w v = (Raise e, v') -> is_SerializationError e = true.
Proof. intro H. apply _read_num_raise in H as ->. reflexivity. Qed.

Lemma read_uint32_raise_kind (v v' : BCDataStream.t) (e : exn) :
  BCDataStream.read_uint32 v = (Raise e, v') -> is_SerializationError e = true.
Proof. apply _read_num_raise_kind. Qed.

Lemma read_signed_raise_kind (w : nat) (v v' : BCDataStream.t) (e : exn) :
  bind (BCDataStream._read_num w) (fun u => ret (to_signed w u)) v = (Raise e, v') ->
  is_SerializationError e = true.
Proof.
  intro H. apply bind_inv_raise in H as [H | (a & s & _ & H)].
  - now apply _read_num_raise_kind in H.
  - discriminate.
Qed.

Lemma read_int32_raise_kind (v v' : BCDataStream.t) (e : exn) :
  BCDataStream.read_int32 v = (Raise e, v') -> is_SerializationError e = true.
Proof. apply read_signed_raise_kind. Qed.

Lemma read_int64_raise_kind (v v' : BCDataStream.t) (e : exn) :
  BCDataStream.read_int64 v = (Raise e, v') -> is_SerializationError e = true.
Proof. apply read_signed_raise_kind. Qed.

Create HintDb raises.
#[local] Hint Resolve read_bytes_raise_kind read_compact_size_raise_kind _read_num_raise_kind
  read_uint32_raise_kind read_int32_raise_kind read_int64_raise_kind : raises.

Ltac follow_raise H fin :=
  lazymatch type of H with
  | bind _ _ _ = (Raise _, _) =>
      apply bind_inv_raise in H as [H | (? & ? & _ & H)];
      [follow_raise H fin | follow_raise H fin]
  | on_stream _ _ = (Raise _, _) =>
      apply on_stream_raise in H as (? & H); follow_raise H fin
  | update _ _ = (Raise _, _) => apply update_raise in H; contradiction
  | this _ = (Raise _, _) => apply this_raise in H; contradiction
  | ret _ _ = (Raise _, _) => apply ret_raise in H; contradiction
  | raise _ _ = (Raise _, _) =>
      apply raise_raise in H; subst; first [reflexivity | eexists; reflexivity | fin H]
  | (if ?c then _ else _) _ = (Raise _, _) => destruct c; follow_raise H fin
  | (match ?c with Some _ => _ | None => _ end) _ = (Raise _, _) =>
      destruct c; follow_raise H fin
  | _ => fin H
  end.

Ltac solve_raise H :=
  follow_raise H ltac:(fun _ => first [ solve [eauto with raises] | idtac ]).

Lemma token_read_fields_raise_kind (s s' : OutputData.t * BCDataStream.t) (e : exn) :
  token_read_fields s = (Raise e, s') -> is_SerializationError e = true.
Proof. unfold token_read_fields. intro H. solve_raise H. Qed.

Lemma token_deserialize_raise_kind (s s' : OutputData.t * BCDataStream.t) (e : exn) :
  OutputData.deserialize s = (Raise e, s') -> is_SerializationError e = true.
Proof. unfold OutputData.deserialize. intro H. solve_raise H. Qed.

#[local] Hint Resolve token_deserialize_raise_kind : raises.

Lemma token_deserialize_inv (td0 td : OutputData.t) (v v' : BCDataStream.t) :
  OutputData.deserialize (td0, v) = (Ok tt, (td, v')) ->
  token_on_wire td
  /\ OutputData.amount td < 2 ^ 64
  /\ BCDataStream.remaining v = token_bytes td ++ BCDataStream.remaining v'
  /\ v' = BCDataStream.advance (List.length (token_bytes td)) v.
Proof.
  rewrite token_deserialize_split. intro H.
  apply bind_inv_ok in H as (u & [td1 v1] & Hf & H). destruct u.
  step_this H self.
  pose proof (token_read_fields_inv _ _ _ _ Hf) as (Hid & Hbf & Ha & Ha0 & Hc0 & Hfc & Hr & Hv).
  rewrite token_check_invariants in H by (auto; lia).
  destruct (token_invariants td1) eqn:Einv; simpl in H; [|discriminate].
  unfold ret in H. inversion H; subst td v'.
  unfold token_on_wire. repeat split; auto; lia.
Qed.

Lemma parses_step {Self A B : Type} (m : M (Self * BCDataStream.t) A)
    (f : A -> M (Self * BCDataStream.t) B) (s0 s1 s2 : Self) (d1 d2 d : bytes) (a : A) (b : B) :
  parses m s0 d1 a s1 -> parses (f a) s1 d2 b s2 -> d = d1 ++ d2 ->
  parses (bind m f) s0 d b s2.
Proof. intros H1 H2 ->. eapply parses_bind; eauto. Qed.

Lemma reads_step {A B : Type} (m : M BCDataStream.t A) (f : A -> M BCDataStream.t B)
    (d1 d2 d : bytes) (a : A) (b : B) :
  reads m d1 a -> reads (f a) d2 b -> d = d1 ++ d2 -> reads (bind m f) d b.
Proof. intros H1 H2 ->. eapply reads_bind; eauto. Qed.

Lemma token_read_fields_parses (td0 td : OutputData.t) :
  List.length (OutputData.id td) = 32%nat ->
  0 <= OutputData.bitfield td < 256 ->
  0 <= OutputData.amount td < 2 ^ 64 ->
  (OutputData.has_amount td = false -> OutputData.amount td = 0) ->
  (OutputData.has_commitment_length td = false -> OutputData.commitment td = []) ->
  fits (OutputData.commitment td) ->
  parses token_read_fields td0 (token_bytes td) tt td.
Proof.
  destruct td as [i bf a c].
  cbn [OutputData.id OutputData.bitfield OutputData.amount OutputData.commitment].
  intros Hid Hbf Ha Ha0 Hc0 Hfc.
  unfold token_read_fields, token_bytes.
  cbn [OutputData.id OutputData.bitfield OutputData.amount OutputData.commitment].
  eapply parses_step;
    [apply parses_on_stream; replace 32 with (Z.of_nat (List.length i)) by lia;
     apply read_bytes_fixed_reads | | reflexivity].
  eapply parses_step; [apply parses_update | | reflexivity].
  eapply parses_step;
    [apply parses_on_stream; apply (read_bytes_fixed_reads [byte_of_Z bf]) | | reflexivity].
  rewrite le_decode_single, Z_of_byte_of_Z, Z.mod_small by lia.
  eapply parses_step; [apply parses_update | | reflexivity].
  eapply parses_step; [apply parses_this | | reflexivity].
  cbv beta.
  change (OutputData.has_commitment_length
            (OutputData.set_bitfield bf (OutputData.set_id i td0)))
    with (OutputData.has_commitment_length (OutputData.mk i bf a c)).
  eapply parses_step
    with (s1 := OutputData.set_commitment c
                  (OutputData.set_bitfield bf (OutputData.set_id i td0)));
    [ | | reflexivity].
  { destruct (OutputData.has_commitment_length (OutputData.mk i bf a c)).
    - eapply parses_step;
        [apply parses_on_stream | apply (parses_update (OutputData.set_commitment c)) | ].
      + apply read_bytes_vector_reads. exact Hfc.
      + now rewrite app_nil_r.
    - rewrite (Hc0 eq_refl). apply (parses_update (OutputData.set_commitment [])). }
  eapply parses_step; [apply parses_this | | reflexivity].
  cbv beta.
  change (OutputData.has_amount
            (OutputData.set_commitment c
               (OutputData.set_bitfield bf (OutputData.set_id i td0))))
    with (OutputData.has_amount (OutputData.mk i bf a c)).
  destruct (OutputData.has_amount (OutputData.mk i bf a c)).
  - eapply parses_step;
      [apply parses_on_stream | apply (parses_update (OutputData.set_amount a)) | ].
    + apply read_compact_size_reads. exact Ha.
    + now rewrite app_nil_r.
  - rewrite (Ha0 eq_refl). apply (parses_update (OutputData.set_amount 0)).
Qed.

Lemma token_deserialize_parses (td0 td : OutputData.t) :
  token_on_wire td -> OutputData.amount td < 2 ^ 64 ->
  parses OutputData.deserialize td0 (token_bytes td) tt td.
Proof.
  intros (Hid & Hbf & Hinv & Ha & Ha0 & Hc0 & Hfc) Hamax v rest Hv.
  rewrite token_deserialize_split.
  pose proof (token_read_fields_parses td0 td Hid Hbf ltac:(lia) Ha0 Hc0 Hfc v rest Hv) as Hp.
  rewrite (bind_ok _ _ _ _ _ Hp).
  unfold bind, this. simpl.
  rewrite token_check_invariants by auto. rewrite Hinv. reflexivity.
Qed.

Lemma token_invariants_amount (td : OutputData.t) :
  token_invariants td = true -> OutputData.has_amount td = true ->
  OutputData.amount td <= 2 ^ 63 - 1.
Proof.
  unfold token_invariants, OutputData.has_amount. change Structure.HasAmount with 16.
  intros H Hf. rewrite Hf in H.
  repeat (apply andb_true_iff in H as [H ?]).
  simpl in *. 
  match goal with
  | Hx : negb (_ =? 0) && (_ <=? _) = true |- _ =>
      apply andb_true_iff in Hx as [_ Hx]; apply Z.leb_le in Hx; exact Hx
  end.
Qed.

Lemma token_on_wire_amount (td : OutputData.t) :
  token_on_wire td -> 0 <= OutputData.amount td < 2 ^ 64.
Proof.
  intros (Hid & Hbf & Hinv & Ha & Ha0 & Hc0 & Hfc).
  destruct (OutputData.has_amount td) eqn:E.
  - pose proof (token_invariants_amount _ Hinv E). lia.
  - rewrite (Ha0 eq_refl). lia.
Qed.

Lemma token_serialize_writes (td : OutputData.t) :
  token_on_wire td -> writes (OutputData.serialize_to td) (token_bytes td).
Proof.
  intro Hw. pose proof (token_on_wire_amount _ Hw) as Hamt.
  destruct Hw as (Hid & Hbf & Hinv & Ha & Ha0 & Hc0 & Hfc).
  unfold OutputData.serialize_to, token_bytes.
  apply writes_bind; [apply writes_write|].
  apply writes_bind.
  { replace ((0 <=? OutputData.bitfield td) && (OutputData.bitfield td <? 256)) with true.
    - apply writes_write.
    - symmetry. apply andb_true_iff. split; [apply Z.leb_le | apply Z.ltb_lt]; lia. }
  apply writes_bind.
  - destruct (OutputData.has_commitment_length td).
    + unfold byte_vector. apply writes_bind; [|apply writes_write].
      apply writes_compact_size. unfold fits in Hfc. lia.
    + apply writes_ret.
  - destruct (OutputData.has_amount td).
    + now apply writes_compact_size.
    + apply writes_ret.
Qed.

Lemma token_serialize_ok (td : OutputData.t) :
  token_on_wire td -> OutputData.serialize td = Ok (token_bytes td).
Proof.
  intro Hw. unfold OutputData.serialize.
  now rewrite (writes_written_by _ _ tt (token_serialize_writes _ Hw)).
Qed.

Lemma token_deserialize_raise (s s' : OutputData.t * BCDataStream.t) (e : exn) :
  OutputData.deserialize s = (Raise e, s') -> exists msg, e = SerializationError msg.
Proof.
  unfold OutputData.deserialize. intro H.
  follow_raise H ltac:(fun H =>
    first [ apply read_bytes_raise in H as [-> | ->]
          | apply read_compact_size_raise in H as [-> | ->] ];
    eexists; reflexivity).
Qed.

(** ** [unwrap_spk] *)

Lemma read_prefix_byte (b : byte) (rest : bytes) :
  BCDataStream.read_bytes (Some 1) true (BCDataStream.new (b :: rest))
  = (Ok [b], BCDataStream.mk (b :: rest) 1).
Proof.
  exact (read_bytes_fixed_reads [b] true (BCDataStream.new (b :: rest)) rest eq_refl).
Qed.

Lemma unwrap_spk_marked `{Ext : Externals} (rest : bytes) :
  let w := SPECIAL_TOKEN_PREFIX :: rest in
  unwrap_spk w =
  match OutputData.deserialize (OutputData.default, BCDataStream.mk w 1) with
  | (Raise e, _) => if is_SerializationError e then Ok (None, w) else Raise e
  | (Ok _, (td, ds2)) => Ok (Some td, skipn (BCDataStream.read_cursor ds2) w)
  end.
Proof.
  intro w. unfold w, unwrap_spk.
  rewrite (proj2 (byte_eqb_eq _ _) eq_refl). cbn [negb].
  rewrite read_prefix_byte. unfold PREFIX_BYTE.
  rewrite bytes_eqb_refl. reflexivity.
Qed.

Lemma begins_with_marker_true `{Ext : Externals} (w : bytes) :
  begins_with_marker w = true -> exists rest, w = SPECIAL_TOKEN_PREFIX :: rest.
Proof.
  destruct w as [|b rest]; simpl; [discriminate|].
  intro E. apply byte_eqb_eq in E. subst. eauto.
Qed.

Lemma unwrap_spk_unmarked `{Ext : Externals} (w : bytes) :
  begins_with_marker w = false -> unwrap_spk w = Ok (None, w).
Proof.
  destruct w as [|b rest]; simpl; [reflexivity|]. now intros ->.
Qed.

(** C9.  [OutputData.deserialize] succeeds only with a token that satisfies
    every invariant of section 3 (top nibble one of 0x10 .. 0x70, capability
    at most 2, no NFT flag only with the amount flag, capability 0 and no
    commitment-length flag, a flagged amount nonzero and at most 2^63 - 1, a
    flagged commitment non-empty, never neither amount nor NFT); whatever
    it raises is a [SerializationError]; once the fields are read the
    invariants alone decide between returning and raising; and a bitfield
    byte 0x00 after the 32-byte id is rejected. *)
Theorem C9_token_deserialize_validates :
  forall (td0 : OutputData.t) (v : BCDataStream.t),
    (forall td v',
        OutputData.deserialize (td0, v) = (Ok tt, (td, v')) -> token_invariants td = true)
    /\ (forall e s',
           OutputData.deserialize (td0, v) = (Raise e, s') ->
           exists msg, e = SerializationError msg)
    /\ (forall td v',
           token_read_fields (td0, v) = (Ok tt, (td, v')) ->
           OutputData.deserialize (td0, v) =
           if token_invariants td then (Ok tt, (td, v'))
           else (Raise OutputData.invalid, (td, v')))
    /\ (forall i rest,
           List.length i = 32%nat ->
           BCDataStream.remaining v = i ++ x00 :: rest ->
           exists s', OutputData.deserialize (td0, v) = (Raise OutputData.invalid, s')).
Proof.
  intros td0 v.
  assert (forall td v',
    token_read_fields (td0, v) = (Ok tt, (td, v')) ->
    OutputData.deserialize (td0, v) =
    if token_invariants td then (Ok tt, (td, v'))
    else (Raise OutputData.invalid, (td, v'))) as Hdecide.
  { intros td v' Hf. rewrite token_deserialize_split, (bind_ok _ _ _ _ _ Hf).
    apply token_read_fields_inv in Hf as (Hid & Hbf & Ha & Ha0 & Hc0 & Hfc & Hr & Hv).
    unfold bind, this. simpl.
    rewrite token_check_invariants by (auto; lia).
    now destruct (token_invariants td). }
  repeat split.
  - intros td v' H. now apply token_deserialize_inv in H as ((_ & _ & Hinv & _) & _).
  - intros e s'. apply token_deserialize_raise.
  - exact Hdecide.
  - intros i rest Hi Hrem.
    set (td := OutputData.mk i 0 0 []).
    assert (token_read_fields (td0, v)
            = (Ok tt, (td, BCDataStream.advance (List.length (token_bytes td)) v))) as Hf.
    { apply (token_read_fields_parses td0 td) with (rest := rest); auto;
        try (cbn; lia); try discriminate.
      - cbn. unfold fits. simpl. lia.
      - rewrite Hrem. unfold token_bytes. cbn. now rewrite <- app_assoc. }
    rewrite (Hdecide _ _ Hf). cbn. eauto.
Qed.

Lemma unwrap_spk_failed `{Ext : Externals} (w : bytes) (e : exn)
    (s : OutputData.t * BCDataStream.t) :
  begins_with_marker w = true ->
  OutputData.deserialize (OutputData.default, BCDataStream.mk w 1) = (Raise e, s) ->
  unwrap_spk w = Ok (None, w).
Proof.
  intros Hm Hd. apply begins_with_marker_true in Hm as (rest & ->).
  rewrite unwrap_spk_marked, Hd.
  now rewrite (token_deserialize_raise_kind _ _ _ Hd).
Qed.

Lemma unwrap_spk_parsed `{Ext : Externals} (w : bytes) (td : OutputData.t) (ds : BCDataStream.t) :
  begins_with_marker w = true ->
  OutputData.deserialize (OutputData.default, BCDataStream.mk w 1) = (Ok tt, (td, ds)) ->
  unwrap_spk w = Ok (Some td, BCDataStream.remaining ds)
  /\ w = PREFIX_BYTE ++ token_bytes td ++ BCDataStream.remaining ds
  /\ token_on_wire td.
Proof.
  intros Hm Hd. apply begins_with_marker_true in Hm as (rest & ->).
  rewrite unwrap_spk_marked, Hd.
  apply token_deserialize_inv in Hd as (Hw & _ & Hr & Hv).
  repeat split; try apply Hw.
  - subst ds. reflexivity.
  - unfold PREFIX_BYTE. simpl. f_equal. exact Hr.
Qed.

Lemma unwrap_spk_inv `{Ext : Externals} (w : bytes) :
  exists otd spk,
    unwrap_spk w = Ok (otd, spk)
    /\ match otd with
       | None => spk = w
       | Some td => token_on_wire td /\ w = PREFIX_BYTE ++ token_bytes td ++ spk
       end.
Proof.
  destruct (begins_with_marker w) eqn:Hm.
  - destruct (OutputData.deserialize (OutputData.default, BCDataStream.mk w 1))
      as [[[]|e] [td ds]] eqn:Hd.
    + destruct (unwrap_spk_parsed _ _ _ Hm Hd) as (Hu & Hw & Htd).
      exists (Some td), (BCDataStream.remaining ds). auto.
    + exists None, w. split; [|reflexivity]. eapply unwrap_spk_failed; eauto.
  - exists None, w. split; [|reflexivity]. now apply unwrap_spk_unmarked.
Qed.

Lemma unwrap_wrapped_token `{Ext : Externals} (td : OutputData.t) (script : bytes) :
  token_on_wire td ->
  unwrap_spk (PREFIX_BYTE ++ token_bytes td ++ script) = Ok (Some td, script).
Proof.
  intro Hyp. unfold PREFIX_BYTE. cbn [app]. rewrite unwrap_spk_marked.
  pose proof (token_on_wire_amount _ Hyp) as Ha.
  assert (BCDataStream.remaining
            (BCDataStream.mk (SPECIAL_TOKEN_PREFIX :: token_bytes td ++ script) 1)
          = token_bytes td ++ script) as Hrem by reflexivity.
  rewrite (token_deserialize_parses OutputData.default td Hyp ltac:(lia) _ _ Hrem).
  f_equal. f_equal.
  cbn [BCDataStream.read_cursor BCDataStream.advance BCDataStream.input Nat.add skipn].
  now rewrite skipn_app, skipn_all, Nat.sub_diag.
Qed.

(** C8.  [unwrap_spk] never raises.  An input that is empty or does not
    begin with the marker comes back as [(None, input)]; so does an input
    behind whose marker the token data fails to parse or to validate, the
    whole input unchanged; only when the token data parses does
    [unwrap_spk] return it, with the bytes the parse left unread as the
    locking script. *)
Theorem C8_unwrap_spk_swallows_failures `{Ext : Externals} :
  forall wrapped_spk : bytes,
    (exists r, unwrap_spk wrapped_spk = Ok r)
    /\ (begins_with_marker wrapped_spk = false ->
        unwrap_spk wrapped_spk = Ok (None, wrapped_spk))
    /\ (begins_with_marker wrapped_spk = true ->
        forall e s,
          OutputData.deserialize (OutputData.default, BCDataStream.mk wrapped_spk 1)
          = (Raise e, s) ->
          unwrap_spk wrapped_spk = Ok (None, wrapped_spk))
    /\ (begins_with_marker wrapped_spk = true ->
        forall td ds,
          OutputData.deserialize (OutputData.default, BCDataStream.mk wrapped_spk 1)
          = (Ok tt, (td, ds)) ->
          unwrap_spk wrapped_spk = Ok (Some td, BCDataStream.remaining ds)
          /\ wrapped_spk = PREFIX_BYTE ++ token_bytes td ++ BCDataStream.remaining ds).
Proof.
  intro w.
  split; [|split; [apply unwrap_spk_unmarked | split]].
  - destruct (unwrap_spk_inv w) as (otd & spk & Hu & _). eauto.
  - intros Hm e s Hd. eapply unwrap_spk_failed; eauto.
  - intros Hm td ds Hd. destruct (unwrap_spk_parsed _ _ _ Hm Hd) as (Hu & Hw & _). auto.
Qed.

(** C3, as the spec states it, fails: [OutputData(amount=0)] is wrapped
    without complaint, and unwrapping the result yields no token data. *)
Lemma C3_counterexample :
  ~ (forall (E : Externals) (token_data : option OutputData.t) (script : bytes),
        begins_with_marker script = false ->
        exists w, wrap_spk token_data script = Ok w
                  /\ unwrap_spk w = Ok (token_data, script)).
Proof.
  intro H.
  destruct (H test_externals (Some zero_amount_token) [] eq_refl) as (w & Hw & Hu).
  vm_compute in Hw. inversion Hw; subst w. vm_compute in Hu. discriminate.
Qed.

(** C3, amended.  For token data that satisfies the invariants of section 3
    (as it is on the wire), and any script, [unwrap_spk (wrap_spk
    token_data script)] is [(token_data, script)]; so it is without token
    data for a script that does not begin with the marker byte. *)
Theorem C3_unwrap_wrap `{Ext : Externals} :
  forall (token_data : option OutputData.t) (script : bytes),
    match token_data with
    | None => begins_with_marker script = false
    | Some td => token_on_wire td
    end ->
    exists w, wrap_spk token_data script = Ok w
              /\ unwrap_spk w = Ok (token_data, script).
Proof.
  intros [td|] script Hyp.
  - exists (PREFIX_BYTE ++ token_bytes td ++ script). split.
    + unfold wrap_spk. now rewrite token_serialize_ok.
    + now apply unwrap_wrapped_token.
  - exists script. split; [reflexivity|]. now apply unwrap_spk_unmarked.
Qed.

Lemma C3_unwrap_wrap_witness :
  token_on_wire OutputData.default
  /\ exists w, @wrap_spk test_externals (Some OutputData.default) [x76; xa9] = Ok w
               /\ @unwrap_spk test_externals w = Ok (Some OutputData.default, [x76; xa9]).
Proof.
  assert (token_on_wire OutputData.default) as Hw.
  { unfold token_on_wire, fits. cbn. repeat split; try lia; try discriminate. }
  split; [exact Hw|].
  exact (@C3_unwrap_wrap test_externals (Some OutputData.default) [x76; xa9] Hw).
Defined.

(** ** [PSBT.deserialize]: the magic bytes and the reset *)

Lemma read_magic {Self : Type} (self : Self) (vds : BCDataStream.t) :
  on_stream (BCDataStream.read_bytes (Some 5) false) (self, vds)
  = (Ok (firstn 5 (BCDataStream.remaining vds)), (self, BCDataStream.advance 5 vds)).
Proof. reflexivity. Qed.

Lemma deserialize_opened `{Ext : Externals} (src : PSBT.source) (is_hex : bool) (self : PSBT.t)
    (vds : BCDataStream.t) :
  source_stream src is_hex = Some vds ->
  PSBT.deserialize src is_hex self =
  (fst (PSBT.deserialize_stream (self, vds)), fst (snd (PSBT.deserialize_stream (self, vds)))).
Proof.
  unfold PSBT.deserialize, source_stream. intro Hs.
  assert (forall o : option bytes,
    option_map BCDataStream.new o = Some vds ->
    forall e, match o with
              | Some decoded => Ok (BCDataStream.new decoded)
              | None => Raise e
              end = Ok vds) as Hopt.
  { intros [d|] Ho e; simpl in Ho; [now inversion Ho | discriminate]. }
  destruct src as [b | s | v0].
  - inversion Hs; subst.
    now destruct (PSBT.deserialize_stream (self, BCDataStream.new b)) as [r [self' v']].
  - destruct is_hex; rewrite (Hopt _ Hs);
      now destruct (PSBT.deserialize_stream (self, vds)) as [r [self' v']].
  - inversion Hs; subst.
    now destruct (PSBT.deserialize_stream (self, vds)) as [r [self' v']].
Qed.

Lemma source_stream_bytes `{Ext : Externals} (src : PSBT.source) (is_hex : bool) (b : bytes) :
  source_bytes src is_hex = Some b ->
  exists vds, source_stream src is_hex = Some vds /\ BCDataStream.remaining vds = b.
Proof.
  unfold source_bytes, source_stream. destruct src as [b0 | s | v0]; intro Hs.
  - inversion Hs; subst. eauto.
  - rewrite Hs. simpl. eauto.
  - inversion Hs; subst. eauto.
Qed.

Lemma deserialize_stream_bad_magic `{Ext : Externals} (self : PSBT.t) (vds : BCDataStream.t) :
  begins_with_magic (BCDataStream.remaining vds) = false ->
  PSBT.deserialize_stream (self, vds)
  = (Raise (mkPSBTMagicBytesError "Invalid magic bytes"), (self, BCDataStream.advance 5 vds)).
Proof.
  unfold begins_with_magic, PSBT.deserialize_stream. intro Hm.
  rewrite (bind_ok _ _ _ _ _ (read_magic self vds)). now rewrite Hm.
Qed.

Lemma deserialize_stream_resets `{Ext : Externals} (self : PSBT.t) (vds : BCDataStream.t) :
  begins_with_magic (BCDataStream.remaining vds) = true ->
  PSBT.deserialize_stream (self, vds) = PSBT.deserialize_stream (PSBT.default, vds).
Proof.
  unfold begins_with_magic, PSBT.deserialize_stream. intro Hm.
  rewrite !(bind_ok _ _ _ _ _ (read_magic _ vds)). rewrite Hm. reflexivity.
Qed.

(** C10.  On bytes that do not begin with the magic, [PSBT.deserialize]
    raises [PSBTMagicBytesError] and the receiver keeps every attribute it
    had: the reset comes only after the check. *)
Theorem C10_bad_magic_leaves_receiver_unchanged `{Ext : Externals} :
  forall (self : PSBT.t) (src : PSBT.source) (is_hex : bool) (b : bytes),
    source_bytes src is_hex = Some b ->
    begins_with_magic b = false ->
    PSBT.deserialize src is_hex self
    = (Raise (mkPSBTMagicBytesError "Invalid magic bytes"), self).
Proof.
  intros self src is_hex b Hs Hm.
  apply source_stream_bytes in Hs as (vds & Hs & Hr).
  rewrite (deserialize_opened _ _ _ _ Hs).
  rewrite deserialize_stream_bad_magic by now rewrite Hr.
  reflexivity.
Qed.

(** C2, as the spec states it, fails: a global map that gives the unsigned
    transaction twice makes [deserialize] raise at the second key, and the
    receiver, empty before the call, is left holding the transaction of the
    first. *)
Lemma C2_counterexample :
  ~ (forall (E : Externals) (self : PSBT.t) (src : PSBT.source) (is_hex : bool)
            (e : exn) (self' : PSBT.t),
        PSBT.deserialize src is_hex self = (Raise e, self') ->
        self' = PSBT.default \/ self' = self).
Proof.
  intro H.
  destruct (H test_externals PSBT.default (PSBT.FromBytes twice_the_tx) false
              (mkPSBTSerializationError "Duplicate Key, unsigned tx already provided")
              (PSBT.set_tx (Some CMutableTransaction.default) PSBT.default))
    as [E | E]; [vm_compute; reflexivity | discriminate E | discriminate E].
Qed.

(** C2, amended.  Once the magic check has passed, [PSBT.deserialize]
    resets the receiver before it populates it: the outcome and the
    receiver's final state, on success and on failure alike, are those of
    deserializing into a fresh [PSBT()], so nothing the receiver held
    before the call survives it. *)
Theorem C2_deserialize_resets_after_magic `{Ext : Externals} :
  forall (self : PSBT.t) (src : PSBT.source) (is_hex : bool) (b : bytes),
    source_bytes src is_hex = Some b ->
    begins_with_magic b = true ->
    PSBT.deserialize src is_hex self = PSBT.deserialize src is_hex PSBT.default.
Proof.
  intros self src is_hex b Hs Hm.
  apply source_stream_bytes in Hs as (vds & Hs & Hr).
  rewrite !(deserialize_opened _ _ _ _ Hs).
  rewrite deserialize_stream_resets by now rewrite Hr.
  reflexivity.
Qed.

(** A receiver that holds something: an unknown global entry. *)
Lemma C10_bad_magic_witness :
  @source_bytes test_externals (PSBT.FromBytes [x00; x01]) false = Some [x00; x01]
  /\ begins_with_magic [x00; x01] = false
  /\ @PSBT.deserialize test_externals (PSBT.FromBytes [x00; x01]) false
       (PSBT.set_unknown [([x09], [x01])] PSBT.default)
     = (Raise (mkPSBTMagicBytesError "Invalid magic bytes"),
        PSBT.set_unknown [([x09], [x01])] PSBT.default).
Proof.
  split; [reflexivity|]. split; [reflexivity|].
  apply (@C10_bad_magic_leaves_receiver_unchanged test_externals
           (PSBT.set_unknown [([x09], [x01])] PSBT.default)
           (PSBT.FromBytes [x00; x01]) false [x00; x01]); reflexivity.
Defined.

Lemma C2_reset_witness :
  @source_bytes test_externals (PSBT.FromBytes twice_the_tx) false = Some twice_the_tx
  /\ begins_with_magic twice_the_tx = true
  /\ @PSBT.deserialize test_externals (PSBT.FromBytes twice_the_tx) false
       (PSBT.set_unknown [([x09], [x01])] PSBT.default)
     = @PSBT.deserialize test_externals (PSBT.FromBytes twice_the_tx) false PSBT.default.
Proof.
  split; [reflexivity|]. split; [reflexivity|].
  apply (@C2_deserialize_resets_after_magic test_externals
           (PSBT.set_unknown [([x09], [x01])] PSBT.default)
           (PSBT.FromBytes twice_the_tx) false twice_the_tx); reflexivity.
Defined.

(** ** Typed integers on the stream *)

Lemma to_signed_of_mod (w : nat) (z : Z) :
  (0 < w)%nat ->
  - 2 ^ (8 * Z.of_nat w - 1) <= z < 2 ^ (8 * Z.of_nat w - 1) ->
  to_signed w (z mod 256 ^ Z.of_nat w) = z.
Proof.
  intros Hw Hz. unfold to_signed.
  assert (256 ^ Z.of_nat w = 2 ^ (8 * Z.of_nat w)) as E.
  { change 256 with (2 ^ 8). rewrite <- Z.pow_mul_r by lia. reflexivity. }
  assert (2 ^ (8 * Z.of_nat w) = 2 * 2 ^ (8 * Z.of_nat w - 1)) as E2.
  { rewrite <- Z.pow_succ_r by lia. f_equal. lia. }
  assert (0 < 2 ^ (8 * Z.of_nat w - 1)) as Hp by (apply Z.pow_pos_nonneg; lia).
  rewrite E.
  destruct (Z_lt_le_dec z 0) as [Hneg | Hpos].
  - assert (z mod 2 ^ (8 * Z.of_nat w) = z + 2 ^ (8 * Z.of_nat w)) as Em.
    { symmetry. apply Z.mod_unique with (q := -1); lia. }
    rewrite Em.
    replace (z + 2 ^ (8 * Z.of_nat w) <? 2 ^ (8 * Z.of_nat w - 1)) with false
      by (symmetry; apply Z.ltb_ge; lia).
    lia.
  - rewrite Z.mod_small by lia.
    replace (z <? 2 ^ (8 * Z.of_nat w - 1)) with true by (symmetry; apply Z.ltb_lt; lia).
    reflexivity.
Qed.

Lemma _read_num_encode_mod (w : nat) (z : Z) :
  reads (BCDataStream._read_num w) (le_encode w z) (z mod 256 ^ Z.of_nat w).
Proof.
  pose proof (_read_num_reads (le_encode w z)) as H.
  now rewrite length_le_encode, le_decode_encode in H.
Qed.

Lemma read_uint32_reads (z : Z) :
  0 <= z < 2 ^ 32 -> reads BCDataStream.read_uint32 (le_encode 4 z) z.
Proof. intro Hz. apply _read_num_encode. simpl. lia. Qed.

Lemma read_uint32_inv (v v' : BCDataStream.t) (z : Z) :
  BCDataStream.read_uint32 v = (Ok z, v') ->
  0 <= z < 2 ^ 32
  /\ BCDataStream.remaining v = le_encode 4 z ++ BCDataStream.remaining v'
  /\ v' = BCDataStream.advance 4 v.
Proof.
  intro H. apply _read_num_inv in H as (bs & Hl & Hz & Hr & Hv).
  pose proof (le_decode_range bs) as Hrange. rewrite Hl in Hrange. simpl in Hrange.
  assert (le_encode 4 (le_decode bs) = bs) as E
    by (rewrite <- Hl; apply le_encode_decode).
  subst z. rewrite E. repeat split; auto; lia.
Qed.

Lemma read_signed_reads (w : nat) (z : Z) :
  (0 < w)%nat ->
  - 2 ^ (8 * Z.of_nat w - 1) <= z < 2 ^ (8 * Z.of_nat w - 1) ->
  reads (bind (BCDataStream._read_num w) (fun u => ret (to_signed w u))) (le_encode w z) z.
Proof.
  intros Hw Hz. rewrite <- (app_nil_r (le_encode w z)).
  eapply reads_bind; [apply _read_num_encode_mod|].
  rewrite to_signed_of_mod by assumption. apply reads_ret.
Qed.

Lemma read_signed_inv (w : nat) (v v' : BCDataStream.t) (z : Z) :
  (0 < w)%nat ->
  bind (BCDataStream._read_num w) (fun u => ret (to_signed w u)) v = (Ok z, v') ->
  - 2 ^ (8 * Z.of_nat w - 1) <= z < 2 ^ (8 * Z.of_nat w - 1)
  /\ BCDataStream.remaining v = le_encode w z ++ BCDataStream.remaining v'
  /\ v' = BCDataStream.advance w v.
Proof.
  intros Hw H. apply bind_inv_ok in H as (u & v1 & H1 & H2).
  unfold ret in H2. inversion H2; subst z v1; clear H2.
  apply _read_num_inv in H1 as (bs & Hl & Hu & Hr & Hv).
  pose proof (le_decode_range bs) as Hrange. rewrite Hl, <- Hu in Hrange.
  split; [now apply to_signed_range|]. split; [|assumption].
  rewrite <- (le_encode_mod w (to_signed w u)), to_signed_mod by assumption.
  subst u w. now rewrite le_encode_decode.
Qed.

Lemma read_int32_reads (z : Z) :
  - 2 ^ 31 <= z < 2 ^ 31 -> reads BCDataStream.read_int32 (le_encode 4 z) z.
Proof. intro Hz. apply read_signed_reads; simpl; lia. Qed.

Lemma read_int64_reads (z : Z) :
  - 2 ^ 63 <= z < 2 ^ 63 -> reads BCDataStream.read_int64 (le_encode 8 z) z.
Proof. intro Hz. apply read_signed_reads; simpl; lia. Qed.

Lemma read_int32_inv (v v' : BCDataStream.t) (z : Z) :
  BCDataStream.read_int32 v = (Ok z, v') ->
  - 2 ^ 31 <= z < 2 ^ 31
  /\ BCDataStream.remaining v = le_encode 4 z ++ BCDataStream.remaining v'
  /\ v' = BCDataStream.advance 4 v.
Proof. intro H. apply read_signed_inv in H; [exact H | lia]. Qed.

Lemma read_int64_inv (v v' : BCDataStream.t) (z : Z) :
  BCDataStream.read_int64 v = (Ok z, v') ->
  - 2 ^ 63 <= z < 2 ^ 63
  /\ BCDataStream.remaining v = le_encode 8 z ++ BCDataStream.remaining v'
  /\ v' = BCDataStream.advance 8 v.
Proof. intro H. apply read_signed_inv in H; [exact H | lia]. Qed.

Lemma writes_write_uint32 (z : Z) :
  0 <= z < 2 ^ 32 -> writes (BCDataStream.write_uint32 z) (le_encode 4 z).
Proof. intro Hz. now apply writes__write_num. Qed.

Lemma writes_write_int32 (z : Z) :
  - 2 ^ 31 <= z < 2 ^ 31 -> writes (BCDataStream.write_int32 z) (le_encode 4 z).
Proof. intro Hz. now apply writes__write_num. Qed.

Lemma writes_write_int64 (z : Z) :
  - 2 ^ 63 <= z < 2 ^ 63 -> writes (BCDataStream.write_int64 z) (le_encode 8 z).
Proof. intro Hz. now apply writes__write_num. Qed.

(** ** Calls into other objects *)

Lemma parses_zoom {Self T A : Type} (getf : Self -> T) (setf : T -> Self -> Self)
    (m : M (T * BCDataStream.t) A) (self : Self) (d : bytes) (a : A) (obj' : T) :
  parses m (getf self) d a obj' -> parses (zoom getf setf m) self d a (setf obj' self).
Proof.
  intros H v rest Hv. unfold zoom. simpl. now rewrite (H _ _ Hv).
Qed.

Lemma zoom_inv_ok {Self T A : Type} (getf : Self -> T) (setf : T -> Self -> Self)
    (m : M (T * BCDataStream.t) A) (self self' : Self) (v v' : BCDataStream.t) (a : A) :
  zoom getf setf m (self, v) = (Ok a, (self', v')) ->
  exists obj', m (getf self, v) = (Ok a, (obj', v')) /\ self' = setf obj' self.
Proof.
  unfold zoom. simpl. destruct (m (getf self, v)) as [r [obj' v1]].
  intro H. inversion H; subst. eauto.
Qed.

Lemma zoom_raise {Self T A : Type} (getf : Self -> T) (setf : T -> Self -> Self)
    (m : M (T * BCDataStream.t) A) (s s' : Self * BCDataStream.t) (e : exn) :
  zoom getf setf m s = (Raise e, s') ->
  exists s1, m (getf (fst s), snd s) = (Raise e, s1).
Proof.
  unfold zoom. destruct (m (getf (fst s), snd s)) as [r [obj' v1]].
  intro H. inversion H; subst. eauto.
Qed.

Lemma parses_call_new {Self T A : Type} (obj obj' : T) (m : M (T * BCDataStream.t) A)
    (self : Self) (d : bytes) (a : A) :
  parses m obj d a obj' -> parses (call_new obj m) self d obj' self.
Proof.
  intros H v rest Hv. unfold call_new. simpl. now rewrite (H _ _ Hv).
Qed.

Lemma call_new_inv_ok {Self T A : Type} (obj obj' : T) (m : M (T * BCDataStream.t) A)
    (self self' : Self) (v v' : BCDataStream.t) :
  call_new obj m (self, v) = (Ok obj', (self', v')) ->
  (exists a, m (obj, v) = (Ok a, (obj', v'))) /\ self' = self.
Proof.
  unfold call_new. simpl. destruct (m (obj, v)) as [[a|e] [o v1]];
    intro H; inversion H; subst; eauto.
Qed.

Lemma call_new_raise {Self T A : Type} (obj : T) (m : M (T * BCDataStream.t) A)
    (s s' : Self * BCDataStream.t) (e : exn) :
  call_new obj m s = (Raise e, s') -> exists s1, m (obj, snd s) = (Raise e, s1).
Proof.
  unfold call_new. destruct (m (obj, snd s)) as [[a|e'] [o v1]];
    intro H; inversion H; subst; eauto.
Qed.

Lemma run_on_inv_ok {St L A : Type} (l l' : L) (m : M L A) (s s' : St) (a : A) :
  run_on l m s = (Ok (a, l'), s') -> m l = (Ok a, l') /\ s' = s.
Proof.
  unfold run_on. destruct (m l) as [[a0|e] l1]; intro H; inversion H; subst; auto.
Qed.

Lemma run_on_raise {St L A : Type} (l : L) (m : M L A) (s s' : St) (e : exn) :
  run_on l m s = (Raise e, s') -> exists l', m l = (Raise e, l').
Proof.
  unfold run_on. destruct (m l) as [[a0|e'] l1]; intro H; inversion H; subst; eauto.
Qed.

Lemma assert_inv {St : Type} (c : bool) (s s' : St) (u : unit) :
  assert c s = (Ok u, s') -> c = true /\ s' = s.
Proof. unfold assert. destruct c; intro H; inversion H; auto. Qed.

(** ** Identifiers, outpoints and inputs *)

Lemma uint256_serialize_writes (x : uint256.t) :
  List.length (uint256.data x) = 32%nat -> writes (uint256.serialize x) (uint256.data x).
Proof.
  intro Hl. unfold uint256.serialize. rewrite Hl. simpl.
  apply (writes_bind _ _ []); [apply writes_ret | apply writes_write].
Qed.

Lemma uint256_deserialize_parses (x0 x : uint256.t) :
  List.length (uint256.data x) = 32%nat ->
  parses uint256.deserialize x0 (uint256.data x) tt x.
Proof.
  intro Hl. destruct x as [d]. simpl in *. unfold uint256.deserialize.
  eapply parses_step;
    [apply parses_on_stream; replace 32 with (Z.of_nat (List.length d)) by lia;
     apply read_bytes_fixed_reads | | symmetry; apply app_nil_r].
  eapply parses_step; [apply (parses_update (fun _ => uint256.mk d)) | | reflexivity].
  rewrite Hl. simpl. apply parses_ret.
Qed.

Lemma uint256_deserialize_inv (x0 x : uint256.t) (v v' : BCDataStream.t) :
  uint256.deserialize (x0, v) = (Ok tt, (x, v')) ->
  List.length (uint256.data x) = 32%nat
  /\ BCDataStream.remaining v = uint256.data x ++ BCDataStream.remaining v'
  /\ v' = BCDataStream.advance 32 v.
Proof.
  unfold uint256.deserialize. intro H.
  step_stream H d x1 v1 H1. apply read_bytes_fixed_inv in H1 as (Hl & Hr & Hv).
  step_update H.
  apply assert_inv in H as [_ H]. inversion H; subst x v'. simpl.
  assert (List.length d = 32%nat) as Hl' by lia. rewrite Hl' in Hv. auto.
Qed.

Lemma uint256_deserialize_raise_kind (s s' : uint256.t * BCDataStream.t) (e : exn) :
  uint256.deserialize s = (Raise e, s') -> is_SerializationError e = true.
Proof.
  unfold uint256.deserialize. intro H.
  apply bind_inv_raise in H as [H | (d & [x1 v1] & H1 & H)].
  - solve_raise H.
  - destruct s as [x0 v]. apply on_stream_inv_ok in H1 as [H1 _].
    apply read_bytes_fixed_inv in H1 as (Hl & _).
    apply bind_inv_raise in H as [H | (u & s2 & _ & H)]; [solve_raise H|].
    assert (List.length d = 32%nat) as Hl' by lia. rewrite Hl' in H. discriminate.
Qed.

#[local] Hint Resolve uint256_deserialize_raise_kind : raises.

Lemma COutPoint_serialize_writes (p : COutPoint.t) :
  List.length (uint256.data (COutPoint.txid p)) = 32%nat ->
  0 <= COutPoint.n p < 2 ^ 32 ->
  writes (COutPoint.serialize p) (outpoint_bytes p).
Proof.
  intros Hl Hn. unfold COutPoint.serialize, outpoint_bytes.
  apply writes_bind; [now apply uint256_serialize_writes|].
  replace (COutPoint.n p >=? 0) with true by (symmetry; apply Z.geb_le; lia).
  apply (writes_bind _ _ []); [apply writes_ret | now apply writes_write_uint32].
Qed.

Lemma COutPoint_deserialize_parses (p0 p : COutPoint.t) :
  List.length (uint256.data (COutPoint.txid p)) = 32%nat ->
  0 <= COutPoint.n p < 2 ^ 32 ->
  parses COutPoint.deserialize p0 (outpoint_bytes p) tt p.
Proof.
  intros Hl Hn. destruct p as [t n]. simpl in *.
  unfold COutPoint.deserialize, outpoint_bytes. simpl.
  eapply parses_step;
    [apply parses_zoom; apply (uint256_deserialize_parses _ t Hl) | | reflexivity].
  eapply parses_step;
    [apply parses_on_stream; apply read_uint32_reads; exact Hn
    | apply (parses_update (COutPoint.set_n n)) | symmetry; apply app_nil_r].
Qed.

Lemma COutPoint_deserialize_inv (p0 p : COutPoint.t) (v v' : BCDataStream.t) :
  COutPoint.deserialize (p0, v) = (Ok tt, (p, v')) ->
  List.length (uint256.data (COutPoint.txid p)) = 32%nat
  /\ 0 <= COutPoint.n p < 2 ^ 32
  /\ BCDataStream.remaining v = outpoint_bytes p ++ BCDataStream.remaining v'
  /\ v' = BCDataStream.advance (List.length (outpoint_bytes p)) v.
Proof.
  unfold COutPoint.deserialize. intro H.
  apply bind_inv_ok in H as ([] & [p1 v1] & H1 & H).
  apply zoom_inv_ok in H1 as (t & H1 & ->).
  apply uint256_deserialize_inv in H1 as (Hl & Hr1 & Hv1).
  step_stream H n p2 v2 H2. apply read_uint32_inv in H2 as (Hn & Hr2 & Hv2).
  apply update_inv in H as [_ H]. inversion H; subst p v'.
  unfold outpoint_bytes.
  cbn [COutPoint.txid COutPoint.n COutPoint.set_n COutPoint.set_txid].
  repeat split; auto; try lia.
  - rewrite Hr1, Hr2. now rewrite app_assoc.
  - rewrite Hv2, Hv1, advance_advance, length_app, length_le_encode, Hl. reflexivity.
Qed.

Lemma COutPoint_deserialize_raise_kind (s s' : COutPoint.t * BCDataStream.t) (e : exn) :
  COutPoint.deserialize s = (Raise e, s') -> is_SerializationError e = true.
Proof.
  unfold COutPoint.deserialize. intro H.
  follow_raise H ltac:(fun H =>
    first [ apply zoom_raise in H as (? & H); solve [eauto with raises]
          | solve [eauto with raises] ]).
Qed.

#[local] Hint Resolve COutPoint_deserialize_raise_kind : raises.

Lemma txin_bytes_outpoint (i : CTxIn.t) :
  txin_bytes i =
  outpoint_bytes (CTxIn.prevout i) ++ byte_vector (CTxIn.script_sig i)
  ++ le_encode 4 (CTxIn.sequence i).
Proof. unfold txin_bytes, outpoint_bytes. now rewrite <- app_assoc. Qed.

Lemma CTxIn_serialize_writes (i : CTxIn.t) :
  txin_wf i -> writes (CTxIn.serialize i) (txin_bytes i).
Proof.
  intros (Hl & Hn & Hs & Hq). rewrite txin_bytes_outpoint. unfold CTxIn.serialize.
  apply writes_bind; [now apply COutPoint_serialize_writes|].
  apply writes_bind; [now apply writes_write_string|].
  replace (CTxIn.sequence i >=? 0) with true by (symmetry; apply Z.geb_le; lia).
  apply (writes_bind _ _ []); [apply writes_ret | now apply writes_write_uint32].
Qed.

Lemma CTxIn_deserialize_parses (i0 i : CTxIn.t) :
  txin_wf i -> parses CTxIn.deserialize i0 (txin_bytes i) tt i.
Proof.
  intros (Hl & Hn & Hs & Hq). rewrite txin_bytes_outpoint.
  destruct i as [p s q]. simpl in *. unfold CTxIn.deserialize.
  eapply parses_step;
    [apply parses_zoom; apply (COutPoint_deserialize_parses _ p Hl Hn) | | reflexivity].
  eapply parses_step;
    [apply parses_on_stream; apply read_bytes_vector_reads; exact Hs | | reflexivity].
  eapply parses_step; [apply (parses_update (CTxIn.set_script_sig s)) | | reflexivity].
  eapply parses_step;
    [apply parses_on_stream; apply read_uint32_reads; exact Hq
    | apply (parses_update (CTxIn.set_sequence q)) | symmetry; apply app_nil_r].
Qed.

Lemma CTxIn_deserialize_inv (i0 i : CTxIn.t) (v v' : BCDataStream.t) :
  CTxIn.deserialize (i0, v) = (Ok tt, (i, v')) ->
  txin_wf i
  /\ BCDataStream.remaining v = txin_bytes i ++ BCDataStream.remaining v'
  /\ v' = BCDataStream.advance (List.length (txin_bytes i)) v.
Proof.
  unfold CTxIn.deserialize. intro H.
  apply bind_inv_ok in H as ([] & [i1 v1] & H1 & H).
  apply zoom_inv_ok in H1 as (p & H1 & ->).
  apply COutPoint_deserialize_inv in H1 as (Hl & Hn & Hr1 & Hv1).
  step_stream H s i2 v2 H2. apply read_bytes_vector_inv in H2 as (Hs & Hr2 & Hv2).
  step_update H.
  step_stream H q i3 v3 H3. apply read_uint32_inv in H3 as (Hq & Hr3 & Hv3).
  apply update_inv in H as [_ H]. inversion H; subst i v'.
  rewrite txin_bytes_outpoint. unfold txin_wf.
  cbn [CTxIn.prevout CTxIn.script_sig CTxIn.sequence CTxIn.set_prevout
       CTxIn.set_script_sig CTxIn.set_sequence].
  repeat split; auto; try lia.
  - rewrite Hr1, Hr2, Hr3. now rewrite <- !app_assoc.
  - rewrite Hv3, Hv2, Hv1, !advance_advance, !length_app, length_le_encode. f_equal; lia.
Qed.

Lemma CTxIn_deserialize_raise_kind (s s' : CTxIn.t * BCDataStream.t) (e : exn) :
  CTxIn.deserialize s = (Raise e, s') -> is_SerializationError e = true.
Proof.
  unfold CTxIn.deserialize. intro H.
  follow_raise H ltac:(fun H =>
    first [ apply zoom_raise in H as (? & H); solve [eauto with raises]
          | solve [eauto with raises] ]).
Qed.

#[local] Hint Resolve CTxIn_deserialize_raise_kind : raises.

(** ** Outputs *)

Lemma wrap_spk_wrapped `{Ext : Externals} (o : CTxOut.t) :
  txout_wf o ->
  wrap_spk (CTxOut.token_data o) (CTxOut.script_pub_key o) = Ok (wrapped_script o).
Proof.
  intros (_ & _ & Ht). unfold wrap_spk, wrapped_script.
  destruct (CTxOut.token_data o) as [td|]; [|reflexivity].
  now rewrite token_serialize_ok.
Qed.

Lemma unwrap_spk_wrapped `{Ext : Externals} (o : CTxOut.t) :
  txout_wf o ->
  unwrap_spk (wrapped_script o) = Ok (CTxOut.token_data o, CTxOut.script_pub_key o).
Proof.
  intros (_ & _ & Ht). unfold wrapped_script.
  destruct (CTxOut.token_data o) as [td|]; [|exact Ht].
  now apply unwrap_wrapped_token.
Qed.

Lemma CTxOut_serialize_writes `{Ext : Externals} (o : CTxOut.t) :
  txout_wf o -> writes (CTxOut.serialize o) (txout_bytes o).
Proof.
  intro Hwf. pose proof Hwf as (Hv & Hf & _).
  unfold CTxOut.serialize, txout_bytes.
  apply writes_bind; [now apply writes_write_int64|].
  rewrite wrap_spk_wrapped by assumption. now apply writes_write_string.
Qed.

Lemma CTxOut_deserialize_parses `{Ext : Externals} (o0 o : CTxOut.t) :
  txout_wf o -> parses CTxOut.deserialize o0 (txout_bytes o) tt o.
Proof.
  intro Hwf. pose proof Hwf as (Hv & Hf & _).
  pose proof (unwrap_spk_wrapped _ Hwf) as Hu.
  unfold CTxOut.deserialize, txout_bytes.
  eapply parses_step;
    [apply parses_on_stream; apply read_int64_reads; exact Hv | | reflexivity].
  eapply parses_step; [apply (parses_update (CTxOut.set_value (CTxOut.value o))) | |
                       reflexivity].
  eapply parses_step;
    [apply parses_on_stream; apply read_bytes_vector_reads; exact Hf | |
     symmetry; apply app_nil_r].
  rewrite Hu. destruct o as [val spk td].
  apply (parses_update (CTxOut.set_unwrapped (td, spk))).
Qed.

Lemma CTxOut_deserialize_inv `{Ext : Externals} (o0 o : CTxOut.t) (v v' : BCDataStream.t) :
  CTxOut.deserialize (o0, v) = (Ok tt, (o, v')) ->
  txout_wf o
  /\ BCDataStream.remaining v = txout_bytes o ++ BCDataStream.remaining v'
  /\ v' = BCDataStream.advance (List.length (txout_bytes o)) v.
Proof.
  unfold CTxOut.deserialize. intro H.
  step_stream H val o1 v1 H1. apply read_int64_inv in H1 as (Hval & Hr1 & Hv1).
  step_update H.
  step_stream H w o2 v2 H2. apply read_bytes_vector_inv in H2 as (Hfw & Hr2 & Hv2).
  destruct (unwrap_spk_inv w) as (otd & spk & Hu & Hshape).
  rewrite Hu in H. apply update_inv in H as [_ H]. inversion H; subst o v'.
  assert (wrapped_script (CTxOut.set_unwrapped (otd, spk) (CTxOut.set_value val o0)) = w)
    as Hw.
  { unfold wrapped_script. simpl. destruct otd as [td|]; [|exact Hshape].
    symmetry. apply Hshape. }
  unfold txout_wf, txout_bytes. rewrite Hw.
  cbn [CTxOut.value CTxOut.token_data CTxOut.script_pub_key CTxOut.set_unwrapped
       CTxOut.set_value fst snd].
  repeat split; auto; try lia.
  - destruct otd as [td|]; [apply Hshape|]. subst spk. exact Hu.
  - rewrite Hr1, Hr2. now rewrite <- app_assoc.
  - rewrite Hv2, Hv1, advance_advance, length_app, length_le_encode. reflexivity.
Qed.

Lemma unwrap_spk_total `{Ext : Externals} (w : bytes) : exists r, unwrap_spk w = Ok r.
Proof. destruct (unwrap_spk_inv w) as (otd & spk & Hu & _). eauto. Qed.

Lemma CTxOut_deserialize_raise_kind `{Ext : Externals} (s s' : CTxOut.t * BCDataStream.t) (e : exn) :
  CTxOut.deserialize s = (Raise e, s') -> is_SerializationError e = true.
Proof.
  unfold CTxOut.deserialize. intro H.
  follow_raise H ltac:(fun H =>
    first [ solve [eauto with raises]
          | match type of H with
            | context [unwrap_spk ?w] =>
                let r := fresh "r" in
                let Hu := fresh "Hu" in
                destruct (unwrap_spk_total w) as (r & Hu); rewrite Hu in H;
                apply update_raise in H; contradiction
            end ]).
Qed.

#[local] Hint Resolve CTxOut_deserialize_raise_kind : raises.

(** ** Lists of objects read in a counted loop *)

Section CountedLoop.

Context {Self T : Type}.
Variable getf : Self -> list T.
Variable setf : list T -> Self -> Self.
Variable obj0 : T.
Variable deser : M (T * BCDataStream.t) unit.
Variable enc : T -> bytes.
Variable wf : T -> Prop.

Hypothesis get_set : forall l s, getf (setf l s) = l.
Hypothesis set_set : forall l l' s, setf l (setf l' s) = setf l s.

Let body : M (Self * BCDataStream.t) unit :=
  x <- call_new obj0 deser ;;
  update (fun self => setf (getf self ++ [x]) self).

Lemma counted_loop_parses (xs : list T) (self : Self) :
  (forall x, In x xs -> parses deser obj0 (enc x) tt x) ->
  parses (repeat_n (List.length xs) body) self (List.concat (map enc xs)) tt
    (match xs with [] => self | _ => setf (getf self ++ xs) self end).
Proof.
  revert self. induction xs as [|x xs IH]; intros self Hx.
  - simpl. apply parses_ret.
  - cbn [List.length repeat_n map List.concat].
    eapply parses_step; [| |reflexivity].
    + unfold body.
      eapply parses_step;
        [eapply parses_call_new; apply Hx; now left
        | apply (parses_update (fun self => setf (getf self ++ [x]) self))
        | symmetry; apply app_nil_r].
    + cbv beta.
      replace (setf (getf self ++ x :: xs) self)
        with (match xs with
              | [] => setf (getf self ++ [x]) self
              | _ => setf (getf (setf (getf self ++ [x]) self) ++ xs)
                       (setf (getf self ++ [x]) self)
              end).
      * apply IH. intros y Hy. apply Hx. now right.
      * destruct xs as [|y ys]; [reflexivity|].
        rewrite get_set, set_set, <- app_assoc. reflexivity.
Qed.

Lemma counted_loop_inv (n : nat) (self self' : Self) (v v' : BCDataStream.t) :
  (forall x v1 v2,
      deser (obj0, v1) = (Ok tt, (x, v2)) ->
      wf x /\ BCDataStream.remaining v1 = enc x ++ BCDataStream.remaining v2
      /\ v2 = BCDataStream.advance (List.length (enc x)) v1) ->
  repeat_n n body (self, v) = (Ok tt, (self', v')) ->
  exists xs,
    List.length xs = n /\ Forall wf xs
    /\ self' = match xs with [] => self | _ => setf (getf self ++ xs) self end
    /\ BCDataStream.remaining v = List.concat (map enc xs) ++ BCDataStream.remaining v'
    /\ v' = BCDataStream.advance (List.length (List.concat (map enc xs))) v.
Proof.
  intro Hd. revert self v. induction n as [|n IH]; intros self v H.
  - simpl in H. unfold ret in H. inversion H; subst.
    exists []. simpl. rewrite advance_0. auto.
  - cbn [repeat_n] in H.
    apply bind_inv_ok in H as ([] & [s1 v1] & Hb & H).
    unfold body in Hb.
    apply bind_inv_ok in Hb as (x & [s2 v2] & Hc & Hb).
    apply call_new_inv_ok in Hc as [([] & Hc) ->].
    apply update_inv in Hb as [_ Hb]. inversion Hb; subst s1 v1; clear Hb.
    apply Hd in Hc as (Hwx & Hr1 & Hv1).
    apply IH in H as (xs & Hl & Hwf & Hs & Hr2 & Hv2).
    exists (x :: xs). cbn [List.length map List.concat]. repeat split; auto.
    + subst self'. destruct xs as [|y ys]; [reflexivity|].
      rewrite get_set, set_set, <- app_assoc. reflexivity.
    + rewrite Hr1, Hr2. now rewrite app_assoc.
    + rewrite Hv2, Hv1, advance_advance, length_app. reflexivity.
Qed.

Lemma counted_loop_raise_kind (n : nat) (s s' : Self * BCDataStream.t) (e : exn) :
  (forall s1 s2 e, deser s1 = (Raise e, s2) -> is_SerializationError e = true) ->
  repeat_n n body s = (Raise e, s') -> is_SerializationError e = true.
Proof.
  intro Hd. revert s. induction n as [|n IH]; intros s H.
  - discriminate.
  - cbn [repeat_n] in H.
    apply bind_inv_raise in H as [H | (u & s1 & _ & H)]; [|eauto].
    unfold body in H.
    apply bind_inv_raise in H as [H | (x & s1 & _ & H)].
    + apply call_new_raise in H as (s1 & H). eauto.
    + apply update_raise in H. contradiction.
Qed.

End CountedLoop.

(** ** Transactions *)

Lemma CMutableTransaction_serialize_writes `{Ext : Externals} (tx : CMutableTransaction.t) :
  tx_wf tx -> writes (CMutableTransaction.serialize tx) (tx_bytes tx).
Proof.
  intros (Hver & Hin & Hnin & Hout & Hnout & Hlock).
  unfold CMutableTransaction.serialize, tx_bytes.
  apply writes_bind; [now apply writes_write_int32|].
  apply writes_bind; [apply writes_compact_size; lia|].
  apply writes_bind.
  { apply writes_for_each. intros x Hx. apply CTxIn_serialize_writes.
    rewrite Forall_forall in Hin. auto. }
  apply writes_bind; [apply writes_compact_size; lia|].
  apply writes_bind.
  { apply writes_for_each. intros x Hx. apply CTxOut_serialize_writes.
    rewrite Forall_forall in Hout. auto. }
  now apply writes_write_uint32.
Qed.

Lemma CMutableTransaction_deserialize_parses `{Ext : Externals}
    (tx0 tx : CMutableTransaction.t) :
  tx_wf tx -> parses CMutableTransaction.deserialize tx0 (tx_bytes tx) tt tx.
Proof.
  intros (Hver & Hin & Hnin & Hout & Hnout & Hlock).
  destruct tx as [vin vout ver lock].
  unfold CMutableTransaction.deserialize, tx_bytes.
  cbn [CMutableTransaction.vin CMutableTransaction.vout CMutableTransaction.version
       CMutableTransaction.locktime] in *.
  eapply parses_step;
    [apply parses_on_stream; apply read_int32_reads; exact Hver | | reflexivity].
  eapply parses_step;
    [apply (parses_update (CMutableTransaction.set_version ver)) | | reflexivity].
  eapply parses_step;
    [apply parses_on_stream;
     apply (read_compact_size_reads (Z.of_nat (List.length vin))); lia | | reflexivity].
  eapply parses_step;
    [apply (parses_update (CMutableTransaction.set_vin [])) | | reflexivity].
  rewrite Nat2Z.id.
  eapply parses_step;
    [apply (counted_loop_parses CMutableTransaction.vin CMutableTransaction.set_vin
              CTxIn.default CTxIn.deserialize txin_bytes);
     [reflexivity | reflexivity |
      intros x Hx; apply CTxIn_deserialize_parses; rewrite Forall_forall in Hin; auto]
    | | reflexivity].
  eapply parses_step;
    [apply parses_on_stream;
     apply (read_compact_size_reads (Z.of_nat (List.length vout))); lia | | reflexivity].
  eapply parses_step;
    [apply (parses_update (CMutableTransaction.set_vout [])) | | reflexivity].
  rewrite Nat2Z.id.
  eapply parses_step;
    [apply (counted_loop_parses CMutableTransaction.vout CMutableTransaction.set_vout
              CTxOut.default CTxOut.deserialize txout_bytes);
     [reflexivity | reflexivity |
      intros x Hx; apply CTxOut_deserialize_parses; rewrite Forall_forall in Hout; auto]
    | | reflexivity].
  eapply parses_step;
    [apply parses_on_stream; apply read_uint32_reads; exact Hlock
    | | symmetry; apply app_nil_r].
  destruct vin, vout; apply (parses_update (CMutableTransaction.set_locktime lock)).
Qed.

Lemma CMutableTransaction_deserialize_inv `{Ext : Externals}
    (tx0 tx : CMutableTransaction.t) (v v' : BCDataStream.t) :
  CMutableTransaction.deserialize (tx0, v) = (Ok tt, (tx, v')) ->
  tx_wf tx
  /\ BCDataStream.remaining v = tx_bytes tx ++ BCDataStream.remaining v'
  /\ v' = BCDataStream.advance (List.length (tx_bytes tx)) v.
Proof.
  unfold CMutableTransaction.deserialize. intro H.
  step_stream H ver t1 v1 H1. apply read_int32_inv in H1 as (Hver & Hr1 & Hv1).
  step_update H.
  step_stream H nin t2 v2 H2. apply read_compact_size_inv in H2 as (Hnin & Hr2 & Hv2).
  step_update H.
  apply bind_inv_ok in H as ([] & [t3 v3] & H3 & H).
  apply (counted_loop_inv CMutableTransaction.vin CMutableTransaction.set_vin
           CTxIn.default CTxIn.deserialize txin_bytes txin_wf) in H3
    as (ins & Hlin & Hwin & Ht3 & Hr3 & Hv3);
    [|reflexivity | reflexivity |
     intros x w1 w2 Hd; exact (CTxIn_deserialize_inv _ _ _ _ Hd)].
  step_stream H nout t4 v4 H4. apply read_compact_size_inv in H4 as (Hnout & Hr4 & Hv4).
  step_update H.
  apply bind_inv_ok in H as ([] & [t5 v5] & H5 & H).
  apply (counted_loop_inv CMutableTransaction.vout CMutableTransaction.set_vout
           CTxOut.default CTxOut.deserialize txout_bytes txout_wf) in H5
    as (outs & Hlout & Hwout & Ht5 & Hr5 & Hv5);
    [|reflexivity | reflexivity |
     intros x w1 w2 Hd; exact (CTxOut_deserialize_inv _ _ _ _ Hd)].
  step_stream H lock t6 v6 H6. apply read_uint32_inv in H6 as (Hlock & Hr6 & Hv6).
  apply update_inv in H as [_ H]. inversion H; subst tx v'; clear H.
  assert (CMutableTransaction.set_locktime lock t5
          = CMutableTransaction.mk ins outs ver lock) as Etx.
  { subst t5 t3. destruct ins, outs; reflexivity. }
  rewrite Etx. unfold tx_wf, tx_bytes.
  cbn [CMutableTransaction.vin CMutableTransaction.vout CMutableTransaction.version
       CMutableTransaction.locktime].
  assert (Z.of_nat (List.length ins) = nin) as Ein by lia.
  assert (Z.of_nat (List.length outs) = nout) as Eout by lia.
  rewrite Ein, Eout.
  repeat split; auto; try lia.
  - rewrite Hr1, Hr2, Hr3, Hr4, Hr5, Hr6. now rewrite <- !app_assoc.
  - rewrite Hv6, Hv5, Hv4, Hv3, Hv2, Hv1, !advance_advance. f_equal.
    rewrite !length_app, !length_le_encode. lia.
Qed.

Lemma CMutableTransaction_deserialize_raise_kind `{Ext : Externals}
    (s s' : CMutableTransaction.t * BCDataStream.t) (e : exn) :
  CMutableTransaction.deserialize s = (Raise e, s') -> is_SerializationError e = true.
Proof.
  unfold CMutableTransaction.deserialize. intro H.
  follow_raise H ltac:(fun H =>
    first [ solve [eauto with raises]
          | apply (counted_loop_raise_kind CMutableTransaction.vin
                     CMutableTransaction.set_vin CTxIn.default CTxIn.deserialize) in H;
            [exact H | intros; eauto with raises]
          | apply (counted_loop_raise_kind CMutableTransaction.vout
                     CMutableTransaction.set_vout CTxOut.default CTxOut.deserialize) in H;
            [exact H | intros; eauto with raises] ]).
Qed.

#[local] Hint Resolve CMutableTransaction_deserialize_raise_kind : raises.

(** ** Dictionaries *)

Lemma dict_contains_false {V : Type} (k : bytes) (d : dict V) :
  dict_contains k d = false <-> ~ In k (map fst d).
Proof.
  unfold dict_contains. induction d as [|[k' v] d IH]; simpl.
  - tauto.
  - destruct (bytes_eqb k' k) eqn:E.
    + apply bytes_eqb_eq in E. split; [discriminate | intro Hn; exfalso; auto].
    + apply bytes_eqb_neq in E. rewrite IH. tauto.
Qed.

Lemma dict_contains_true {V : Type} (k : bytes) (d : dict V) :
  dict_contains k d = true <-> In k (map fst d).
Proof.
  destruct (dict_contains k d) eqn:E.
  - split; [|reflexivity]. intros _.
    destruct (in_dec (list_eq_dec Byte.byte_eq_dec) k (map fst d)) as [Hin | Hn]; auto.
    apply dict_contains_false in Hn. congruence.
  - apply dict_contains_false in E. split; [discriminate | contradiction].
Qed.

Lemma dict_set_absent {V : Type} (k : bytes) (v : V) (d : dict V) :
  dict_contains k d = false -> dict_set k v d = d ++ [(k, v)].
Proof.
  unfold dict_contains. induction d as [|[k' v'] d IH]; simpl; [reflexivity|].
  destruct (bytes_eqb k' k); [discriminate|]. intro H. now rewrite IH.
Qed.

Lemma NoDup_snoc {A : Type} (l : list A) (x : A) :
  NoDup l -> ~ In x l -> NoDup (l ++ [x]).
Proof.
  intros Hl Hx. induction Hl as [|y l Hy Hl IH]; simpl.
  - constructor; [intros []|constructor].
  - constructor.
    + rewrite in_app_iff. intros [Hin | [<- | []]]; [contradiction|].
      apply Hx. now left.
    + apply IH. intro Hin. apply Hx. now right.
Qed.

Lemma NoDup_snoc_inv {A : Type} (l : list A) (x : A) :
  NoDup (l ++ [x]) -> NoDup l /\ ~ In x l.
Proof.
  intro H. apply NoDup_remove in H. rewrite app_nil_r in H. exact H.
Qed.

(** ** The loop over a map *)

Lemma steps_app {Self : Type} (body : M (Self * BCDataStream.t) bool) (s0 s1 s2 : Self)
    (es1 es2 : list bytes) :
  steps body s0 es1 s1 -> steps body s1 es2 s2 -> steps body s0 (es1 ++ es2) s2.
Proof.
  induction 1; intro H2; simpl; [exact H2|]. econstructor; eauto.
Qed.

Lemma steps_one {Self : Type} (body : M (Self * BCDataStream.t) bool) (s0 s1 : Self)
    (e : bytes) :
  e <> [] -> parses body s0 e true s1 -> steps body s0 [e] s1.
Proof. intros He Hp. econstructor; eauto. constructor. Qed.

Lemma has_more_app (v : BCDataStream.t) (e rest : bytes) :
  e <> [] -> BCDataStream.remaining v = e ++ rest -> BCDataStream.has_more v = true.
Proof.
  intros He Hv. rewrite has_more_truthy, Hv. destruct e; [contradiction | reflexivity].
Qed.

Lemma while_steps {Self : Type} (body : M (Self * BCDataStream.t) bool) (s0 s1 s2 : Self)
    (es : list bytes) (term : bytes) (fuel : nat) :
  steps body s0 es s1 -> parses body s1 term false s2 -> term <> [] ->
  (List.length es < fuel)%nat ->
  parses (while_can_read_more fuel body) s0 (List.concat es ++ term) tt s2.
Proof.
  intros Hsteps Hterm Hne. revert fuel.
  induction Hsteps as [s | s s' s'' e es He Hp Hsteps IH]; intros fuel Hfuel v rest Hv.
  - simpl in Hv. destruct fuel as [|fuel]; [simpl in Hfuel; lia|].
    cbn [while_can_read_more]. unfold bind at 1. unfold on_stream at 1.
    unfold BCDataStream.can_read_more. cbn [fst snd].
    rewrite (has_more_app _ _ _ Hne Hv). cbn [negb].
    rewrite (bind_ok _ _ _ _ _ (Hterm _ _ Hv)). reflexivity.
  - cbn [List.concat] in Hv. rewrite <- !app_assoc in Hv.
    destruct fuel as [|fuel]; [simpl in Hfuel; lia|].
    cbn [while_can_read_more]. unfold bind at 1. unfold on_stream at 1.
    unfold BCDataStream.can_read_more. cbn [fst snd].
    rewrite (has_more_app _ _ _ He Hv). cbn [negb].
    rewrite (bind_ok _ _ _ _ _ (Hp _ _ Hv)).
    rewrite (IH Hterm fuel ltac:(simpl in Hfuel; lia) _ rest).
    + rewrite advance_advance. cbn [List.concat]. rewrite !length_app.
      f_equal. f_equal. f_equal. lia.
    + rewrite (remaining_consumed _ _ _ Hv). now rewrite <- app_assoc.
Qed.

Lemma steps_length {Self : Type} (body : M (Self * BCDataStream.t) bool) (s0 s1 : Self)
    (es : list bytes) :
  steps body s0 es s1 -> (List.length es <= List.length (List.concat es))%nat.
Proof.
  induction 1 as [|s s' s'' e es He _ _ IH]; simpl; [lia|].
  rewrite length_app. destruct e; [contradiction|]. simpl. lia.
Qed.

Lemma while_more_steps {Self : Type} (body : M (Self * BCDataStream.t) bool) (s0 s1 s2 : Self)
    (es : list bytes) (term : bytes) :
  steps body s0 es s1 -> parses body s1 term false s2 -> term <> [] ->
  parses (while_more body) s0 (List.concat es ++ term) tt s2.
Proof.
  intros Hsteps Hterm Hne v rest Hv. unfold while_more. cbn [snd].
  refine (while_steps body s0 s1 s2 es term _ Hsteps Hterm Hne _ v rest Hv).
  rewrite Hv, !length_app. pose proof (steps_length _ _ _ _ Hsteps).
  destruct term; [contradiction|]. simpl. lia.
Qed.

(** A loop that runs to the end of its stream. *)
Lemma while_steps_end {Self : Type} (body : M (Self * BCDataStream.t) bool) (s0 s1 : Self)
    (es : list bytes) (fuel : nat) (v : BCDataStream.t) :
  steps body s0 es s1 -> (List.length es <= fuel)%nat ->
  BCDataStream.remaining v = List.concat es ->
  while_can_read_more fuel body (s0, v)
  = (Ok tt, (s1, BCDataStream.advance (List.length (List.concat es)) v)).
Proof.
  intros Hsteps. revert fuel v.
  induction Hsteps as [s | s s' s'' e es He Hp Hsteps IH]; intros fuel v Hfuel Hv.
  - simpl in Hv. destruct fuel; cbn [while_can_read_more]; unfold bind at 1;
      unfold on_stream at 1; unfold BCDataStream.can_read_more; cbn [fst snd];
      rewrite has_more_truthy, Hv; cbn [truthy negb List.concat List.length];
      rewrite advance_0; reflexivity.
  - cbn [List.concat] in Hv.
    destruct fuel as [|fuel]; [simpl in Hfuel; lia|].
    cbn [while_can_read_more]. unfold bind at 1. unfold on_stream at 1.
    unfold BCDataStream.can_read_more. cbn [fst snd].
    rewrite (has_more_app _ _ _ He Hv). cbn [negb].
    rewrite (bind_ok _ _ _ _ _ (Hp _ _ Hv)).
    rewrite (IH fuel _ ltac:(simpl in Hfuel; lia) (remaining_consumed _ _ _ Hv)).
    rewrite advance_advance. cbn [List.concat]. rewrite length_app. reflexivity.
Qed.

(** ** BIP-32 derivation entries *)

Lemma chunks_decode (k : nat) (value : bytes) :
  List.length value = (4 * k)%nat ->
  exists path, List.length path = k
               /\ Forall (fun i => 0 <= i < 2 ^ 32) path
               /\ value = List.concat (map (le_encode 4) path).
Proof.
  revert value. induction k as [|k IH]; intros value Hl.
  - destruct value; [|discriminate]. exists []. repeat split; constructor.
  - destruct (IH (skipn 4 value)) as (path & Hlp & Hr & Hc).
    { rewrite length_skipn. lia. }
    assert (List.length (firstn 4 value) = 4%nat) as Hf by (rewrite length_firstn; lia).
    exists (le_decode (firstn 4 value) :: path). repeat split.
    + simpl. now rewrite Hlp.
    + constructor; [|exact Hr]. pose proof (le_decode_range (firstn 4 value)) as Hd.
      rewrite Hf in Hd. exact Hd.
    + cbn [map List.concat]. rewrite <- Hc. rewrite <- Hf at 1.
      rewrite le_encode_decode. symmetry. apply firstn_skipn.
Qed.

Lemma length_path_bytes (path : list Z) :
  List.length (List.concat (map (le_encode 4) path)) = (4 * List.length path)%nat.
Proof.
  induction path as [|i path IH]; [reflexivity|].
  cbn [map List.concat List.length]. rewrite length_app, length_le_encode, IH. lia.
Qed.

Lemma length_keypath_bytes (kp : KeyOriginInfo.t) :
  List.length (KeyOriginInfo.fingerprint kp) = 4%nat ->
  List.length (keypath_bytes kp) = ((List.length (KeyOriginInfo.path kp) + 1) * 4)%nat.
Proof.
  intro Hf. unfold keypath_bytes. rewrite length_app, length_path_bytes, Hf. lia.
Qed.

Lemma keypath_decode (value : bytes) :
  fits value ->
  Nat.leb (List.length value) 0 || negb (Nat.eqb (Nat.modulo (List.length value) 4) 0) = false ->
  exists kp, keypath_wf kp /\ value = keypath_bytes kp.
Proof.
  intros Hfit Hc. apply orb_false_iff in Hc as [Hpos Hmod].
  apply Nat.leb_gt in Hpos. apply negb_false_iff, Nat.eqb_eq in Hmod.
  pose proof (Nat.div_mod_eq (List.length value) 4) as Hdiv. rewrite Hmod in Hdiv.
  destruct (List.length value / 4)%nat as [|k] eqn:Hk; [lia|].
  destruct (chunks_decode k (skipn 4 value)) as (path & Hlp & Hr & Hcat).
  { rewrite length_skipn. lia. }
  exists (KeyOriginInfo.mk (firstn 4 value) path).
  assert (value = keypath_bytes (KeyOriginInfo.mk (firstn 4 value) path)) as E.
  { unfold keypath_bytes. cbn [KeyOriginInfo.fingerprint KeyOriginInfo.path].
    rewrite <- Hcat. symmetry. apply firstn_skipn. }
  split; [|exact E]. unfold keypath_wf. rewrite <- E.
  cbn [KeyOriginInfo.fingerprint KeyOriginInfo.path]. repeat split; auto.
  rewrite length_firstn. lia.
Qed.

Lemma keypath_loop (path : list Z) (kp0 : KeyOriginInfo.t) :
  Forall (fun i => 0 <= i < 2 ^ 32) path ->
  steps (index <- on_stream BCDataStream.read_uint32 ;;
         update (KeyOriginInfo.append_path index) ;;;
         ret true)
    kp0 (map (le_encode 4) path)
    (KeyOriginInfo.mk (KeyOriginInfo.fingerprint kp0) (KeyOriginInfo.path kp0 ++ path)).
Proof.
  intro Hr. revert kp0. induction Hr as [|i path Hi Hr IH]; intro kp0.
  - rewrite app_nil_r. destruct kp0. constructor.
  - cbn [map]. econstructor.
    + intro E. apply (f_equal (@List.length byte)) in E.
      rewrite length_le_encode in E. discriminate.
    + eapply parses_step;
        [apply parses_on_stream; apply read_uint32_reads; exact Hi | |
         symmetry; apply app_nil_r].
      eapply parses_step; [apply parses_update | apply parses_ret | reflexivity].
    + specialize (IH (KeyOriginInfo.append_path i kp0)).
      cbn [KeyOriginInfo.append_path KeyOriginInfo.fingerprint KeyOriginInfo.path] in IH.
      rewrite <- app_assoc in IH. exact IH.
Qed.

(** The value of a derivation entry, read the way [_deserialize_hd_keypath]
    reads it on a stream of its own. *)
Lemma keypath_run {St : Type} (kp : KeyOriginInfo.t) (s : St) :
  keypath_wf kp ->
  run_on (KeyOriginInfo.default, BCDataStream.new (keypath_bytes kp))
    (fp <- on_stream (BCDataStream.read_bytes (Some 4) true) ;;
     update (KeyOriginInfo.set_fingerprint fp) ;;;
     while_more
       (index <- on_stream BCDataStream.read_uint32 ;;
        update (KeyOriginInfo.append_path index) ;;;
        ret true)) s
  = (Ok (tt, (kp, BCDataStream.advance (List.length (keypath_bytes kp))
                    (BCDataStream.new (keypath_bytes kp)))), s).
Proof.
  intros (Hf & Hr & _). unfold run_on.
  set (v := BCDataStream.new (keypath_bytes kp)).
  assert (BCDataStream.remaining v
          = KeyOriginInfo.fingerprint kp
            ++ List.concat (map (le_encode 4) (KeyOriginInfo.path kp))) as Hv
    by apply remaining_new.
  pose proof (parses_on_stream _ KeyOriginInfo.default _ _
                (read_bytes_fixed_reads (KeyOriginInfo.fingerprint kp) true)) as Hp.
  rewrite Hf in Hp. change (Z.of_nat 4) with 4 in Hp.
  rewrite (bind_ok _ _ _ _ _ (Hp v _ Hv)).
  unfold bind at 1. unfold update at 1. cbn [fst snd].
  unfold while_more. cbn [snd].
  pose proof (keypath_loop (KeyOriginInfo.path kp)
                (KeyOriginInfo.set_fingerprint (KeyOriginInfo.fingerprint kp)
                   KeyOriginInfo.default) Hr) as Hsteps.
  rewrite (while_steps_end _ _ _ _ _ _ Hsteps).
  - rewrite advance_advance. unfold keypath_bytes. rewrite length_app, Hf.
    destruct kp as [fp path]. reflexivity.
  - rewrite (remaining_consumed _ _ _ Hv), length_map, length_path_bytes. lia.
  - apply (remaining_consumed _ _ _ Hv).
Qed.

Lemma parse_pubkey_ok `{Ext : Externals} {St : Type} (typ : Z) (pk : bytes) (s : St) :
  pubkey_ok pk -> _parse_pubkey (type_byte typ ++ pk) s = (Ok pk, s).
Proof.
  intros (Hl & Hp). unfold _parse_pubkey, _validate_pubkey.
  cbn [type_byte app List.length tl]. rewrite Hp.
  destruct Hl as [-> | ->]; reflexivity.
Qed.

Lemma parse_pubkey_inv `{Ext : Externals} {St : Type} (key pk : bytes) (s s' : St) :
  _parse_pubkey key s = (Ok pk, s') ->
  pubkey_ok pk /\ s' = s /\ exists b, key = b :: pk.
Proof.
  unfold _parse_pubkey, _validate_pubkey, pubkey_ok.
  destruct (Nat.eqb (List.length key) 66) eqn:E66;
    destruct (Nat.eqb (List.length key) 34) eqn:E34; cbn [negb andb];
    try (intro H; discriminate H);
    destruct (ser_to_point (tl key)) eqn:Ep;
    try (intro H; discriminate H);
    intro H; inversion H; subst;
    destruct key as [|b key]; try discriminate;
    cbn [tl List.length] in *;
    try apply Nat.eqb_eq in E66; try apply Nat.eqb_eq in E34;
    (repeat split; [lia | assumption | eauto]).
Qed.

Lemma parse_pubkey_raise_kind `{Ext : Externals} {St : Type} (key : bytes) (s s' : St) (e : exn) :
  _parse_pubkey key s = (Raise e, s') -> is_SerializationError e = true.
Proof.
  unfold _parse_pubkey, _validate_pubkey.
  destruct (negb (Nat.eqb (List.length key) 66) && negb (Nat.eqb (List.length key) 34));
    [intro H; inversion H; reflexivity|].
  destruct (ser_to_point (tl key)); intro H; inversion H; reflexivity.
Qed.

#[local] Hint Resolve parse_pubkey_raise_kind : raises.

Lemma hd_entry_value `{Ext : Externals} (pk : bytes) (kp : KeyOriginInfo.t)
    (d : dict KeyOriginInfo.t) (v : BCDataStream.t) :
  keypath_wf kp ->
  (let value := keypath_bytes kp in
   let value_len := List.length value in
   if Nat.leb value_len 0 || negb (Nat.eqb (Nat.modulo value_len 4) 0)
   then raise (mkPSBTSerializationError "Invalid length for HD key path")
   else
     r <- run_on (KeyOriginInfo.default, BCDataStream.new value)
            (fp <- on_stream (BCDataStream.read_bytes (Some 4) true) ;;
             update (KeyOriginInfo.set_fingerprint fp) ;;;
             while_more
               (index <- on_stream BCDataStream.read_uint32 ;;
                update (KeyOriginInfo.append_path index) ;;;
                ret true)) ;;
     let keypath := fst (snd r) in
     assert (Nat.eqb value_len ((List.length (KeyOriginInfo.path keypath) + 1) * 4)) ;;;
     update (dict_set pk keypath)) (d, v)
  = (Ok tt, (dict_set pk kp d, v)).
Proof.
  intro Hwf. pose proof Hwf as (Hf & _ & _). cbv zeta.
  rewrite (length_keypath_bytes kp Hf).
  replace (Nat.leb ((List.length (KeyOriginInfo.path kp) + 1) * 4) 0) with false
    by (symmetry; apply Nat.leb_gt; lia).
  rewrite Nat.Div0.mod_mul. cbn [Nat.eqb negb orb].
  rewrite (bind_ok _ _ _ _ _ (keypath_run kp (d, v) Hwf)). cbn [fst snd].
  rewrite Nat.eqb_refl. reflexivity.
Qed.

Lemma hd_entry_parses `{Ext : Externals} (typ : Z) (pk : bytes) (kp : KeyOriginInfo.t)
    (d : dict KeyOriginInfo.t) :
  pubkey_ok pk -> keypath_wf kp -> ~ In pk (map fst d) ->
  parses (_deserialize_hd_keypath (type_byte typ ++ pk)) d
    (byte_vector (keypath_bytes kp)) tt (d ++ [(pk, kp)]).
Proof.
  intros Hpk Hwf Hnew v rest Hv. unfold _deserialize_hd_keypath.
  rewrite (bind_ok _ _ _ _ _ (parse_pubkey_ok typ pk (d, v) Hpk)).
  unfold bind at 1. unfold this at 1. cbn [fst snd].
  apply dict_contains_false in Hnew. rewrite Hnew.
  pose proof Hwf as (_ & _ & Hfit).
  rewrite (bind_ok _ _ _ _ _
             (parses_on_stream _ d _ _ (read_bytes_vector_reads _ true Hfit) v rest Hv)).
  rewrite (hd_entry_value pk kp d _ Hwf). now rewrite dict_set_absent.
Qed.

Lemma hd_entry_inv `{Ext : Externals} (key : bytes) (d d' : dict KeyOriginInfo.t)
    (v v' : BCDataStream.t) :
  _deserialize_hd_keypath key (d, v) = (Ok tt, (d', v')) ->
  exists pk kp,
    (exists b, key = b :: pk)
    /\ pubkey_ok pk /\ ~ In pk (map fst d) /\ keypath_wf kp
    /\ d' = d ++ [(pk, kp)]
    /\ BCDataStream.remaining v = byte_vector (keypath_bytes kp) ++ BCDataStream.remaining v'.
Proof.
  unfold _deserialize_hd_keypath. intro H.
  step_ok H pk s1 H1. apply parse_pubkey_inv in H1 as (Hpk & -> & Hkey).
  step_this H d0.
  destruct (dict_contains pk d) eqn:Hc; [discriminate H|].
  step_stream H val d1 v1 H2. apply read_bytes_vector_inv in H2 as (Hfit & Hr & Hv1).
  match type of H with
  | (if ?c then _ else _) _ = _ => destruct c eqn:Hlen; [discriminate H|]
  end.
  destruct (keypath_decode val Hfit Hlen) as (kp & Hwf & ->).
  pose proof (hd_entry_value pk kp d v1 Hwf) as Hval. cbv zeta in Hval.
  rewrite Hlen in Hval. rewrite Hval in H. inversion H; subst.
  exists pk, kp.
  split; [exact Hkey|]. split; [exact Hpk|].
  split; [now apply dict_contains_false|]. split; [exact Hwf|].
  split; [now apply dict_set_absent | exact Hr].
Qed.

Lemma hd_entry_raise_kind `{Ext : Externals} (key : bytes)
    (s s' : dict KeyOriginInfo.t * BCDataStream.t) (e : exn) :
  _deserialize_hd_keypath key s = (Raise e, s') -> is_SerializationError e = true.
Proof.
  unfold _deserialize_hd_keypath. intro H.
  apply bind_inv_raise in H as [H | (pk & s1 & _ & H)]; [eauto with raises|].
  apply bind_inv_raise in H as [H | (d0 & s2 & _ & H)]; [now apply this_raise in H|].
  destruct (dict_contains pk d0); [apply raise_raise in H; now subst|].
  apply bind_inv_raise in H as [H | (val & [d1 v1] & H2 & H)].
  - apply on_stream_raise in H as (? & H). eauto with raises.
  - destruct s2 as [d2 v2]. apply on_stream_inv_ok in H2 as [H2 _].
    apply read_bytes_vector_inv in H2 as (Hfit & _ & _).
    match type of H with
    | (if ?c then _ else _) _ = _ =>
        destruct c eqn:Hlen; [apply raise_raise in H; now subst|]
    end.
    destruct (keypath_decode val Hfit Hlen) as (kp & Hwf & ->).
    pose proof (hd_entry_value pk kp d1 v1 Hwf) as Hval. cbv zeta in Hval.
    rewrite Hlen in Hval. rewrite Hval in H. discriminate H.
Qed.

#[local] Hint Resolve hd_entry_raise_kind : raises.

Lemma fits_pubkey_key `{Ext : Externals} (typ : Z) (pk : bytes) :
  pubkey_ok pk -> fits (type_byte typ ++ pk).
Proof.
  intros ([Hl | Hl] & _); unfold fits, type_byte; cbn [app List.length]; rewrite Hl;
    vm_compute; reflexivity.
Qed.

Lemma hd_keypaths_serialize_writes `{Ext : Externals} (d : dict KeyOriginInfo.t) (typ : Z) :
  hd_keypaths_wf d ->
  writes (_serialize_hd_keypaths d typ) (List.concat (map (hd_entry typ) d)).
Proof.
  intros (_ & Hall). unfold _serialize_hd_keypaths.
  apply writes_for_each. intros [pk kp] Hin.
  rewrite Forall_forall in Hall. destruct (Hall _ Hin) as (Hpk & Hwf).
  cbn [fst snd] in *. pose proof Hwf as (Hf & Hr & Hfit).
  unfold hd_entry, map_entry, _validate_pubkey. cbn [fst snd].
  destruct Hpk as (Hl & Hp). rewrite Hp.
  apply (writes_bind _ _ []); [apply writes_ret|].
  apply writes_bind; [apply writes_write_string; now apply fits_pubkey_key|].
  intro v.
  assert (writes
            ((if negb (Nat.eqb (List.length (KeyOriginInfo.fingerprint kp)) 4)
              then raise (mkPSBTSerializationError "Expected fingerprint length of 4")
              else ret tt) ;;;
             BCDataStream.write (KeyOriginInfo.fingerprint kp) ;;;
             for_each (KeyOriginInfo.path kp) BCDataStream.write_uint32)
            (keypath_bytes kp)) as Hw.
  { rewrite Hf. cbn [Nat.eqb negb].
    apply (writes_bind _ _ []); [apply writes_ret|].
    unfold keypath_bytes. apply writes_bind; [apply writes_write|].
    apply writes_for_each. intros i Hi. apply writes_write_uint32.
    rewrite Forall_forall in Hr. now apply Hr. }
  rewrite (bind_ok _ _ _ _ _ (writes_written_by _ _ v Hw)).
  now apply writes_write_string.
Qed.

Lemma unknown_serialize_writes (d : dict bytes) :
  Forall (fun kv => fits (fst kv) /\ fits (snd kv)) d ->
  writes (_serialize_unknown d) (List.concat (map unknown_entry d)).
Proof.
  intro Hall. unfold _serialize_unknown. apply writes_for_each. intros kv Hin.
  rewrite Forall_forall in Hall. destruct (Hall _ Hin) as (Hk & Hv).
  unfold unknown_entry, map_entry.
  apply writes_bind; now apply writes_write_string.
Qed.

Lemma unknown_wf_fits (known : list Z) (d : dict bytes) :
  unknown_wf known d -> Forall (fun kv => fits (fst kv) /\ fits (snd kv)) d.
Proof.
  intros (_ & Hall). eapply Forall_impl; [|exact Hall]. cbv beta. tauto.
Qed.

Lemma unknown_entry_parses (key val : bytes) (d : dict bytes) :
  fits val -> ~ In key (map fst d) ->
  parses (_deserialize_unknown key) d (byte_vector val) tt (d ++ [(key, val)]).
Proof.
  intros Hfit Hnew v rest Hv. unfold _deserialize_unknown.
  unfold bind at 1. unfold this at 1. cbn [fst snd].
  apply dict_contains_false in Hnew. rewrite Hnew.
  rewrite (bind_ok _ _ _ _ _
             (parses_on_stream _ d _ _ (read_bytes_vector_reads _ true Hfit) v rest Hv)).
  unfold update. cbn [fst snd]. now rewrite dict_set_absent.
Qed.

Lemma unknown_entry_inv (key : bytes) (d d' : dict bytes) (v v' : BCDataStream.t) :
  _deserialize_unknown key (d, v) = (Ok tt, (d', v')) ->
  exists val,
    fits val /\ ~ In key (map fst d) /\ d' = d ++ [(key, val)]
    /\ BCDataStream.remaining v = byte_vector val ++ BCDataStream.remaining v'.
Proof.
  unfold _deserialize_unknown. intro H.
  step_this H d0.
  destruct (dict_contains key d) eqn:Hc; [discriminate H|].
  step_stream H val d1 v1 H2. apply read_bytes_vector_inv in H2 as (Hfit & Hr & Hv1).
  apply update_inv in H as [_ H]. inversion H; subst.
  exists val. split; [exact Hfit|]. split; [now apply dict_contains_false|].
  split; [now apply dict_set_absent | exact Hr].
Qed.

Lemma unknown_entry_raise_kind (key : bytes) (s s' : dict bytes * BCDataStream.t) (e : exn) :
  _deserialize_unknown key s = (Raise e, s') -> is_SerializationError e = true.
Proof. unfold _deserialize_unknown. intro H. solve_raise H. Qed.

#[local] Hint Resolve unknown_entry_raise_kind : raises.

(** ** Entries of an input map, read *)

Lemma this_ok {Self V : Type} (self : Self) (v : V) : this (self, v) = (Ok self, (self, v)).
Proof. reflexivity. Qed.

Lemma fits_type_byte (typ : Z) : fits (type_byte typ).
Proof. vm_compute. reflexivity. Qed.

Lemma has_more_consumed (data : bytes) :
  BCDataStream.has_more (BCDataStream.advance (List.length data) (BCDataStream.new data)) = false.
Proof.
  rewrite has_more_truthy, (remaining_consumed _ data []); [reflexivity|].
  now rewrite remaining_new, app_nil_r.
Qed.

Lemma deserialize_into_whole {Self T : Type} (setf : T -> Self -> Self) (obj obj' : T)
    (data : bytes) (m : M (T * BCDataStream.t) unit) (s : Self) (v : BCDataStream.t) :
  parses m obj data tt obj' ->
  deserialize_into setf obj data m (s, v)
  = (Ok (BCDataStream.advance (List.length data) (BCDataStream.new data)), (setf obj' s, v)).
Proof.
  intro Hp. unfold deserialize_into.
  rewrite (Hp (BCDataStream.new data) []); [reflexivity|].
  now rewrite remaining_new, app_nil_r.
Qed.

(** The first steps of a turn of the loop: the key is read, the receiver
    looked at. *)
Ltac enter_entry s v Hv Hkey :=
  unfold type_byte in Hv; cbn [app] in Hv;
  rewrite (bind_ok _ _ _ _ _
             (parses_on_stream _ s _ _ (read_bytes_vector_reads _ true Hkey) v _ Hv));
  unfold type_byte; cbn [app]; cbv beta iota;
  rewrite (bind_ok _ _ _ _ _ (this_ok _ _)).

(** The value is read next. *)
Ltac read_value s v Hv Hval :=
  rewrite (bind_ok _ _ _ _ _
             (parses_on_stream _ s _ _ (read_bytes_vector_reads _ true Hval) _ _
                (remaining_consumed v _ _ Hv))).

Ltac entry_done :=
  rewrite ?advance_advance, ?length_app; reflexivity.

Lemma input_separator_parses `{Ext : Externals} (s : PSBTInput.t) :
  parses PSBTInput.deserialize_entry s [x00] false s.
Proof.
  intros v rest Hv. change [x00] with (byte_vector []) in Hv.
  unfold PSBTInput.deserialize_entry.
  rewrite (bind_ok _ _ _ _ _
             (parses_on_stream _ s _ _
                (read_bytes_vector_reads [] true ltac:(vm_compute; reflexivity)) v _ Hv)).
  reflexivity.
Qed.

Lemma input_utxo_parses `{Ext : Externals} (s : PSBTInput.t) (o : CTxOut.t) :
  PSBTInput.utxo s = None -> txout_wf o -> fits (txout_bytes o) ->
  parses PSBTInput.deserialize_entry s
    (map_entry (type_byte PSBT_IN_UTXO) (txout_bytes o)) true
    (PSBTInput.set_utxo (Some o) s).
Proof.
  intros Hs Hwf Hfit v rest Hv. unfold map_entry in *. rewrite <- app_assoc in Hv.
  unfold PSBTInput.deserialize_entry.
  enter_entry s v Hv (fits_type_byte PSBT_IN_UTXO).
  simpl (Z_of_byte _ =? _). cbv beta iota. rewrite Hs.
  cbn [List.length Nat.eqb negb].
  unfold bind at 1. read_value s v Hv Hfit.
  rewrite (bind_ok _ _ _ _ _
             (deserialize_into_whole _ _ _ _ _ _ _
                (CTxOut_deserialize_parses CTxOut.default o Hwf))).
  rewrite has_more_consumed. unfold ret. entry_done.
Qed.

Lemma input_partial_sig_parses `{Ext : Externals} (s : PSBTInput.t) (pk sig : bytes) :
  pubkey_ok pk -> fits sig -> ~ In (hash_160 pk) (map fst (PSBTInput.partial_sigs s)) ->
  parses PSBTInput.deserialize_entry s
    (map_entry (type_byte PSBT_IN_PARTIAL_SIG ++ pk) sig) true
    (PSBTInput.set_partial_sigs
       (PSBTInput.partial_sigs s ++ [(hash_160 pk, (pk, sig))]) s).
Proof.
  intros Hpk Hfit Hnew v rest Hv. unfold map_entry in *. rewrite <- app_assoc in Hv.
  unfold PSBTInput.deserialize_entry.
  enter_entry s v Hv (fits_pubkey_key PSBT_IN_PARTIAL_SIG pk Hpk).
  simpl (Z_of_byte _ =? _). cbv beta iota.
  unfold bind at 1.
  pose proof (parse_pubkey_ok PSBT_IN_PARTIAL_SIG pk
                (s, BCDataStream.advance
                      (List.length (byte_vector (type_byte PSBT_IN_PARTIAL_SIG ++ pk))) v) Hpk)
    as Hp.
  unfold type_byte in Hp. cbn [app] in Hp. rewrite (bind_ok _ _ _ _ _ Hp).
  apply dict_contains_false in Hnew. rewrite Hnew.
  read_value s v Hv Hfit.
  unfold update, ret. cbn [fst snd]. rewrite dict_set_absent by exact Hnew.
  entry_done.
Qed.

Lemma input_sighash_parses `{Ext : Externals} (s : PSBTInput.t) (z : Z) :
  PSBTInput.sighash_type s = 0 -> 0 <= z < 2 ^ 32 ->
  parses PSBTInput.deserialize_entry s
    (map_entry (type_byte PSBT_IN_SIGHASH) (le_encode 4 z)) true
    (PSBTInput.set_sighash_type z s).
Proof.
  intros Hs Hz v rest Hv. unfold map_entry in *. rewrite <- app_assoc in Hv.
  assert (fits (le_encode 4 z)) as Hfit
    by (unfold fits; rewrite length_le_encode; vm_compute; reflexivity).
  unfold PSBTInput.deserialize_entry.
  enter_entry s v Hv (fits_type_byte PSBT_IN_SIGHASH).
  simpl (Z_of_byte _ =? _). cbv beta iota. rewrite Hs.
  cbn [Z.eqb List.length Nat.eqb negb].
  unfold bind at 1. read_value s v Hv Hfit.
  unfold run_on at 1. unfold bind at 1.
  rewrite (read_uint32_reads z Hz (BCDataStream.new (le_encode 4 z)) [])
    by now rewrite remaining_new, app_nil_r.
  cbn [fst snd]. unfold bind at 1. unfold update at 1. cbn [fst snd].
  rewrite has_more_consumed. unfold ret. entry_done.
Qed.

Lemma input_redeem_parses `{Ext : Externals} (s : PSBTInput.t) (x : bytes) :
  PSBTInput.redeem_script s = [] -> fits x ->
  parses PSBTInput.deserialize_entry s
    (map_entry (type_byte PSBT_IN_REDEEMSCRIPT) x) true (PSBTInput.set_redeem_script x s).
Proof.
  intros Hs Hfit v rest Hv. unfold map_entry in *. rewrite <- app_assoc in Hv.
  unfold PSBTInput.deserialize_entry.
  enter_entry s v Hv (fits_type_byte PSBT_IN_REDEEMSCRIPT).
  simpl (Z_of_byte _ =? _). cbv beta iota. rewrite Hs.
  cbn [truthy List.length Nat.eqb negb].
  unfold bind at 1. read_value s v Hv Hfit.
  unfold update, ret. cbn [fst snd]. entry_done.
Qed.

Lemma input_final_parses `{Ext : Externals} (s : PSBTInput.t) (x : bytes) :
  PSBTInput.final_script_sig s = [] -> fits x ->
  parses PSBTInput.deserialize_entry s
    (map_entry (type_byte PSBT_IN_SCRIPTSIG) x) true (PSBTInput.set_final_script_sig x s).
Proof.
  intros Hs Hfit v rest Hv. unfold map_entry in *. rewrite <- app_assoc in Hv.
  unfold PSBTInput.deserialize_entry.
  enter_entry s v Hv (fits_type_byte PSBT_IN_SCRIPTSIG).
  simpl (Z_of_byte _ =? _). cbv beta iota. rewrite Hs.
  cbn [truthy List.length Nat.eqb negb].
  unfold bind at 1. read_value s v Hv Hfit.
  unfold update, ret. cbn [fst snd]. entry_done.
Qed.

Lemma input_hd_parses `{Ext : Externals} (s : PSBTInput.t) (pk : bytes)
    (kp : KeyOriginInfo.t) :
  pubkey_ok pk -> keypath_wf kp -> ~ In pk (map fst (PSBTInput.hd_keypaths s)) ->
  parses PSBTInput.deserialize_entry s
    (hd_entry PSBT_IN_BIP32_DERIVATION (pk, kp)) true
    (PSBTInput.set_hd_keypaths (PSBTInput.hd_keypaths s ++ [(pk, kp)]) s).
Proof.
  intros Hpk Hwf Hnew v rest Hv. unfold hd_entry, map_entry in *. cbn [fst snd] in *.
  rewrite <- app_assoc in Hv.
  pose proof (parses_zoom PSBTInput.hd_keypaths PSBTInput.set_hd_keypaths _ s _ _ _
                (hd_entry_parses PSBT_IN_BIP32_DERIVATION pk kp _ Hpk Hwf Hnew)) as Hz.
  unfold PSBTInput.deserialize_entry.
  enter_entry s v Hv (fits_pubkey_key PSBT_IN_BIP32_DERIVATION pk Hpk).
  simpl (Z_of_byte _ =? _). cbv beta iota.
  unfold type_byte in Hz. cbn [app] in Hz.
  rewrite (bind_ok _ _ _ _ _ (Hz _ _ (remaining_consumed v _ _ Hv))).
  unfold ret. entry_done.
Qed.

Lemma known_tests (known : list Z) (z : Z) :
  ~ In z known -> forall c, In c known -> (z =? c) = false.
Proof. intros Hn c Hc. apply Z.eqb_neq. intros ->. contradiction. Qed.

Lemma input_unknown_parses `{Ext : Externals} (s : PSBTInput.t) (b : byte) (ktl val : bytes) :
  ~ In (Z_of_byte b) IN_KNOWN -> fits (b :: ktl) -> fits val ->
  ~ In (b :: ktl) (map fst (PSBTInput.unknown s)) ->
  parses PSBTInput.deserialize_entry s
    (map_entry (b :: ktl) val) true
    (PSBTInput.set_unknown (PSBTInput.unknown s ++ [(b :: ktl, val)]) s).
Proof.
  intros Hk Hfk Hfit Hnew v rest Hv. unfold map_entry in *. rewrite <- app_assoc in Hv.
  pose proof (parses_zoom PSBTInput.unknown PSBTInput.set_unknown _ s _ _ _
                (unknown_entry_parses (b :: ktl) val _ Hfit Hnew)) as Hz.
  pose proof (known_tests _ _ Hk) as Ht.
  unfold PSBTInput.deserialize_entry.
  enter_entry s v Hv Hfk.
  rewrite !Ht by (unfold IN_KNOWN; simpl; tauto).
  rewrite (bind_ok _ _ _ _ _ (Hz _ _ (remaining_consumed v _ _ Hv))).
  unfold ret. entry_done.
Qed.

(** ** Entries of an input map, inverted *)

Lemma deserialize_into_inv_ok {Self T V : Type} (setf : T -> Self -> Self) (obj : T)
    (data : bytes) (m : M (T * BCDataStream.t) unit) (s : Self) (v : V)
    (vds2 : BCDataStream.t) (s' : Self * V) :
  deserialize_into setf obj data m (s, v) = (Ok vds2, s') ->
  exists obj', m (obj, BCDataStream.new data) = (Ok tt, (obj', vds2)) /\ s' = (setf obj' s, v).
Proof.
  unfold deserialize_into. destruct (m (obj, BCDataStream.new data)) as [[[]|e] [obj' w]];
    intro H; inversion H; subst; eauto.
Qed.

Lemma deserialize_into_raise {Self T V : Type} (setf : T -> Self -> Self) (obj : T)
    (data : bytes) (m : M (T * BCDataStream.t) unit) (s s' : Self * V) (e : exn) :
  deserialize_into setf obj data m s = (Raise e, s') ->
  exists s1, m (obj, BCDataStream.new data) = (Raise e, s1).
Proof.
  unfold deserialize_into. destruct (m (obj, BCDataStream.new data)) as [[[]|e'] [obj' w]];
    intro H; inversion H; subst; eauto.
Qed.

Lemma whole_consumed (data out : bytes) (vds2 : BCDataStream.t) :
  BCDataStream.remaining (BCDataStream.new data) = out ++ BCDataStream.remaining vds2 ->
  BCDataStream.has_more vds2 = false -> data = out.
Proof.
  rewrite has_more_truthy, truthy_false, remaining_new. intros -> ->. apply app_nil_r.
Qed.

Lemma compact_size_nonempty (n : Z) : compact_size n <> [].
Proof.
  intro E. apply (f_equal (@List.length byte)) in E. rewrite length_compact_size in E.
  destruct (n <? 253); [discriminate|]. destruct (n <? 2 ^ 16); [discriminate|].
  destruct (n <? 2 ^ 32); discriminate.
Qed.

Lemma byte_vector_nonempty (data : bytes) : byte_vector data <> [].
Proof.
  unfold byte_vector. intro E. apply app_eq_nil in E as [E _].
  now apply compact_size_nonempty in E.
Qed.

Lemma map_entry_nonempty (key val : bytes) : map_entry key val <> [].
Proof.
  unfold map_entry. intro E. apply app_eq_nil in E as [E _].
  now apply byte_vector_nonempty in E.
Qed.

Lemma partial_sigs_wf_snoc `{Ext : Externals} (d : dict (bytes * bytes)) (pk sig : bytes) :
  partial_sigs_wf d -> pubkey_ok pk -> fits sig -> ~ In (hash_160 pk) (map fst d) ->
  partial_sigs_wf (d ++ [(hash_160 pk, (pk, sig))]).
Proof.
  intros (Hnd & Hall) Hpk Hfit Hnew. split.
  - rewrite map_app. now apply NoDup_snoc.
  - apply Forall_app. split; [exact Hall|]. constructor; [|constructor].
    cbn [fst snd]. auto.
Qed.

Lemma hd_keypaths_wf_snoc `{Ext : Externals} (d : dict KeyOriginInfo.t) (pk : bytes)
    (kp : KeyOriginInfo.t) :
  hd_keypaths_wf d -> pubkey_ok pk -> keypath_wf kp -> ~ In pk (map fst d) ->
  hd_keypaths_wf (d ++ [(pk, kp)]).
Proof.
  intros (Hnd & Hall) Hpk Hwf Hnew. split.
  - rewrite map_app. now apply NoDup_snoc.
  - apply Forall_app. split; [exact Hall|]. constructor; [|constructor].
    cbn [fst snd]. auto.
Qed.

Lemma unknown_wf_snoc (known : list Z) (d : dict bytes) (b : byte) (ktl val : bytes) :
  unknown_wf known d -> ~ In (Z_of_byte b) known -> fits (b :: ktl) -> fits val ->
  ~ In (b :: ktl) (map fst d) ->
  unknown_wf known (d ++ [(b :: ktl, val)]).
Proof.
  intros (Hnd & Hall) Hk Hfk Hfv Hnew. split.
  - rewrite map_app. now apply NoDup_snoc.
  - apply Forall_app. split; [exact Hall|]. constructor; [|constructor].
    cbn [fst snd]. auto.
Qed.

Lemma not_in_known (known : list Z) (z : Z) :
  forallb (fun c => negb (z =? c)) known = true -> ~ In z known.
Proof.
  rewrite forallb_forall. intros H Hin. specialize (H z Hin).
  now rewrite Z.eqb_refl in H.
Qed.

(** The attributes of a receiver after an assignment. *)
Ltac input_fields :=
  unfold PSBTInput.set_redeem_script, PSBTInput.set_hd_keypaths, PSBTInput.set_unknown,
    PSBTInput.redeem_script, PSBTInput.hd_keypaths, PSBTInput.unknown in *;
  cbn [PSBTInput.base PSBTInput.utxo PSBTInput.final_script_sig PSBTInput.partial_sigs
       PSBTInput.sighash_type PSBTInput.set_base PSBTInput.set_utxo
       PSBTInput.set_final_script_sig PSBTInput.set_partial_sigs PSBTInput.set_sighash_type
       PSBTInputOutputBase.redeem_script PSBTInputOutputBase.hd_keypaths
       PSBTInputOutputBase.unknown PSBTInputOutputBase.set_redeem_script
       PSBTInputOutputBase.set_hd_keypaths PSBTInputOutputBase.set_unknown] in *.

Lemma raise_ok {St A : Type} (e : exn) (s s' : St) (a : A) :
  raise e s = (Ok a, s') -> False.
Proof. unfold raise. discriminate. Qed.

Lemma ret_inv {St A : Type} (a a' : A) (s s' : St) :
  ret a s = (Ok a', s') -> a' = a /\ s' = s.
Proof. unfold ret. intro H. inversion H; auto. Qed.

Lemma input_entry_inv `{Ext : Externals} (s s' : PSBTInput.t) (v v' : BCDataStream.t)
    (b : bool) :
  PSBTInput.deserialize_entry (s, v) = (Ok b, (s', v')) ->
  (b = false /\ s' = s /\ BCDataStream.remaining v = x00 :: BCDataStream.remaining v')
  \/ (b = true
      /\ exists key val,
           key <> [] /\ fits key /\ fits val
           /\ BCDataStream.remaining v = map_entry key val ++ BCDataStream.remaining v'
           /\ (input_wf s -> input_wf s')).
Proof.
  unfold PSBTInput.deserialize_entry. intro H.
  step_stream H key s1 v1 H1. apply read_bytes_vector_inv in H1 as (Hfk & Hr1 & Hv1).
  destruct key as [|key0 ktl].
  { apply ret_inv in H as [-> H]. inversion H; subst. left. auto. }
  right.
  step_this H self.
  step_ok H u s2 Hbr. apply ret_inv in H as [-> E]. subst s2. destruct u. split; [reflexivity|].
  exists (key0 :: ktl).
  assert (forall val,
            fits val ->
            BCDataStream.remaining v1 = byte_vector val ++ BCDataStream.remaining v' ->
            (input_wf s -> input_wf s') ->
            exists val0,
              key0 :: ktl <> [] /\ fits (key0 :: ktl) /\ fits val0
              /\ BCDataStream.remaining v
                 = map_entry (key0 :: ktl) val0 ++ BCDataStream.remaining v'
              /\ (input_wf s -> input_wf s')) as Hdone.
  { intros val Hfv Hr2 Hwf. exists val. split; [discriminate|]. split; [exact Hfk|].
    split; [exact Hfv|]. split; [|exact Hwf].
    unfold map_entry. rewrite <- app_assoc, <- Hr2. exact Hr1. }
  clear Hr1 Hv1.
  destruct (Z_of_byte key0 =? PSBT_IN_UTXO) eqn:T0.
  { destruct (PSBTInput.utxo s) eqn:Hu; [now apply raise_ok in Hbr|].
    destruct (negb (Nat.eqb (List.length (key0 :: ktl)) 1)); [now apply raise_ok in Hbr|].
    step_stream Hbr data s3 v3 H2. apply read_bytes_vector_inv in H2 as (Hfd & Hr2 & Hv2).
    step_ok Hbr vds2 s4 H3.
    apply deserialize_into_inv_ok in H3 as (o & H3 & ->).
    destruct (BCDataStream.has_more vds2) eqn:Hm; [now apply raise_ok in Hbr|].
    apply ret_inv in Hbr as [_ Hbr]. inversion Hbr; subst s' v'.
    apply CTxOut_deserialize_inv in H3 as (Hwo & Hr3 & _).
    pose proof (whole_consumed _ _ _ Hr3 Hm) as ->.
    apply (Hdone _ Hfd Hr2).
    intros (_ & Hrest). split; [|exact Hrest]. input_fields. auto. }
  destruct (Z_of_byte key0 =? PSBT_IN_PARTIAL_SIG) eqn:T2.
  { step_ok Hbr pk s3 H2. apply parse_pubkey_inv in H2 as (Hpk & -> & _).
    destruct (dict_contains (hash_160 pk) (PSBTInput.partial_sigs s)) eqn:Hc;
      [now apply raise_ok in Hbr|].
    step_stream Hbr sg s4 v4 H3. apply read_bytes_vector_inv in H3 as (Hfs & Hr2 & Hv2).
    apply update_inv in Hbr as [_ Hbr]. inversion Hbr; subst s' v'.
    apply (Hdone _ Hfs Hr2).
    apply dict_contains_false in Hc.
    intros (H1 & H2 & Hrest). split; [exact H1|]. split; [|exact Hrest]. input_fields.
    rewrite dict_set_absent by now apply dict_contains_false.
    now apply partial_sigs_wf_snoc. }
  destruct (Z_of_byte key0 =? PSBT_IN_SIGHASH) eqn:T3.
  { destruct (negb (PSBTInput.sighash_type s =? 0)); [now apply raise_ok in Hbr|].
    destruct (negb (Nat.eqb (List.length (key0 :: ktl)) 1)); [now apply raise_ok in Hbr|].
    step_stream Hbr data s3 v3 H2. apply read_bytes_vector_inv in H2 as (Hfd & Hr2 & Hv2).
    step_ok Hbr r s4 H3. destruct r as [z w].
    apply run_on_inv_ok in H3 as [H3 ->].
    apply read_uint32_inv in H3 as (Hz & _ & _).
    step_update Hbr. cbn [fst snd] in Hbr.
    destruct (BCDataStream.has_more w); [now apply raise_ok in Hbr|].
    apply ret_inv in Hbr as [_ Hbr]. inversion Hbr; subst s' v'.
    apply (Hdone _ Hfd Hr2).
    intros (H1 & H2 & _ & Hrest). split; [exact H1|]. split; [exact H2|].
    split; [|exact Hrest]. input_fields. exact Hz. }
  destruct (Z_of_byte key0 =? PSBT_IN_REDEEMSCRIPT) eqn:T4.
  { destruct (truthy (PSBTInput.redeem_script s)); [now apply raise_ok in Hbr|].
    destruct (negb (Nat.eqb (List.length (key0 :: ktl)) 1)); [now apply raise_ok in Hbr|].
    step_stream Hbr x s3 v3 H2. apply read_bytes_vector_inv in H2 as (Hfd & Hr2 & Hv2).
    apply update_inv in Hbr as [_ Hbr]. inversion Hbr; subst s' v'.
    apply (Hdone _ Hfd Hr2).
    intros (H1 & H2 & H3 & _ & Hrest). split; [exact H1|]. split; [exact H2|].
    split; [exact H3|]. split; [|exact Hrest]. input_fields. exact Hfd. }
  destruct (Z_of_byte key0 =? PSBT_IN_BIP32_DERIVATION) eqn:T6.
  { apply zoom_inv_ok in Hbr as (d' & Hbr & ->).
    apply hd_entry_inv in Hbr as (pk & kp & _ & Hpk & Hnew & Hkp & -> & Hr2).
    pose proof Hkp as (_ & _ & Hfv).
    apply (Hdone _ Hfv Hr2).
    intros (H1 & H2 & H3 & H4 & H5 & Hrest). split; [exact H1|]. split; [exact H2|].
    split; [exact H3|]. split; [exact H4|]. split; [|exact Hrest]. input_fields.
    now apply hd_keypaths_wf_snoc. }
  destruct (Z_of_byte key0 =? PSBT_IN_SCRIPTSIG) eqn:T7.
  { destruct (truthy (PSBTInput.final_script_sig s)); [now apply raise_ok in Hbr|].
    destruct (negb (Nat.eqb (List.length (key0 :: ktl)) 1)); [now apply raise_ok in Hbr|].
    step_stream Hbr x s3 v3 H2. apply read_bytes_vector_inv in H2 as (Hfd & Hr2 & Hv2).
    apply update_inv in Hbr as [_ Hbr]. inversion Hbr; subst s' v'.
    apply (Hdone _ Hfd Hr2).
    intros (H1 & H2 & H3 & H4 & H5 & _ & Hrest). split; [exact H1|]. split; [exact H2|].
    split; [exact H3|]. split; [exact H4|]. split; [exact H5|]. split; [|exact Hrest].
    input_fields. exact Hfd. }
  apply zoom_inv_ok in Hbr as (d' & Hbr & ->).
  apply unknown_entry_inv in Hbr as (val & Hfv & Hnew & -> & Hr2).
  apply (Hdone _ Hfv Hr2).
  intros (H1 & H2 & H3 & H4 & H5 & H6 & H7). split; [exact H1|]. split; [exact H2|].
  split; [exact H3|]. split; [exact H4|]. split; [exact H5|]. split; [exact H6|].
  input_fields. apply unknown_wf_snoc; auto.
  apply not_in_known. unfold IN_KNOWN. cbn [forallb].
  rewrite T0, T2, T3, T4, T6, T7. reflexivity.
Qed.

(** What a turn of a map's loop raises. *)
Ltac entry_raise H :=
  first
    [ solve [eauto with raises]
    | match type of H with
      | (match ?k with [] => _ | _ :: _ => _ end) _ = _ =>
          destruct k; cbv zeta in H; follow_raise H entry_raise
      | zoom _ _ _ _ = _ =>
          apply zoom_raise in H as (? & H); solve [eauto with raises]
      | deserialize_into _ _ _ _ _ = _ =>
          apply deserialize_into_raise in H as (? & H); solve [eauto with raises]
      | run_on _ _ _ = _ =>
          apply run_on_raise in H as (? & H); solve [eauto with raises]
      end ].

Lemma input_entry_raise_kind `{Ext : Externals} (s s' : PSBTInput.t * BCDataStream.t)
    (e : exn) :
  PSBTInput.deserialize_entry s = (Raise e, s') -> is_SerializationError e = true.
Proof.
  unfold PSBTInput.deserialize_entry. intro H. follow_raise H entry_raise.
Qed.

(** ** Entries of an output map *)

Ltac output_fields :=
  unfold PSBTOutput.set_redeem_script, PSBTOutput.set_hd_keypaths, PSBTOutput.set_unknown,
    PSBTOutput.redeem_script, PSBTOutput.hd_keypaths, PSBTOutput.unknown in *;
  cbn [PSBTOutput.base
       PSBTInputOutputBase.redeem_script PSBTInputOutputBase.hd_keypaths
       PSBTInputOutputBase.unknown PSBTInputOutputBase.set_redeem_script
       PSBTInputOutputBase.set_hd_keypaths PSBTInputOutputBase.set_unknown] in *.

Lemma output_separator_parses `{Ext : Externals} (s : PSBTOutput.t) :
  parses PSBTOutput.deserialize_entry s [x00] false s.
Proof.
  intros v rest Hv. change [x00] with (byte_vector []) in Hv.
  unfold PSBTOutput.deserialize_entry.
  rewrite (bind_ok _ _ _ _ _
             (parses_on_stream _ s _ _
                (read_bytes_vector_reads [] true ltac:(vm_compute; reflexivity)) v _ Hv)).
  reflexivity.
Qed.

Lemma output_redeem_parses `{Ext : Externals} (s : PSBTOutput.t) (x : bytes) :
  PSBTOutput.redeem_script s = [] -> fits x ->
  parses PSBTOutput.deserialize_entry s
    (map_entry (type_byte PSBT_OUT_REDEEMSCRIPT) x) true (PSBTOutput.set_redeem_script x s).
Proof.
  intros Hs Hfit v rest Hv. unfold map_entry in *. rewrite <- app_assoc in Hv.
  unfold PSBTOutput.deserialize_entry.
  enter_entry s v Hv (fits_type_byte PSBT_OUT_REDEEMSCRIPT).
  simpl (Z_of_byte _ =? _). cbv beta iota. rewrite Hs.
  cbn [truthy List.length Nat.eqb negb].
  unfold bind at 1. read_value s v Hv Hfit.
  unfold update, ret. cbn [fst snd]. entry_done.
Qed.

Lemma output_hd_parses `{Ext : Externals} (s : PSBTOutput.t) (pk : bytes)
    (kp : KeyOriginInfo.t) :
  pubkey_ok pk -> keypath_wf kp -> ~ In pk (map fst (PSBTOutput.hd_keypaths s)) ->
  parses PSBTOutput.deserialize_entry s
    (hd_entry PSBT_OUT_BIP32_DERIVATION (pk, kp)) true
    (PSBTOutput.set_hd_keypaths (PSBTOutput.hd_keypaths s ++ [(pk, kp)]) s).
Proof.
  intros Hpk Hwf Hnew v rest Hv. unfold hd_entry, map_entry in *. cbn [fst snd] in *.
  rewrite <- app_assoc in Hv.
  pose proof (parses_zoom PSBTOutput.hd_keypaths PSBTOutput.set_hd_keypaths _ s _ _ _
                (hd_entry_parses PSBT_OUT_BIP32_DERIVATION pk kp _ Hpk Hwf Hnew)) as Hz.
  unfold PSBTOutput.deserialize_entry.
  enter_entry s v Hv (fits_pubkey_key PSBT_OUT_BIP32_DERIVATION pk Hpk).
  simpl (Z_of_byte _ =? _). cbv beta iota.
  unfold type_byte in Hz. cbn [app] in Hz.
  rewrite (bind_ok _ _ _ _ _ (Hz _ _ (remaining_consumed v _ _ Hv))).
  unfold ret. entry_done.
Qed.

Lemma output_unknown_parses `{Ext : Externals} (s : PSBTOutput.t) (b : byte)
    (ktl val : bytes) :
  ~ In (Z_of_byte b) OUT_KNOWN -> fits (b :: ktl) -> fits val ->
  ~ In (b :: ktl) (map fst (PSBTOutput.unknown s)) ->
  parses PSBTOutput.deserialize_entry s
    (map_entry (b :: ktl) val) true
    (PSBTOutput.set_unknown (PSBTOutput.unknown s ++ [(b :: ktl, val)]) s).
Proof.
  intros Hk Hfk Hfit Hnew v rest Hv. unfold map_entry in *. rewrite <- app_assoc in Hv.
  pose proof (parses_zoom PSBTOutput.unknown PSBTOutput.set_unknown _ s _ _ _
                (unknown_entry_parses (b :: ktl) val _ Hfit Hnew)) as Hz.
  pose proof (known_tests _ _ Hk) as Ht.
  unfold PSBTOutput.deserialize_entry.
  enter_entry s v Hv Hfk.
  rewrite !Ht by (unfold OUT_KNOWN; simpl; tauto).
  rewrite (bind_ok _ _ _ _ _ (Hz _ _ (remaining_consumed v _ _ Hv))).
  unfold ret. entry_done.
Qed.

Lemma output_entry_inv `{Ext : Externals} (s s' : PSBTOutput.t) (v v' : BCDataStream.t)
    (b : bool) :
  PSBTOutput.deserialize_entry (s, v) = (Ok b, (s', v')) ->
  (b = false /\ s' = s /\ BCDataStream.remaining v = x00 :: BCDataStream.remaining v')
  \/ (b = true
      /\ exists key val,
           key <> [] /\ fits key /\ fits val
           /\ BCDataStream.remaining v = map_entry key val ++ BCDataStream.remaining v'
           /\ (output_wf s -> output_wf s')).
Proof.
  unfold PSBTOutput.deserialize_entry. intro H.
  step_stream H key s1 v1 H1. apply read_bytes_vector_inv in H1 as (Hfk & Hr1 & Hv1).
  destruct key as [|key0 ktl].
  { apply ret_inv in H as [-> H]. inversion H; subst. left. auto. }
  right.
  step_this H self.
  step_ok H u s2 Hbr. apply ret_inv in H as [-> E]. subst s2. destruct u.
  split; [reflexivity|].
  exists (key0 :: ktl).
  assert (forall val,
            fits val ->
            BCDataStream.remaining v1 = byte_vector val ++ BCDataStream.remaining v' ->
            (output_wf s -> output_wf s') ->
            exists val0,
              key0 :: ktl <> [] /\ fits (key0 :: ktl) /\ fits val0
              /\ BCDataStream.remaining v
                 = map_entry (key0 :: ktl) val0 ++ BCDataStream.remaining v'
              /\ (output_wf s -> output_wf s')) as Hdone.
  { intros val Hfv Hr2 Hwf. exists val. split; [discriminate|]. split; [exact Hfk|].
    split; [exact Hfv|]. split; [|exact Hwf].
    unfold map_entry. rewrite <- app_assoc, <- Hr2. exact Hr1. }
  clear Hr1 Hv1.
  destruct (Z_of_byte key0 =? PSBT_OUT_REDEEMSCRIPT) eqn:T0.
  { destruct (truthy (PSBTOutput.redeem_script s)); [now apply raise_ok in Hbr|].
    destruct (negb (Nat.eqb (List.length (key0 :: ktl)) 1)); [now apply raise_ok in Hbr|].
    step_stream Hbr x s3 v3 H2. apply read_bytes_vector_inv in H2 as (Hfd & Hr2 & Hv2).
    apply update_inv in Hbr as [_ Hbr]. inversion Hbr; subst s' v'.
    apply (Hdone _ Hfd Hr2).
    intros (_ & Hrest). split; [|exact Hrest]. output_fields. exact Hfd. }
  destruct (Z_of_byte key0 =? PSBT_OUT_BIP32_DERIVATION) eqn:T2.
  { apply zoom_inv_ok in Hbr as (d' & Hbr & ->).
    apply hd_entry_inv in Hbr as (pk & kp & _ & Hpk & Hnew & Hkp & -> & Hr2).
    pose proof Hkp as (_ & _ & Hfv).
    apply (Hdone _ Hfv Hr2).
    intros (H1 & H2 & Hrest). split; [exact H1|]. split; [|exact Hrest]. output_fields.
    now apply hd_keypaths_wf_snoc. }
  apply zoom_inv_ok in Hbr as (d' & Hbr & ->).
  apply unknown_entry_inv in Hbr as (val & Hfv & Hnew & -> & Hr2).
  apply (Hdone _ Hfv Hr2).
  intros (H1 & H2 & H3). split; [exact H1|]. split; [exact H2|].
  output_fields. apply unknown_wf_snoc; auto.
  apply not_in_known. unfold OUT_KNOWN. cbn [forallb].
  rewrite T0, T2. reflexivity.
Qed.

Lemma output_entry_raise_kind `{Ext : Externals} (s s' : PSBTOutput.t * BCDataStream.t)
    (e : exn) :
  PSBTOutput.deserialize_entry s = (Raise e, s') -> is_SerializationError e = true.
Proof.
  unfold PSBTOutput.deserialize_entry. intro H. follow_raise H entry_raise.
Qed.

(** ** Entries of the global map *)

Lemma check_script_sigs_ok {St : Type} (vin : list CTxIn.t) (i : nat) (st : St) :
  Forall (fun inp => CTxIn.script_sig inp = []) vin ->
  PSBT.check_script_sigs i vin st = (Ok tt, st).
Proof.
  intro H. revert i. induction H as [|inp vin Hi _ IH]; intro i; [reflexivity|].
  cbn [PSBT.check_script_sigs]. rewrite Hi. apply IH.
Qed.

Lemma check_script_sigs_inv {St : Type} (vin : list CTxIn.t) (i : nat) (st st' : St) :
  PSBT.check_script_sigs i vin st = (Ok tt, st') ->
  Forall (fun inp => CTxIn.script_sig inp = []) vin /\ st' = st.
Proof.
  revert i. induction vin as [|inp vin IH]; intros i H.
  - inversion H. split; [constructor | reflexivity].
  - cbn [PSBT.check_script_sigs] in H.
    destruct (CTxIn.script_sig inp) eqn:E; [|discriminate H].
    apply IH in H as [H ->]. split; [now constructor | reflexivity].
Qed.

Lemma check_script_sigs_raise {St : Type} (vin : list CTxIn.t) (i : nat) (st : St) :
  ~ Forall (fun inp => CTxIn.script_sig inp = []) vin ->
  exists j,
    PSBT.check_script_sigs i vin st
    = (Raise (mkPSBTSerializationError
                ("Unsigned tx has a non-empty empty scriptSig at input " ++ decimal j)), st).
Proof.
  revert i. induction vin as [|inp vin IH]; intros i Hn.
  - exfalso. apply Hn. constructor.
  - cbn [PSBT.check_script_sigs]. destruct (CTxIn.script_sig inp) eqn:E.
    + apply IH. intro Hall. apply Hn. now constructor.
    + exists i. reflexivity.
Qed.

Lemma check_script_sigs_raise_kind {St : Type} (vin : list CTxIn.t) (i : nat) (st st' : St)
    (e : exn) :
  PSBT.check_script_sigs i vin st = (Raise e, st') -> is_SerializationError e = true.
Proof.
  revert i. induction vin as [|inp vin IH]; intros i H; [discriminate H|].
  cbn [PSBT.check_script_sigs] in H.
  destruct (negb (Nat.eqb (List.length (CTxIn.script_sig inp)) 0)); [|now apply IH in H].
  inversion H. reflexivity.
Qed.

#[local] Hint Resolve check_script_sigs_raise_kind : raises.

Lemma global_separator_parses `{Ext : Externals} (s : PSBT.t) :
  parses PSBT.deserialize_global_entry s [x00] false s.
Proof.
  intros v rest Hv. change [x00] with (byte_vector []) in Hv.
  unfold PSBT.deserialize_global_entry.
  rewrite (bind_ok _ _ _ _ _
             (parses_on_stream _ s _ _
                (read_bytes_vector_reads [] true ltac:(vm_compute; reflexivity)) v _ Hv)).
  reflexivity.
Qed.

(** The type-0x00 entry up to the check of the unlocking scripts: the
    transaction is decoded and stored, whatever the check then says. *)
Lemma global_tx_read `{Ext : Externals} (s : PSBT.t) (tx : CMutableTransaction.t)
    (v : BCDataStream.t) (rest : bytes) :
  PSBT.tx s = None -> tx_wf tx -> fits (tx_bytes tx) ->
  BCDataStream.remaining v
  = map_entry (type_byte PSBT_GLOBAL_UNSIGNED_TX) (tx_bytes tx) ++ rest ->
  PSBT.deserialize_global_entry (s, v)
  = bind (PSBT.check_script_sigs 0 (CMutableTransaction.vin tx)) (fun _ => ret true)
      (PSBT.set_tx (Some tx) s,
       BCDataStream.advance
         (List.length (map_entry (type_byte PSBT_GLOBAL_UNSIGNED_TX) (tx_bytes tx))) v).
Proof.
  intros Hs Hwf Hfit Hv. unfold map_entry in *. rewrite <- app_assoc in Hv.
  unfold PSBT.deserialize_global_entry.
  enter_entry s v Hv (fits_type_byte PSBT_GLOBAL_UNSIGNED_TX).
  simpl (Z_of_byte _ =? _). cbv beta iota. rewrite Hs.
  cbn [List.length Nat.eqb negb].
  unfold bind at 1. read_value s v Hv Hfit.
  rewrite (bind_ok _ _ _ _ _
             (deserialize_into_whole _ _ _ _ _ _ _
                (CMutableTransaction_deserialize_parses CMutableTransaction.default tx Hwf))).
  rewrite has_more_consumed.
  rewrite (bind_ok _ _ _ _ _ (this_ok _ _)).
  cbn [PSBT.tx PSBT.set_tx].
  rewrite ?advance_advance, ?length_app. reflexivity.
Qed.

Lemma global_tx_parses `{Ext : Externals} (s : PSBT.t) (tx : CMutableTransaction.t) :
  PSBT.tx s = None -> tx_wf tx -> fits (tx_bytes tx) -> unsigned tx ->
  parses PSBT.deserialize_global_entry s
    (map_entry (type_byte PSBT_GLOBAL_UNSIGNED_TX) (tx_bytes tx)) true
    (PSBT.set_tx (Some tx) s).
Proof.
  intros Hs Hwf Hfit Hu v rest Hv.
  rewrite (global_tx_read s tx v rest Hs Hwf Hfit Hv).
  now rewrite (bind_ok _ _ _ _ _ (check_script_sigs_ok _ 0 _ Hu)).
Qed.

Lemma global_unknown_parses `{Ext : Externals} (s : PSBT.t) (b : byte) (ktl val : bytes) :
  ~ In (Z_of_byte b) GLOBAL_KNOWN -> fits (b :: ktl) -> fits val ->
  ~ In (b :: ktl) (map fst (PSBT.unknown s)) ->
  parses PSBT.deserialize_global_entry s
    (map_entry (b :: ktl) val) true
    (PSBT.set_unknown (PSBT.unknown s ++ [(b :: ktl, val)]) s).
Proof.
  intros Hk Hfk Hfit Hnew v rest Hv. unfold map_entry in *. rewrite <- app_assoc in Hv.
  pose proof (parses_zoom PSBT.unknown PSBT.set_unknown _ s _ _ _
                (unknown_entry_parses (b :: ktl) val _ Hfit Hnew)) as Hz.
  pose proof (known_tests _ _ Hk) as Ht.
  unfold PSBT.deserialize_global_entry.
  enter_entry s v Hv Hfk.
  rewrite !Ht by (unfold GLOBAL_KNOWN; simpl; tauto).
  rewrite (bind_ok _ _ _ _ _ (Hz _ _ (remaining_consumed v _ _ Hv))).
  unfold ret. entry_done.
Qed.

Lemma global_entry_inv `{Ext : Externals} (s s' : PSBT.t) (v v' : BCDataStream.t)
    (b : bool) :
  PSBT.deserialize_global_entry (s, v) = (Ok b, (s', v')) ->
  (b = false /\ s' = s /\ BCDataStream.remaining v = x00 :: BCDataStream.remaining v')
  \/ (b = true
      /\ exists key val,
           key <> [] /\ fits key /\ fits val
           /\ BCDataStream.remaining v = map_entry key val ++ BCDataStream.remaining v'
           /\ PSBT.inputs s' = PSBT.inputs s /\ PSBT.outputs s' = PSBT.outputs s
           /\ (global_wf s -> global_wf s')).
Proof.
  unfold PSBT.deserialize_global_entry. intro H.
  step_stream H key s1 v1 H1. apply read_bytes_vector_inv in H1 as (Hfk & Hr1 & Hv1).
  destruct key as [|key0 ktl].
  { apply ret_inv in H as [-> H]. inversion H; subst. left. auto. }
  right.
  step_this H self.
  step_ok H u s2 Hbr. apply ret_inv in H as [-> E]. subst s2. destruct u.
  split; [reflexivity|].
  exists (key0 :: ktl).
  assert (forall val,
            fits val ->
            BCDataStream.remaining v1 = byte_vector val ++ BCDataStream.remaining v' ->
            PSBT.inputs s' = PSBT.inputs s /\ PSBT.outputs s' = PSBT.outputs s
            /\ (global_wf s -> global_wf s') ->
            exists val0,
              key0 :: ktl <> [] /\ fits (key0 :: ktl) /\ fits val0
              /\ BCDataStream.remaining v
                 = map_entry (key0 :: ktl) val0 ++ BCDataStream.remaining v'
              /\ PSBT.inputs s' = PSBT.inputs s /\ PSBT.outputs s' = PSBT.outputs s
              /\ (global_wf s -> global_wf s')) as Hdone.
  { intros val Hfv Hr2 Hwf. exists val. split; [discriminate|]. split; [exact Hfk|].
    split; [exact Hfv|]. split; [|exact Hwf].
    unfold map_entry. rewrite <- app_assoc, <- Hr2. exact Hr1. }
  clear Hr1 Hv1.
  destruct (Z_of_byte key0 =? PSBT_GLOBAL_UNSIGNED_TX) eqn:T0.
  { destruct (negb (Nat.eqb (List.length (key0 :: ktl)) 1)); [now apply raise_ok in Hbr|].
    destruct (PSBT.tx s) eqn:Htx; [now apply raise_ok in Hbr|].
    step_stream Hbr data s3 v3 H2. apply read_bytes_vector_inv in H2 as (Hfd & Hr2 & Hv2).
    step_ok Hbr vds2 s4 H3.
    apply deserialize_into_inv_ok in H3 as (tx & H3 & ->).
    destruct (BCDataStream.has_more vds2) eqn:Hm; [now apply raise_ok in Hbr|].
    step_this Hbr self. cbn [PSBT.tx PSBT.set_tx] in Hbr.
    apply check_script_sigs_inv in Hbr as [Hu Hbr]. inversion Hbr; subst s' v'.
    apply CMutableTransaction_deserialize_inv in H3 as (Hwtx & Hr3 & _).
    pose proof (whole_consumed _ _ _ Hr3 Hm) as ->.
    apply (Hdone _ Hfd Hr2).
    split; [reflexivity|]. split; [reflexivity|].
    intros (_ & Hrest). split; [|exact Hrest]. cbn [PSBT.tx PSBT.set_tx]. auto. }
  apply zoom_inv_ok in Hbr as (d' & Hbr & ->).
  apply unknown_entry_inv in Hbr as (val & Hfv & Hnew & -> & Hr2).
  apply (Hdone _ Hfv Hr2).
  split; [reflexivity|]. split; [reflexivity|].
  intros (H1 & H2). split; [exact H1|].
  cbn [PSBT.unknown PSBT.set_unknown]. apply unknown_wf_snoc; auto.
  apply not_in_known. unfold GLOBAL_KNOWN. cbn [forallb].
  rewrite T0. reflexivity.
Qed.

Lemma global_entry_raise_kind `{Ext : Externals} (s s' : PSBT.t * BCDataStream.t)
    (e : exn) :
  PSBT.deserialize_global_entry s = (Raise e, s') -> is_SerializationError e = true.
Proof.
  unfold PSBT.deserialize_global_entry. intro H. follow_raise H entry_raise.
Qed.

(** ** The loop over a map, inverted *)

Lemma while_unfold {Self : Type} (body : M (Self * BCDataStream.t) bool) (fuel : nat)
    (s : Self) (v : BCDataStream.t) :
  while_can_read_more fuel body (s, v)
  = if BCDataStream.has_more v then
      match fuel with
      | O => (Raise FuelExhausted, (s, v))
      | S fuel' =>
          match body (s, v) with
          | (Ok true, st) => while_can_read_more fuel' body st
          | (Ok false, st) => (Ok tt, st)
          | (Raise e, st) => (Raise e, st)
          end
      end
    else (Ok tt, (s, v)).
Proof.
  destruct fuel as [|fuel]; cbn [while_can_read_more]; unfold bind at 1;
    unfold on_stream at 1; unfold BCDataStream.can_read_more; cbn [fst snd];
    destruct (BCDataStream.has_more v); cbn [negb]; try reflexivity.
  unfold bind. destruct (body (s, v)) as [[[|]|e] st]; reflexivity.
Qed.

Lemma byte_vector_inj (a b X Y : bytes) :
  fits a -> fits b -> byte_vector a ++ X = byte_vector b ++ Y -> a = b /\ X = Y.
Proof.
  intros Ha Hb E.
  pose proof (read_bytes_vector_reads a true Ha (BCDataStream.new (byte_vector a ++ X)) X
                (remaining_new _)) as Ra.
  pose proof (read_bytes_vector_reads b true Hb (BCDataStream.new (byte_vector a ++ X)) Y) as Rb.
  rewrite remaining_new in Rb. specialize (Rb E). rewrite Ra in Rb.
  inversion Rb as [[Eab Ev]]. subst b. split; [reflexivity|].
  now apply app_inv_head in E.
Qed.

Lemma map_entry_inj (k1 v1 k2 v2 X Y : bytes) :
  fits k1 -> fits v1 -> fits k2 -> fits v2 ->
  map_entry k1 v1 ++ X = map_entry k2 v2 ++ Y -> k1 = k2 /\ v1 = v2 /\ X = Y.
Proof.
  intros Hk1 Hv1 Hk2 Hv2 E. unfold map_entry in E. rewrite <- !app_assoc in E.
  apply byte_vector_inj in E as [-> E]; auto.
  apply byte_vector_inj in E as [-> E]; auto.
Qed.

Lemma separator_not_entry (key val X Y : bytes) :
  key <> [] -> fits key -> x00 :: X = map_entry key val ++ Y -> False.
Proof.
  intros Hne Hk E. unfold map_entry in E. rewrite <- app_assoc in E.
  change (x00 :: X) with (byte_vector [] ++ X) in E.
  assert (fits []) as H0 by (vm_compute; reflexivity).
  apply byte_vector_inj in E as [E _]; auto; congruence.
Qed.

Section MapLoop.

Context {Self : Type}.
Variable body : M (Self * BCDataStream.t) bool.
Variable I : Self -> Prop.

Hypothesis body_shape :
  forall s v b s' v',
    body (s, v) = (Ok b, (s', v')) ->
    (b = false /\ s' = s /\ BCDataStream.remaining v = x00 :: BCDataStream.remaining v')
    \/ (b = true
        /\ exists key val,
             key <> [] /\ fits key /\ fits val
             /\ BCDataStream.remaining v = map_entry key val ++ BCDataStream.remaining v'
             /\ (I s -> I s')).

Hypothesis body_raise :
  forall s e s', body s = (Raise e, s') -> is_SerializationError e = true.

Lemma while_map_inv (fuel : nat) (s s' : Self) (v v' : BCDataStream.t) :
  while_can_read_more fuel body (s, v) = (Ok tt, (s', v')) -> I s -> I s'.
Proof.
  revert s v. induction fuel as [|fuel IH]; intros s v H Hs; rewrite while_unfold in H;
    destruct (BCDataStream.has_more v); try discriminate H;
    try (inversion H; subst; exact Hs).
  destruct (body (s, v)) as [[[|]|e] [s1 v1]] eqn:Hb; try discriminate H.
  - apply body_shape in Hb as [(Hf & _) | (_ & key & val & _ & _ & _ & _ & Hi)];
      [discriminate Hf|].
    apply (IH _ _ H). auto.
  - apply body_shape in Hb as [(_ & -> & _) | (Hf & _)]; [|discriminate Hf].
    inversion H; subst. exact Hs.
Qed.

Lemma body_consumes (s s' : Self) (v v' : BCDataStream.t) (b : bool) :
  body (s, v) = (Ok b, (s', v')) ->
  (List.length (BCDataStream.remaining v') < List.length (BCDataStream.remaining v))%nat.
Proof.
  intro Hb. apply body_shape in Hb as [(_ & _ & Hr) | (_ & key & val & _ & _ & _ & Hr & _)];
    rewrite Hr.
  - simpl. lia.
  - rewrite length_app. pose proof (map_entry_nonempty key val).
    destruct (map_entry key val); [contradiction|]. simpl. lia.
Qed.

Lemma while_map_raise_kind (fuel : nat) (s : Self) (v : BCDataStream.t)
    (st' : Self * BCDataStream.t) (e : exn) :
  (List.length (BCDataStream.remaining v) <= fuel)%nat ->
  while_can_read_more fuel body (s, v) = (Raise e, st') -> is_SerializationError e = true.
Proof.
  revert s v. induction fuel as [|fuel IH]; intros s v Hf H; rewrite while_unfold in H;
    destruct (BCDataStream.has_more v) eqn:Hm; try discriminate H.
  - rewrite has_more_truthy in Hm. destruct (BCDataStream.remaining v); [discriminate Hm|].
    simpl in Hf. lia.
  - destruct (body (s, v)) as [[[|]|e'] [s1 v1]] eqn:Hb; try discriminate H.
    + apply body_consumes in Hb. apply (IH s1 v1); [lia | exact H].
    + inversion H; subst. now apply body_raise in Hb.
Qed.

Lemma while_more_raise_kind (s st' : Self * BCDataStream.t) (e : exn) :
  while_more body s = (Raise e, st') -> is_SerializationError e = true.
Proof.
  destruct s as [s v]. unfold while_more. cbn [snd].
  apply while_map_raise_kind. lia.
Qed.

Lemma while_more_inv (s s' : Self) (v v' : BCDataStream.t) :
  while_more body (s, v) = (Ok tt, (s', v')) -> I s -> I s'.
Proof. unfold while_more. apply while_map_inv. Qed.

(** On an encoded map the loop consumes the map and nothing more, unless it
    raises. *)
Lemma while_map_exact (es : list (bytes * bytes)) (rest : bytes) (fuel : nat) (s : Self)
    (v : BCDataStream.t) :
  entries_wf es ->
  BCDataStream.remaining v = encoded_map es ++ rest ->
  (List.length es < fuel)%nat ->
  (exists e st', while_can_read_more fuel body (s, v) = (Raise e, st')
                 /\ is_SerializationError e = true)
  \/ (exists s' v', while_can_read_more fuel body (s, v) = (Ok tt, (s', v'))
                    /\ BCDataStream.remaining v' = rest).
Proof.
  intro Hwf. revert fuel s v.
  induction Hwf as [|[k val] es (Hne & Hfk & Hfv) Hwf IH]; intros fuel s v Hv Hfuel;
    (destruct fuel as [|fuel]; [simpl in Hfuel; lia|]);
    rewrite while_unfold;
    unfold encoded_map in Hv; cbn [map List.concat fst snd] in Hv.
  - cbn [app] in Hv. rewrite has_more_truthy, Hv. cbn [truthy].
    destruct (body (s, v)) as [[[|]|e] [s1 v1]] eqn:Hb.
    + exfalso. apply body_shape in Hb as [(Hf & _) | (_ & key & val & Hne & Hfk & _ & Hr & _)];
        [discriminate Hf|].
      rewrite Hv in Hr. now apply separator_not_entry in Hr.
    + right. exists s1, v1. split; [reflexivity|].
      apply body_shape in Hb as [(_ & _ & Hr) | (Hf & _)]; [|discriminate Hf].
      rewrite Hv in Hr. now inversion Hr.
    + left. exists e, (s1, v1). split; [reflexivity|]. now apply body_raise in Hb.
  - rewrite <- !app_assoc in Hv. rewrite has_more_truthy, Hv.
    pose proof (map_entry_nonempty k val) as Hme.
    destruct (map_entry k val ++ List.concat (map (fun kv => map_entry (fst kv) (snd kv)) es)
              ++ [x00] ++ rest) eqn:Hcat;
      [apply app_eq_nil in Hcat as [Hcat _]; contradiction|].
    cbn [truthy]. rewrite <- Hcat in Hv. clear Hcat.
    destruct (body (s, v)) as [[[|]|e] [s1 v1]] eqn:Hb.
    + apply body_shape in Hb as [(Hf & _) | (_ & key & val' & Hne' & Hfk' & Hfv' & Hr & _)];
        [discriminate Hf|].
      rewrite Hv in Hr. apply map_entry_inj in Hr as (_ & _ & Hr); auto.
      apply (IH fuel s1 v1); [|simpl in Hfuel; lia].
      unfold encoded_map. rewrite <- Hr, <- app_assoc. reflexivity.
    + exfalso. apply body_shape in Hb as [(_ & _ & Hr) | (Hf & _)]; [|discriminate Hf].
      rewrite Hv in Hr. symmetry in Hr. now apply separator_not_entry in Hr.
    + left. exists e, (s1, v1). split; [reflexivity|]. now apply body_raise in Hb.
Qed.

End MapLoop.

(** ** Maps, written *)

Lemma writes_nested (m : M BCDataStream.t unit) (out : bytes) :
  writes m out -> fits out ->
  writes (data <- written_by m ;; BCDataStream.write_string data) (byte_vector out).
Proof.
  intros Hw Hfit v. rewrite (bind_ok _ _ _ _ _ (writes_written_by _ _ v Hw)).
  now apply writes_write_string.
Qed.

Lemma writes_after_written_by (m : M BCDataStream.t unit) (k : bytes -> M BCDataStream.t unit)
    (out o2 : bytes) :
  writes m out -> writes (k out) o2 -> writes (data <- written_by m ;; k data) o2.
Proof.
  intros Hw Hk v. rewrite (bind_ok _ _ _ _ _ (writes_written_by _ _ v Hw)). apply Hk.
Qed.

Lemma writes_separator : writes (BCDataStream.write_string PSBT_SEPARATOR) [x00].
Proof.
  change [x00] with (byte_vector PSBT_SEPARATOR). apply writes_write_string.
  vm_compute. reflexivity.
Qed.

Lemma writes_entry (typ : Z) (val : bytes) :
  fits val ->
  writes (BCDataStream.write_string (type_byte typ) ;;; BCDataStream.write_string val)
    (map_entry (type_byte typ) val).
Proof.
  intro Hfit. unfold map_entry.
  apply writes_bind; apply writes_write_string; [apply fits_type_byte | exact Hfit].
Qed.

Lemma input_serialize_writes `{Ext : Externals} (i : PSBTInput.t) :
  input_wf i -> writes (PSBTInput.serialize i) (input_bytes i).
Proof.
  intros (Hu & Hps & Hsh & Hrs & Hhd & Hfs & Hunk).
  unfold PSBTInput.serialize, input_bytes.
  apply writes_bind.
  { destruct (PSBTInput.utxo i) as [o|]; [|apply writes_ret].
    destruct Hu as (Hwo & Hfo). unfold map_entry.
    apply writes_bind; [apply writes_write_string, fits_type_byte|].
    apply writes_nested; [now apply CTxOut_serialize_writes | exact Hfo]. }
  apply writes_bind.
  { destruct (truthy (PSBTInput.final_script_sig i)); cbn [negb].
    - now apply writes_entry.
    - apply writes_bind.
      { apply writes_for_each. intros kv Hin. destruct Hps as (_ & Hall).
        rewrite Forall_forall in Hall. destruct (Hall _ Hin) as (_ & Hpk & Hsig).
        unfold partial_sig_entry, map_entry.
        apply writes_bind; apply writes_write_string;
          [now apply fits_pubkey_key | exact Hsig]. }
      apply writes_bind.
      { destruct (PSBTInput.sighash_type i =? 0); cbn [negb]; [apply writes_ret|].
        unfold map_entry.
        apply writes_bind; [apply writes_write_string, fits_type_byte|].
        apply writes_nested; [now apply writes_write_uint32|].
        unfold fits. rewrite length_le_encode. vm_compute. reflexivity. }
      apply writes_bind.
      { destruct (truthy (PSBTInput.redeem_script i)); [|apply writes_ret].
        now apply writes_entry. }
      now apply hd_keypaths_serialize_writes. }
  apply writes_bind.
  { apply unknown_serialize_writes. eapply unknown_wf_fits. exact Hunk. }
  apply writes_separator.
Qed.

Lemma output_serialize_writes `{Ext : Externals} (o : PSBTOutput.t) :
  output_wf o -> writes (PSBTOutput.serialize o) (output_bytes o).
Proof.
  intros (Hrs & Hhd & Hunk).
  unfold PSBTOutput.serialize, output_bytes.
  apply writes_bind.
  { destruct (truthy (PSBTOutput.redeem_script o)); [|apply writes_ret].
    now apply writes_entry. }
  apply writes_bind; [now apply hd_keypaths_serialize_writes|].
  apply writes_bind.
  { apply unknown_serialize_writes. eapply unknown_wf_fits. exact Hunk. }
  apply writes_separator.
Qed.

Lemma unsigned_no_script_sig (tx : CMutableTransaction.t) :
  unsigned tx ->
  existsb (fun inp => truthy (CTxIn.script_sig inp)) (CMutableTransaction.vin tx) = false.
Proof.
  unfold unsigned. induction 1 as [|inp vin Hi _ IH]; [reflexivity|].
  cbn [existsb]. now rewrite Hi, IH.
Qed.

Lemma psbt_serialize_writes `{Ext : Externals} (p : PSBT.t) :
  psbt_wf p -> writes (PSBT.serialize_to p) (psbt_bytes p).
Proof.
  intros (Htx & Hunk & Hins & Houts).
  unfold PSBT.serialize_to, psbt_bytes.
  apply writes_bind; [apply writes_write|].
  destruct (PSBT.tx p) as [tx|]; [|contradiction].
  destruct Htx as (Hwtx & Hftx & Hu & Hni & Hno).
  rewrite (unsigned_no_script_sig tx Hu). unfold global_bytes, map_entry.
  rewrite <- !app_assoc.
  apply writes_bind; [apply writes_write_string, fits_type_byte|].
  apply (writes_after_written_by _ _ _ _ (CMutableTransaction_serialize_writes tx Hwtx)).
  apply writes_bind; [now apply writes_write_string|].
  apply writes_bind.
  { apply unknown_serialize_writes. eapply unknown_wf_fits. exact Hunk. }
  apply writes_bind; [apply writes_separator|].
  rewrite Hni, Hno, !Nat.eqb_refl. cbn [negb].
  apply (writes_bind _ _ []); [apply writes_ret|].
  apply writes_bind.
  { apply writes_for_each. intros i Hin. apply input_serialize_writes.
    rewrite Forall_forall in Hins. now apply Hins. }
  apply (writes_bind _ _ []); [apply writes_ret|].
  apply writes_for_each. intros o Hin. apply output_serialize_writes.
  rewrite Forall_forall in Houts. now apply Houts.
Qed.

(** ** Maps, read back *)

Section DictSteps.

Context {Self V : Type}.
Variable body : M (Self * BCDataStream.t) bool.
Variable getf : Self -> dict V.
Variable setf : dict V -> Self -> Self.
Variable enc : bytes * V -> bytes.
Variable ok : bytes * V -> Prop.

Hypothesis get_set : forall x s, getf (setf x s) = x.
Hypothesis set_set : forall x y s, setf y (setf x s) = setf y s.
Hypothesis enc_nonempty : forall kv, enc kv <> [].
Hypothesis entry_parses :
  forall s kv,
    ok kv -> ~ In (fst kv) (map fst (getf s)) ->
    parses body s (enc kv) true (setf (getf s ++ [kv]) s).

(** The entries of a dictionary, read one after the other into a receiver
    that holds [acc] already. *)
Lemma dict_steps (d acc : dict V) (s : Self) :
  NoDup (map fst (acc ++ d)) -> Forall ok d ->
  steps body (setf acc s) (map enc d) (setf (acc ++ d) s).
Proof.
  revert acc. induction d as [|kv d IH]; intros acc Hnd Hall.
  - rewrite app_nil_r. constructor.
  - inversion Hall as [|? ? Hkv Hall']; subst. cbn [map].
    apply steps_cons with (s1 := setf (acc ++ [kv]) s).
    + apply enc_nonempty.
    + pose proof (entry_parses (setf acc s) kv Hkv) as Hp.
      rewrite get_set, set_set in Hp. apply Hp.
      rewrite map_app in Hnd. cbn [map] in Hnd. apply NoDup_remove_2 in Hnd.
      intro Hin. apply Hnd. apply in_or_app. now left.
    + replace (acc ++ kv :: d) with ((acc ++ [kv]) ++ d) in * by now rewrite <- app_assoc.
      now apply IH.
Qed.

End DictSteps.

Lemma hd_entry_nonempty (typ : Z) (kv : bytes * KeyOriginInfo.t) : hd_entry typ kv <> [].
Proof. apply map_entry_nonempty. Qed.

Lemma unknown_entry_nonempty (kv : bytes * bytes) : unknown_entry kv <> [].
Proof. apply map_entry_nonempty. Qed.

Lemma partial_sig_entry_nonempty (kv : bytes * (bytes * bytes)) : partial_sig_entry kv <> [].
Proof. apply map_entry_nonempty. Qed.

Lemma output_hd_steps `{Ext : Externals} (s : PSBTOutput.t) (d : dict KeyOriginInfo.t) :
  hd_keypaths_wf d ->
  steps PSBTOutput.deserialize_entry (PSBTOutput.set_hd_keypaths [] s)
    (map (hd_entry PSBT_OUT_BIP32_DERIVATION) d) (PSBTOutput.set_hd_keypaths d s).
Proof.
  intros (Hnd & Hall).
  apply (dict_steps PSBTOutput.deserialize_entry PSBTOutput.hd_keypaths
           PSBTOutput.set_hd_keypaths (hd_entry PSBT_OUT_BIP32_DERIVATION)
           (fun kv => pubkey_ok (fst kv) /\ keypath_wf (snd kv))); auto.
  - apply hd_entry_nonempty.
  - intros s0 [pk kp] (Hpk & Hkp) Hnew. now apply output_hd_parses.
Qed.

Lemma output_unknown_steps `{Ext : Externals} (s : PSBTOutput.t) (d : dict bytes) :
  unknown_wf OUT_KNOWN d ->
  steps PSBTOutput.deserialize_entry (PSBTOutput.set_unknown [] s)
    (map unknown_entry d) (PSBTOutput.set_unknown d s).
Proof.
  intros (Hnd & Hall).
  apply (dict_steps PSBTOutput.deserialize_entry PSBTOutput.unknown
           PSBTOutput.set_unknown unknown_entry
           (fun kv => fits (fst kv) /\ fits (snd kv)
                      /\ match fst kv with
                         | [] => False
                         | b :: _ => ~ In (Z_of_byte b) OUT_KNOWN
                         end)); auto.
  - apply unknown_entry_nonempty.
  - intros s0 [[|b ktl] val] (Hfk & Hfv & Hk) Hnew; [contradiction|].
    now apply output_unknown_parses.
Qed.

Lemma output_steps `{Ext : Externals} (o : PSBTOutput.t) :
  output_wf o ->
  exists es,
    steps PSBTOutput.deserialize_entry PSBTOutput.default es o
    /\ List.concat es ++ [x00] = output_bytes o.
Proof.
  intros (Hrs & Hhd & Hunk). destruct o as [[rs hd unk]].
  unfold output_bytes. output_fields.
  pose proof (output_hd_steps (PSBTOutput.mk (PSBTInputOutputBase.mk rs [] [])) hd Hhd) as S2.
  pose proof (output_unknown_steps (PSBTOutput.mk (PSBTInputOutputBase.mk rs hd [])) unk Hunk)
    as S3.
  destruct rs as [|r0 rs].
  - exists (map (hd_entry PSBT_OUT_BIP32_DERIVATION) hd ++ map unknown_entry unk). split.
    + eapply steps_app; [exact S2 | exact S3].
    + cbn [truthy app]. now rewrite concat_app, <- app_assoc.
  - exists ([map_entry (type_byte PSBT_OUT_REDEEMSCRIPT) (r0 :: rs)]
            ++ map (hd_entry PSBT_OUT_BIP32_DERIVATION) hd ++ map unknown_entry unk). split.
    + eapply steps_app; [|eapply steps_app; [exact S2 | exact S3]].
      apply steps_one; [apply map_entry_nonempty|].
      apply (output_redeem_parses PSBTOutput.default (r0 :: rs)); [reflexivity | exact Hrs].
    + cbn [truthy]. rewrite !concat_app, <- !app_assoc. cbn [List.concat].
      now rewrite app_nil_r.
Qed.

Lemma output_deserialize_parses `{Ext : Externals} (o0 o : PSBTOutput.t) :
  output_wf o -> parses PSBTOutput.deserialize o0 (output_bytes o) tt o.
Proof.
  intro Hwf. destruct (output_steps o Hwf) as (es & Hsteps & <-).
  unfold PSBTOutput.deserialize.
  eapply parses_step; [apply (parses_update (fun _ => PSBTOutput.default)) | | reflexivity].
  eapply while_more_steps; [exact Hsteps | apply output_separator_parses | discriminate].
Qed.

Lemma fits_nil : fits [].
Proof. vm_compute. reflexivity. Qed.

Lemma output_wf_default `{Ext : Externals} : output_wf PSBTOutput.default.
Proof.
  split; [apply fits_nil|]. split; split; constructor.
Qed.

Lemma input_wf_default `{Ext : Externals} : input_wf PSBTInput.default.
Proof.
  split; [exact I|]. split; [split; constructor|].
  split; [split; [discriminate | reflexivity]|].
  split; [apply fits_nil|]. split; [split; constructor|].
  split; [apply fits_nil | split; constructor].
Qed.

Lemma output_deserialize_wf `{Ext : Externals} (o0 o : PSBTOutput.t) (v v' : BCDataStream.t) :
  PSBTOutput.deserialize (o0, v) = (Ok tt, (o, v')) -> output_wf o.
Proof.
  unfold PSBTOutput.deserialize. intro H. step_update H.
  apply (while_more_inv PSBTOutput.deserialize_entry output_wf) in H;
    [exact H | | apply output_wf_default].
  intros s w b s' w' Hb. now apply output_entry_inv.
Qed.

Lemma output_deserialize_raise_kind `{Ext : Externals} (s s' : PSBTOutput.t * BCDataStream.t)
    (e : exn) :
  PSBTOutput.deserialize s = (Raise e, s') -> is_SerializationError e = true.
Proof.
  unfold PSBTOutput.deserialize. intro H.
  apply bind_inv_raise in H as [H | (u & s1 & _ & H)]; [now apply update_raise in H|].
  apply (while_more_raise_kind PSBTOutput.deserialize_entry output_wf) in H; [exact H | |].
  - intros s0 w b s0' w' Hb. now apply output_entry_inv.
  - intros s0 e0 s0'. apply output_entry_raise_kind.
Qed.

Lemma length_encoded_map (es : list (bytes * bytes)) :
  (List.length es < List.length (encoded_map es))%nat.
Proof.
  unfold encoded_map. rewrite length_app. cbn [List.length].
  induction es as [|[k val] es IH]; cbn [map List.concat List.length]; [lia|].
  rewrite length_app. pose proof (map_entry_nonempty k val) as Hne. cbn [fst snd].
  destruct (map_entry k val); [contradiction|]. cbn [List.length]. lia.
Qed.

Lemma output_deserialize_exact `{Ext : Externals} (o0 : PSBTOutput.t) (v : BCDataStream.t)
    (es : list (bytes * bytes)) (rest : bytes) :
  entries_wf es ->
  BCDataStream.remaining v = encoded_map es ++ rest ->
  (exists e st', PSBTOutput.deserialize (o0, v) = (Raise e, st')
                 /\ is_SerializationError e = true)
  \/ (exists o v', PSBTOutput.deserialize (o0, v) = (Ok tt, (o, v'))
                   /\ BCDataStream.remaining v' = rest).
Proof.
  intros Hwf Hv. unfold PSBTOutput.deserialize.
  unfold bind at 1. unfold update at 1. cbn [fst snd]. unfold while_more. cbn [snd].
  apply (while_map_exact PSBTOutput.deserialize_entry output_wf) with (es := es); auto.
  - intros s0 w b s0' w' Hb. now apply output_entry_inv.
  - intros s0 e0 s0'. apply output_entry_raise_kind.
  - cbn [snd]. rewrite Hv, length_app. pose proof (length_encoded_map es). lia.
Qed.

Lemma input_deserialize_wf `{Ext : Externals} (i0 i : PSBTInput.t) (v v' : BCDataStream.t) :
  PSBTInput.deserialize (i0, v) = (Ok tt, (i, v')) -> input_wf i.
Proof.
  unfold PSBTInput.deserialize. intro H. step_update H.
  apply (while_more_inv PSBTInput.deserialize_entry input_wf) in H;
    [exact H | | apply input_wf_default].
  intros s w b s' w' Hb. now apply input_entry_inv.
Qed.

Lemma input_deserialize_raise_kind `{Ext : Externals} (s s' : PSBTInput.t * BCDataStream.t)
    (e : exn) :
  PSBTInput.deserialize s = (Raise e, s') -> is_SerializationError e = true.
Proof.
  unfold PSBTInput.deserialize. intro H.
  apply bind_inv_raise in H as [H | (u & s1 & _ & H)]; [now apply update_raise in H|].
  apply (while_more_raise_kind PSBTInput.deserialize_entry input_wf) in H; [exact H | |].
  - intros s0 w b s0' w' Hb. now apply input_entry_inv.
  - intros s0 e0 s0'. apply input_entry_raise_kind.
Qed.

Lemma input_deserialize_exact `{Ext : Externals} (i0 : PSBTInput.t) (v : BCDataStream.t)
    (es : list (bytes * bytes)) (rest : bytes) :
  entries_wf es ->
  BCDataStream.remaining v = encoded_map es ++ rest ->
  (exists e st', PSBTInput.deserialize (i0, v) = (Raise e, st')
                 /\ is_SerializationError e = true)
  \/ (exists i v', PSBTInput.deserialize (i0, v) = (Ok tt, (i, v'))
                   /\ BCDataStream.remaining v' = rest).
Proof.
  intros Hwf Hv. unfold PSBTInput.deserialize.
  unfold bind at 1. unfold update at 1. cbn [fst snd]. unfold while_more. cbn [snd].
  apply (while_map_exact PSBTInput.deserialize_entry input_wf) with (es := es); auto.
  - intros s0 w b s0' w' Hb. now apply input_entry_inv.
  - intros s0 e0 s0'. apply input_entry_raise_kind.
  - cbn [snd]. rewrite Hv, length_app. pose proof (length_encoded_map es). lia.
Qed.

(** ** Loops over a list, cut short *)




(** ** Input maps, read back *)

Lemma input_utxo_steps `{Ext : Externals} (s : PSBTInput.t) (u : option CTxOut.t) :
  PSBTInput.utxo s = None ->
  match u with
  | Some o => txout_wf o /\ fits (txout_bytes o)
  | None => True
  end ->
  steps PSBTInput.deserialize_entry s
    match u with
    | Some o => [map_entry (type_byte PSBT_IN_UTXO) (txout_bytes o)]
    | None => []
    end
    (PSBTInput.set_utxo u s).
Proof.
  intros Hs Hu. destruct u as [o|].
  - destruct Hu as (Hwo & Hfo).
    apply steps_one; [apply map_entry_nonempty | now apply input_utxo_parses].
  - replace (PSBTInput.set_utxo None s) with s; [constructor|].
    destruct s. cbn in Hs. subst. reflexivity.
Qed.

Lemma input_partial_sigs_steps `{Ext : Externals} (s : PSBTInput.t)
    (d : dict (bytes * bytes)) :
  PSBTInput.partial_sigs s = [] -> partial_sigs_wf d ->
  steps PSBTInput.deserialize_entry s (map partial_sig_entry d)
    (PSBTInput.set_partial_sigs d s).
Proof.
  intros Hs (Hnd & Hall).
  replace s with (PSBTInput.set_partial_sigs [] s) at 1
    by (destruct s; cbn in Hs; subst; reflexivity).
  apply (dict_steps PSBTInput.deserialize_entry PSBTInput.partial_sigs
           PSBTInput.set_partial_sigs partial_sig_entry
           (fun kv => fst kv = hash_160 (fst (snd kv))
                      /\ pubkey_ok (fst (snd kv))
                      /\ fits (snd (snd kv)))); auto.
  - apply partial_sig_entry_nonempty.
  - intros s0 [k [pk sg]] (Hk & Hpk & Hsg) Hnew. cbn [fst snd] in *. subst k.
    now apply input_partial_sig_parses.
Qed.

Lemma input_sighash_steps `{Ext : Externals} (s : PSBTInput.t) (z : Z) :
  PSBTInput.sighash_type s = 0 -> 0 <= z < 2 ^ 32 ->
  steps PSBTInput.deserialize_entry s
    (if z =? 0 then [] else [map_entry (type_byte PSBT_IN_SIGHASH) (le_encode 4 z)])
    (PSBTInput.set_sighash_type z s).
Proof.
  intros Hs Hz. destruct (z =? 0) eqn:E.
  - apply Z.eqb_eq in E. subst z.
    replace (PSBTInput.set_sighash_type 0 s) with s; [constructor|].
    destruct s. cbn in Hs. subst. reflexivity.
  - apply steps_one; [apply map_entry_nonempty | now apply input_sighash_parses].
Qed.

Lemma input_redeem_steps `{Ext : Externals} (s : PSBTInput.t) (x : bytes) :
  PSBTInput.redeem_script s = [] -> fits x ->
  steps PSBTInput.deserialize_entry s
    (if truthy x then [map_entry (type_byte PSBT_IN_REDEEMSCRIPT) x] else [])
    (PSBTInput.set_redeem_script x s).
Proof.
  intros Hs Hx. destruct x as [|x0 x].
  - replace (PSBTInput.set_redeem_script [] s) with s; [constructor|].
    destruct s as [[rs hdk unk] u f p h]. cbn in Hs. subst. reflexivity.
  - apply steps_one; [apply map_entry_nonempty | now apply input_redeem_parses].
Qed.

Lemma input_hd_steps `{Ext : Externals} (s : PSBTInput.t) (d : dict KeyOriginInfo.t) :
  PSBTInput.hd_keypaths s = [] -> hd_keypaths_wf d ->
  steps PSBTInput.deserialize_entry s (map (hd_entry PSBT_IN_BIP32_DERIVATION) d)
    (PSBTInput.set_hd_keypaths d s).
Proof.
  intros Hs (Hnd & Hall).
  replace s with (PSBTInput.set_hd_keypaths [] s) at 1
    by (destruct s as [[rs hdk unk] u f p h]; cbn in Hs; subst; reflexivity).
  apply (dict_steps PSBTInput.deserialize_entry PSBTInput.hd_keypaths
           PSBTInput.set_hd_keypaths (hd_entry PSBT_IN_BIP32_DERIVATION)
           (fun kv => pubkey_ok (fst kv) /\ keypath_wf (snd kv))); auto.
  - apply hd_entry_nonempty.
  - intros s0 [pk kp] (Hpk & Hkp) Hnew. now apply input_hd_parses.
Qed.

Lemma input_unknown_steps `{Ext : Externals} (s : PSBTInput.t) (d : dict bytes) :
  PSBTInput.unknown s = [] -> unknown_wf IN_KNOWN d ->
  steps PSBTInput.deserialize_entry s (map unknown_entry d) (PSBTInput.set_unknown d s).
Proof.
  intros Hs (Hnd & Hall).
  replace s with (PSBTInput.set_unknown [] s) at 1
    by (destruct s as [[rs hdk unk] u f p h]; cbn in Hs; subst; reflexivity).
  apply (dict_steps PSBTInput.deserialize_entry PSBTInput.unknown
           PSBTInput.set_unknown unknown_entry
           (fun kv => fits (fst kv) /\ fits (snd kv)
                      /\ match fst kv with
                         | [] => False
                         | b :: _ => ~ In (Z_of_byte b) IN_KNOWN
                         end)); auto.
  - apply unknown_entry_nonempty.
  - intros s0 [[|b ktl] val] (Hfk & Hfv & Hk) Hnew; [contradiction|].
    now apply input_unknown_parses.
Qed.

Lemma input_steps `{Ext : Externals} (i : PSBTInput.t) :
  input_wf i ->
  exists es,
    steps PSBTInput.deserialize_entry PSBTInput.default es (finalized_view i)
    /\ List.concat es ++ [x00] = input_bytes i.
Proof.
  intros (Hu & Hps & Hsh & Hrs & Hhd & Hfs & Hunk).
  destruct i as [[rs hdk unk] u fss psigs sh].
  unfold input_bytes, finalized_view. input_fields.
  pose proof (input_utxo_steps PSBTInput.default u eq_refl Hu) as S1.
  destruct fss as [|f0 fss]; cbn [truthy].
  - set (s1 := PSBTInput.set_utxo u PSBTInput.default) in *.
    pose proof (input_partial_sigs_steps s1 psigs eq_refl Hps) as S2.
    set (s2 := PSBTInput.set_partial_sigs psigs s1) in *.
    pose proof (input_sighash_steps s2 sh eq_refl Hsh) as S3.
    set (s3 := PSBTInput.set_sighash_type sh s2) in *.
    pose proof (input_redeem_steps s3 rs eq_refl Hrs) as S4.
    set (s4 := PSBTInput.set_redeem_script rs s3) in *.
    pose proof (input_hd_steps s4 hdk eq_refl Hhd) as S5.
    set (s5 := PSBTInput.set_hd_keypaths hdk s4) in *.
    pose proof (input_unknown_steps s5 unk eq_refl Hunk) as S6.
    eexists. split.
    + eapply steps_app; [exact S1|]. eapply steps_app; [exact S2|].
      eapply steps_app; [exact S3|]. eapply steps_app; [exact S4|].
      eapply steps_app; [exact S5|]. exact S6.
    + rewrite !concat_app, <- !app_assoc.
      destruct u; destruct (sh =? 0); destruct rs; cbn [truthy List.concat app];
        rewrite ?app_nil_r; reflexivity.
  - pose proof (steps_one PSBTInput.deserialize_entry _ _ _
                  (map_entry_nonempty (type_byte PSBT_IN_SCRIPTSIG) (f0 :: fss))
                  (input_final_parses (PSBTInput.set_utxo u PSBTInput.default) (f0 :: fss)
                     eq_refl Hfs)) as S2.
    pose proof (input_unknown_steps
                  (PSBTInput.set_final_script_sig (f0 :: fss)
                     (PSBTInput.set_utxo u PSBTInput.default)) unk eq_refl Hunk) as S3.
    eexists. split.
    + eapply steps_app; [exact S1|]. eapply steps_app; [exact S2|]. exact S3.
    + rewrite !concat_app, <- !app_assoc.
      destruct u; cbn [List.concat app]; rewrite ?app_nil_r; reflexivity.
Qed.

Lemma input_deserialize_parses `{Ext : Externals} (i0 i : PSBTInput.t) :
  input_wf i -> parses PSBTInput.deserialize i0 (input_bytes i) tt (finalized_view i).
Proof.
  intro Hwf. destruct (input_steps i Hwf) as (es & Hsteps & <-).
  unfold PSBTInput.deserialize.
  eapply parses_step; [apply (parses_update (fun _ => PSBTInput.default)) | | reflexivity].
  eapply while_more_steps; [exact Hsteps | apply input_separator_parses | discriminate].
Qed.

Lemma finalized_view_canonical (i : PSBTInput.t) :
  input_canonical i = true -> finalized_view i = i.
Proof.
  unfold input_canonical, finalized_view.
  destruct i as [[rs hdk unk] u fss psigs sh]. input_fields.
  destruct (truthy fss); cbn [negb orb]; [|reflexivity].
  intro H. apply andb_true_iff in H as [H H4]. apply andb_true_iff in H as [H H3].
  apply andb_true_iff in H as [H1 H2].
  apply Nat.eqb_eq in H1, H4. apply Z.eqb_eq in H2.
  apply negb_true_iff, truthy_false in H3.
  destruct psigs; [|discriminate H1]. destruct hdk; [|discriminate H4]. now subst.
Qed.

(** ** Lists of maps read in a counted loop that checks the stream *)

Section CheckedLoop.

Context {Self T : Type}.
Variable getf : Self -> list T.
Variable setf : list T -> Self -> Self.
Variable obj0 : T.
Variable deser : M (T * BCDataStream.t) unit.
Variable enc : T -> bytes.
Variable view : T -> T.
Variable wf : T -> Prop.
Variable err : exn.

Hypothesis get_set : forall l s, getf (setf l s) = l.
Hypothesis set_set : forall l l' s, setf l (setf l' s) = setf l s.

Let body : M (Self * BCDataStream.t) unit :=
  more <- on_stream BCDataStream.can_read_more ;;
  if negb more then raise err
  else
    x <- call_new obj0 deser ;;
    update (fun self => setf (getf self ++ [x]) self).

Lemma checked_body_parses (x : T) (self : Self) :
  enc x <> [] -> parses deser obj0 (enc x) tt (view x) ->
  parses body self (enc x) tt (setf (getf self ++ [view x]) self).
Proof.
  intros Hne Hp v rest Hv. unfold body.
  unfold bind at 1. unfold on_stream at 1. unfold BCDataStream.can_read_more.
  cbn [fst snd]. rewrite (has_more_app _ _ _ Hne Hv). cbn [negb].
  rewrite (bind_ok _ _ _ _ _ (parses_call_new _ _ _ self _ _ Hp v rest Hv)).
  reflexivity.
Qed.

Lemma checked_loop_parses (xs : list T) (self : Self) :
  (forall x, In x xs -> enc x <> [] /\ parses deser obj0 (enc x) tt (view x)) ->
  parses (repeat_n (List.length xs) body) self (List.concat (map enc xs)) tt
    (match xs with [] => self | _ => setf (getf self ++ map view xs) self end).
Proof.
  revert self. induction xs as [|x xs IH]; intros self Hx.
  - simpl. apply parses_ret.
  - cbn [List.length repeat_n map List.concat].
    destruct (Hx x (or_introl eq_refl)) as (Hne & Hp).
    eapply parses_step; [apply (checked_body_parses x self Hne Hp) | | reflexivity].
    cbv beta.
    replace (setf (getf self ++ view x :: map view xs) self)
      with (match xs with
            | [] => setf (getf self ++ [view x]) self
            | _ => setf (getf (setf (getf self ++ [view x]) self) ++ map view xs)
                     (setf (getf self ++ [view x]) self)
            end).
    + apply IH. intros y Hy. apply Hx. now right.
    + destruct xs as [|y ys]; [reflexivity|].
      rewrite get_set, set_set, <- app_assoc. reflexivity.
Qed.

Lemma checked_loop_inv (n : nat) (self self' : Self) (v v' : BCDataStream.t) :
  (forall x v1 v2, deser (obj0, v1) = (Ok tt, (x, v2)) -> wf x) ->
  repeat_n n body (self, v) = (Ok tt, (self', v')) ->
  exists xs,
    List.length xs = n /\ Forall wf xs
    /\ self' = match xs with [] => self | _ => setf (getf self ++ xs) self end.
Proof.
  intro Hd. revert self v. induction n as [|n IH]; intros self v H.
  - simpl in H. unfold ret in H. inversion H; subst. exists []. auto.
  - cbn [repeat_n] in H.
    apply bind_inv_ok in H as ([] & [s1 v1] & Hb & H).
    unfold body in Hb.
    apply bind_inv_ok in Hb as (more & [s2 v2] & Hm & Hb).
    apply on_stream_inv_ok in Hm as [Hm ->].
    destruct (negb more); [now apply raise_ok in Hb|].
    apply bind_inv_ok in Hb as (x & [s3 v3] & Hc & Hb).
    apply call_new_inv_ok in Hc as [([] & Hc) ->].
    apply update_inv in Hb as [_ Hb]. inversion Hb; subst s1 v1; clear Hb.
    apply Hd in Hc.
    apply IH in H as (xs & Hl & Hwf & Hs).
    exists (x :: xs). cbn [List.length]. split; [now rewrite Hl|].
    split; [now constructor|].
    subst self'. destruct xs as [|y ys]; [reflexivity|].
    rewrite get_set, set_set, <- app_assoc. reflexivity.
Qed.

Lemma checked_loop_raise_kind (n : nat) (s s' : Self * BCDataStream.t) (e : exn) :
  (forall s1 s2 e, deser s1 = (Raise e, s2) -> is_SerializationError e = true) ->
  is_SerializationError err = true ->
  repeat_n n body s = (Raise e, s') -> is_SerializationError e = true.
Proof.
  intros Hd Herr. revert s. induction n as [|n IH]; intros s H.
  - discriminate.
  - cbn [repeat_n] in H.
    apply bind_inv_raise in H as [H | (u & s1 & _ & H)]; [|eauto].
    unfold body in H.
    apply bind_inv_raise in H as [H | (more & s1 & _ & H)].
    + apply on_stream_raise in H as (? & H). discriminate H.
    + destruct (negb more); [apply raise_raise in H; now subst|].
      apply bind_inv_raise in H as [H | (x & s2 & _ & H)].
      * apply call_new_raise in H as (s2 & H). eauto.
      * apply update_raise in H. contradiction.
Qed.

(** The loop raises as soon as the stream is exhausted while a map is still
    expected. *)
Lemma checked_loop_exhausted (n : nat) (self : Self) (v : BCDataStream.t) :
  BCDataStream.has_more v = false ->
  repeat_n (S n) body (self, v) = (Raise err, (self, v)).
Proof.
  intro Hm. cbn [repeat_n]. unfold body, bind, on_stream, BCDataStream.can_read_more.
  cbn [fst snd]. rewrite Hm. reflexivity.
Qed.

End CheckedLoop.

(** ** The container, read *)

Lemma parses_state {Self A : Type} (m : M (Self * BCDataStream.t) A) (s s1 s2 : Self)
    (d : bytes) (a : A) :
  parses m s d a s1 -> s1 = s2 -> parses m s d a s2.
Proof. now intros H <-. Qed.

Lemma global_unknown_steps `{Ext : Externals} (s : PSBT.t) (d : dict bytes) :
  PSBT.unknown s = [] -> unknown_wf GLOBAL_KNOWN d ->
  steps PSBT.deserialize_global_entry s (map unknown_entry d) (PSBT.set_unknown d s).
Proof.
  intros Hs (Hnd & Hall).
  replace s with (PSBT.set_unknown [] s) at 1
    by (destruct s; cbn in Hs; subst; reflexivity).
  apply (dict_steps PSBT.deserialize_global_entry PSBT.unknown
           PSBT.set_unknown unknown_entry
           (fun kv => fits (fst kv) /\ fits (snd kv)
                      /\ match fst kv with
                         | [] => False
                         | b :: _ => ~ In (Z_of_byte b) GLOBAL_KNOWN
                         end)); auto.
  - apply unknown_entry_nonempty.
  - intros s0 [[|b ktl] val] (Hfk & Hfv & Hk) Hnew; [contradiction|].
    now apply global_unknown_parses.
Qed.

Lemma global_steps `{Ext : Externals} (tx : CMutableTransaction.t) (U : dict bytes) :
  tx_wf tx -> fits (tx_bytes tx) -> unsigned tx -> unknown_wf GLOBAL_KNOWN U ->
  steps PSBT.deserialize_global_entry PSBT.default
    (map_entry (type_byte PSBT_GLOBAL_UNSIGNED_TX) (tx_bytes tx) :: map unknown_entry U)
    (PSBT.mk (Some tx) [] [] U).
Proof.
  intros Hwf Hfit Hu HU.
  apply steps_cons with (s1 := PSBT.set_tx (Some tx) PSBT.default).
  - apply map_entry_nonempty.
  - now apply global_tx_parses.
  - apply (global_unknown_steps (PSBT.set_tx (Some tx) PSBT.default) U eq_refl HU).
Qed.

Lemma input_bytes_nonempty `{Ext : Externals} (i : PSBTInput.t) : input_bytes i <> [].
Proof.
  unfold input_bytes. intro E.
  apply app_eq_nil in E as [_ E]. apply app_eq_nil in E as [_ E].
  apply app_eq_nil in E as [_ E]. discriminate E.
Qed.

Lemma output_bytes_nonempty `{Ext : Externals} (o : PSBTOutput.t) : output_bytes o <> [].
Proof.
  unfold output_bytes. intro E.
  apply app_eq_nil in E as [_ E]. apply app_eq_nil in E as [_ E].
  apply app_eq_nil in E as [_ E]. discriminate E.
Qed.

Lemma psbt_deserialize_stream_parses `{Ext : Externals} (self p : PSBT.t) :
  psbt_wf p ->
  parses PSBT.deserialize_stream self (psbt_bytes p) tt
    (PSBT.set_inputs (map finalized_view (PSBT.inputs p)) p).
Proof.
  intros (Htx & Hunk & Hins & Houts).
  destruct p as [[tx|] ins outs U]; [|contradiction].
  cbn [PSBT.tx PSBT.inputs PSBT.outputs PSBT.unknown PSBT.set_inputs] in *.
  destruct Htx as (Hwtx & Hftx & Hu & Hni & Hno).
  unfold PSBT.deserialize_stream, psbt_bytes.
  cbn [PSBT.tx PSBT.inputs PSBT.outputs PSBT.unknown].
  eapply parses_step;
    [apply parses_on_stream; apply (read_bytes_fixed_reads PSBT_MAGIC_BYTES false) | |
     reflexivity].
  rewrite bytes_eqb_refl. cbn [negb].
  eapply parses_step;
    [apply (parses_update (fun _ => PSBT.default)) | | reflexivity].
  eapply parses_step with (d1 := global_bytes tx U); [| | reflexivity].
  { unfold global_bytes. rewrite app_assoc.
    change (map_entry (type_byte PSBT_GLOBAL_UNSIGNED_TX) (tx_bytes tx)
            ++ List.concat (map unknown_entry U))
      with (List.concat (map_entry (type_byte PSBT_GLOBAL_UNSIGNED_TX) (tx_bytes tx)
                         :: map unknown_entry U)).
    eapply while_more_steps;
      [now apply global_steps | apply global_separator_parses | discriminate]. }
  eapply parses_step; [apply parses_this | | reflexivity].
  cbn [PSBT.tx]. rewrite <- Hni, <- Hno.
  eapply parses_step with (d1 := List.concat (map input_bytes ins)); [| | reflexivity].
  { apply (checked_loop_parses PSBT.inputs PSBT.set_inputs PSBTInput.default
             PSBTInput.deserialize input_bytes finalized_view); auto.
    intros i Hin. split; [apply input_bytes_nonempty|].
    apply input_deserialize_parses. rewrite Forall_forall in Hins. now apply Hins. }
  eapply parses_state.
  { apply (checked_loop_parses PSBT.outputs PSBT.set_outputs PSBTOutput.default
             PSBTOutput.deserialize output_bytes (fun o => o)); auto.
    intros o Hin. split; [apply output_bytes_nonempty|].
    apply output_deserialize_parses. rewrite Forall_forall in Houts. now apply Houts. }
  rewrite map_id. destruct ins, outs; reflexivity.
Qed.

Lemma global_entry_shape `{Ext : Externals} (s s' : PSBT.t) (v v' : BCDataStream.t)
    (b : bool) :
  PSBT.deserialize_global_entry (s, v) = (Ok b, (s', v')) ->
  (b = false /\ s' = s /\ BCDataStream.remaining v = x00 :: BCDataStream.remaining v')
  \/ (b = true
      /\ exists key val,
           key <> [] /\ fits key /\ fits val
           /\ BCDataStream.remaining v = map_entry key val ++ BCDataStream.remaining v'
           /\ (global_wf s /\ PSBT.inputs s = [] /\ PSBT.outputs s = [] ->
               global_wf s' /\ PSBT.inputs s' = [] /\ PSBT.outputs s' = [])).
Proof.
  intro H. apply global_entry_inv in H as [H | (Hb & key & val & Hne & Hfk & Hfv & Hr & Hi & Ho & Hw)];
    [now left|].
  right. split; [exact Hb|]. exists key, val.
  split; [exact Hne|]. split; [exact Hfk|]. split; [exact Hfv|]. split; [exact Hr|].
  intros (Hg & Hi0 & Ho0). split; [now apply Hw|]. split; congruence.
Qed.

Lemma psbt_deserialize_stream_wf `{Ext : Externals} (self p : PSBT.t)
    (v v' : BCDataStream.t) :
  PSBT.deserialize_stream (self, v) = (Ok tt, (p, v')) -> psbt_wf p.
Proof.
  unfold PSBT.deserialize_stream. intro H.
  step_stream H magic s1 v1 H1. clear H1.
  destruct (negb (bytes_eqb magic PSBT_MAGIC_BYTES)); [now apply raise_ok in H|].
  step_update H.
  step_ok H u s2 Hloop. destruct s2 as [g v2]. destruct u.
  apply (while_more_inv PSBT.deserialize_global_entry
           (fun s => global_wf s /\ PSBT.inputs s = [] /\ PSBT.outputs s = [])) in Hloop.
  - destruct Hloop as ((Htx & Hunk) & Hi0 & Ho0).
    step_this H g0.
    destruct (PSBT.tx g) as [tx|] eqn:Etx; [|now apply raise_ok in H].
    step_ok H u s3 Hin. destruct s3 as [g1 v3]. destruct u.
    apply (checked_loop_inv PSBT.inputs PSBT.set_inputs PSBTInput.default
             PSBTInput.deserialize input_wf) in Hin as (xs & Hlx & Hwx & ->);
      [| reflexivity | reflexivity
       | intros x w1 w2 Hd; exact (input_deserialize_wf _ _ _ _ Hd)].
    apply (checked_loop_inv PSBT.outputs PSBT.set_outputs PSBTOutput.default
             PSBTOutput.deserialize output_wf) in H as (ys & Hly & Hwy & ->);
      [| reflexivity | reflexivity
       | intros x w1 w2 Hd; exact (output_deserialize_wf _ _ _ _ Hd)].
    destruct g as [gtx gins gouts gunk].
    cbn [PSBT.tx PSBT.inputs PSBT.outputs PSBT.unknown] in *. subst gtx gins gouts.
    destruct Htx as (Hwtx & Hftx & Hu).
    destruct xs as [|x xs]; destruct ys as [|y ys];
      cbn [PSBT.tx PSBT.inputs PSBT.outputs PSBT.unknown PSBT.set_inputs PSBT.set_outputs
           app] in *;
      (split; [split; [exact Hwtx|]; split; [exact Hftx|]; split; [exact Hu|];
               split; assumption
              | split; [exact Hunk|]; split; assumption]).
  - intros s w b s' w' Hb. now apply global_entry_shape.
  - split; [split; [exact I | split; constructor] | split; reflexivity].
Qed.

Lemma psbt_deserialize_stream_raise_kind `{Ext : Externals} (s s' : PSBT.t * BCDataStream.t)
    (e : exn) :
  PSBT.deserialize_stream s = (Raise e, s') -> is_SerializationError e = true.
Proof.
  unfold PSBT.deserialize_stream. intro H.
  apply bind_inv_raise in H as [H | (magic & s1 & _ & H)].
  { apply on_stream_raise in H as (? & H). eauto with raises. }
  destruct (negb (bytes_eqb magic PSBT_MAGIC_BYTES)); [apply raise_raise in H; now subst|].
  apply bind_inv_raise in H as [H | (u & s2 & _ & H)]; [now apply update_raise in H|].
  apply bind_inv_raise in H as [H | (u' & s3 & _ & H)].
  { apply (while_more_raise_kind PSBT.deserialize_global_entry
             (fun s => global_wf s /\ PSBT.inputs s = [] /\ PSBT.outputs s = [])) in H;
      [exact H | |].
    - intros s0 w b s0' w' Hb. now apply global_entry_shape.
    - intros s0 e0 s0'. apply global_entry_raise_kind. }
  apply bind_inv_raise in H as [H | (g & s4 & _ & H)]; [now apply this_raise in H|].
  destruct (PSBT.tx g) as [tx|]; [|apply raise_raise in H; now subst].
  apply bind_inv_raise in H as [H | (u'' & s5 & _ & H)].
  - apply (checked_loop_raise_kind PSBT.inputs PSBT.set_inputs) in H; [exact H | | reflexivity].
    intros s6 s7 e0. apply input_deserialize_raise_kind.
  - apply (checked_loop_raise_kind PSBT.outputs PSBT.set_outputs) in H;
      [exact H | | reflexivity].
    intros s6 s7 e0. apply output_deserialize_raise_kind.
Qed.

(** The bounded loops of the model never run out of fuel: [PSBT.deserialize]
    raises what the Python code raises. *)
Lemma PSBT_loops_total `{Ext : Externals} (src : PSBT.source) (is_hex : bool)
    (self self' : PSBT.t) (e : exn) :
  PSBT.deserialize src is_hex self = (Raise e, self') ->
  is_SerializationError e = true /\ e <> FuelExhausted.
Proof.
  intro H.
  assert (is_SerializationError e = true) as Hk.
  { unfold PSBT.deserialize in H.
    destruct src as [b | str | w].
    - destruct (PSBT.deserialize_stream (self, BCDataStream.new b)) as [r [p w']] eqn:Hd.
      inversion H; subst. now apply psbt_deserialize_stream_raise_kind in Hd.
    - destruct is_hex.
      + destruct (bytes_fromhex str) as [b|]; [|inversion H; reflexivity].
        destruct (PSBT.deserialize_stream (self, BCDataStream.new b)) as [r [p w']] eqn:Hd.
        inversion H; subst. now apply psbt_deserialize_stream_raise_kind in Hd.
      + destruct (a2b_base64 str) as [b|]; [|inversion H; reflexivity].
        destruct (PSBT.deserialize_stream (self, BCDataStream.new b)) as [r [p w']] eqn:Hd.
        inversion H; subst. now apply psbt_deserialize_stream_raise_kind in Hd.
    - destruct (PSBT.deserialize_stream (self, w)) as [r [p w']] eqn:Hd.
      inversion H; subst. now apply psbt_deserialize_stream_raise_kind in Hd. }
  split; [exact Hk|]. intros ->. discriminate Hk.
Qed.

Lemma psbt_deserialize_wf `{Ext : Externals} (src : PSBT.source) (is_hex : bool)
    (self p : PSBT.t) :
  PSBT.deserialize src is_hex self = (Ok tt, p) -> psbt_wf p.
Proof.
  unfold PSBT.deserialize. intro H.
  destruct src as [b | str | w].
  - destruct (PSBT.deserialize_stream (self, BCDataStream.new b)) as [r [q w']] eqn:Hd.
    inversion H; subst. now apply psbt_deserialize_stream_wf in Hd.
  - destruct is_hex.
    + destruct (bytes_fromhex str) as [b|]; [|discriminate H].
      destruct (PSBT.deserialize_stream (self, BCDataStream.new b)) as [r [q w']] eqn:Hd.
      inversion H; subst. now apply psbt_deserialize_stream_wf in Hd.
    + destruct (a2b_base64 str) as [b|]; [|discriminate H].
      destruct (PSBT.deserialize_stream (self, BCDataStream.new b)) as [r [q w']] eqn:Hd.
      inversion H; subst. now apply psbt_deserialize_stream_wf in Hd.
  - destruct (PSBT.deserialize_stream (self, w)) as [r [q w']] eqn:Hd.
    inversion H; subst. now apply psbt_deserialize_stream_wf in Hd.
Qed.

(** ** Hex text *)

Lemma bytes_fromhex_byte (b : byte) (rest : string) :
  bytes_fromhex
    (String (hex_digit (Z_of_byte b / 16)) (String (hex_digit (Z_of_byte b mod 16)) rest))
  = match bytes_fromhex rest with
    | Some tl => Some (b :: tl)
    | None => None
    end.
Proof. destruct b; reflexivity. Qed.

Lemma bytes_fromhex_hex (bs : bytes) : bytes_fromhex (bytes_hex bs) = Some bs.
Proof.
  induction bs as [|b bs IH]; [reflexivity|].
  cbn [bytes_hex]. now rewrite bytes_fromhex_byte, IH.
Qed.

Lemma length_bytes_hex (bs : bytes) :
  String.length (bytes_hex bs) = (2 * List.length bs)%nat.
Proof.
  induction bs as [|b bs IH]; [reflexivity|].
  cbn [bytes_hex String.length List.length]. rewrite IH. lia.
Qed.

Lemma finalized_views_canonical (ins : list PSBTInput.t) :
  forallb input_canonical ins = true -> map finalized_view ins = ins.
Proof.
  induction ins as [|i ins IH]; [reflexivity|].
  cbn [forallb map]. intro H. apply andb_true_iff in H as [Hi H].
  now rewrite (finalized_view_canonical i Hi), (IH H).
Qed.

Lemma psbt_canonical_view (p : PSBT.t) :
  psbt_canonical p = true ->
  PSBT.set_inputs (map finalized_view (PSBT.inputs p)) p = p.
Proof.
  unfold psbt_canonical. intro H. rewrite (finalized_views_canonical _ H).
  now destruct p.
Qed.

Lemma psbt_deserialize_bytes `{Ext : Externals} (self p : PSBT.t) (rest : bytes) :
  psbt_wf p ->
  PSBT.deserialize (PSBT.FromBytes (psbt_bytes p ++ rest)) false self
  = (Ok tt, PSBT.set_inputs (map finalized_view (PSBT.inputs p)) p).
Proof.
  intro Hwf. unfold PSBT.deserialize.
  now rewrite (psbt_deserialize_stream_parses self p Hwf
                 (BCDataStream.new (psbt_bytes p ++ rest)) rest (remaining_new _)).
Qed.

Lemma psbt_deserialize_hex `{Ext : Externals} (self p : PSBT.t) :
  psbt_wf p ->
  PSBT.deserialize (PSBT.FromStr (bytes_hex (psbt_bytes p))) true self
  = (Ok tt, PSBT.set_inputs (map finalized_view (PSBT.inputs p)) p).
Proof.
  intro Hwf. unfold PSBT.deserialize. rewrite bytes_fromhex_hex.
  rewrite (psbt_deserialize_stream_parses self p Hwf
             (BCDataStream.new (psbt_bytes p)) []); [reflexivity|].
  now rewrite remaining_new, app_nil_r.
Qed.

Lemma psbt_serialize_hex `{Ext : Externals} (p : PSBT.t) :
  psbt_wf p ->
  PSBT.serialize p None true
  = (Ok (Some (bytes_hex (psbt_bytes p))), BCDataStream.new (psbt_bytes p)).
Proof.
  intro Hwf. unfold PSBT.serialize.
  now rewrite (psbt_serialize_writes p Hwf (BCDataStream.new [])).
Qed.

(** ** Fewer maps in the stream than the loop asks for *)

Section ShortLoop.

Context {Self T : Type}.
Variable getf : Self -> list T.
Variable setf : list T -> Self -> Self.
Variable obj0 : T.
Variable deser : M (T * BCDataStream.t) unit.
Variable err : exn.

Hypothesis deser_exact :
  forall v es rest,
    entries_wf es -> BCDataStream.remaining v = encoded_map es ++ rest ->
    (exists e st', deser (obj0, v) = (Raise e, st') /\ is_SerializationError e = true)
    \/ (exists x v', deser (obj0, v) = (Ok tt, (x, v')) /\ BCDataStream.remaining v' = rest).
Hypothesis err_kind : is_SerializationError err = true.

Let body : M (Self * BCDataStream.t) unit :=
  more <- on_stream BCDataStream.can_read_more ;;
  if negb more then raise err
  else
    x <- call_new obj0 deser ;;
    update (fun self => setf (getf self ++ [x]) self).

Lemma short_loop_turn (n : nat) (self : Self) (v : BCDataStream.t)
    (es : list (bytes * bytes)) (rest : bytes) :
  entries_wf es -> BCDataStream.remaining v = encoded_map es ++ rest ->
  (exists e st', repeat_n (S n) body (self, v) = (Raise e, st')
                 /\ is_SerializationError e = true)
  \/ (exists self' v', repeat_n (S n) body (self, v) = repeat_n n body (self', v')
                       /\ BCDataStream.remaining v' = rest).
Proof.
  intros Hwf Hv.
  assert (BCDataStream.has_more v = true) as Hm.
  { rewrite has_more_truthy, Hv. pose proof (length_encoded_map es) as Hl.
    destruct (encoded_map es); [simpl in Hl; lia | reflexivity]. }
  destruct (deser_exact v es rest Hwf Hv) as [(e & [o v'] & Hd & He) | (x & v' & Hd & Hr)].
  - left. exists e, (self, v'). split; [|exact He].
    cbn [repeat_n]. apply bind_raise.
    unfold body, bind, on_stream, call_new, BCDataStream.can_read_more.
    cbn [fst snd]. rewrite Hm. cbn [negb fst snd]. rewrite Hd. reflexivity.
  - right. exists (setf (getf self ++ [x]) self), v'. split; [|exact Hr].
    cbn [repeat_n].
    rewrite (bind_ok _ _ _ (setf (getf self ++ [x]) self, v') tt); [reflexivity|].
    unfold body, bind, on_stream, call_new, update, BCDataStream.can_read_more.
    cbn [fst snd]. rewrite Hm. cbn [negb fst snd]. rewrite Hd. reflexivity.
Qed.

Lemma short_loop_maps (maps : list (list (bytes * bytes))) (n : nat) (self : Self)
    (v : BCDataStream.t) (rest : bytes) :
  Forall entries_wf maps ->
  BCDataStream.remaining v = List.concat (map encoded_map maps) ++ rest ->
  (n <= List.length maps)%nat ->
  (exists e st', repeat_n n body (self, v) = (Raise e, st')
                 /\ is_SerializationError e = true)
  \/ (exists self' v',
        repeat_n n body (self, v) = (Ok tt, (self', v'))
        /\ BCDataStream.remaining v' = List.concat (map encoded_map (skipn n maps)) ++ rest).
Proof.
  intro Hall. revert n self v.
  induction Hall as [|es maps Hes _ IH]; intros n self v Hv Hn.
  - destruct n; [|simpl in Hn; lia]. right. exists self, v. split; [reflexivity | exact Hv].
  - destruct n as [|n].
    + right. exists self, v. split; [reflexivity | exact Hv].
    + cbn [map List.concat] in Hv. rewrite <- app_assoc in Hv.
      destruct (short_loop_turn n self v es _ Hes Hv) as [H | (s1 & v1 & -> & Hv1)];
        [now left|].
      cbn [skipn]. apply IH; [exact Hv1 | simpl in Hn; lia].
Qed.

Lemma short_loop_raises (maps : list (list (bytes * bytes))) (n : nat) (self : Self)
    (v : BCDataStream.t) :
  Forall entries_wf maps ->
  BCDataStream.remaining v = List.concat (map encoded_map maps) ->
  (List.length maps < n)%nat ->
  exists e st', repeat_n n body (self, v) = (Raise e, st')
                /\ is_SerializationError e = true.
Proof.
  intro Hall. revert n self v.
  induction Hall as [|es maps Hes _ IH]; intros n self v Hv Hn.
  - destruct n as [|n]; [simpl in Hn; lia|].
    exists err, (self, v). split; [|exact err_kind].
    cbn [repeat_n]. unfold body, bind, on_stream, BCDataStream.can_read_more.
    cbn [fst snd]. rewrite has_more_truthy, Hv. reflexivity.
  - destruct n as [|n]; [simpl in Hn; lia|].
    cbn [map List.concat] in Hv.
    destruct (short_loop_turn n self v es _ Hes Hv) as [H | (s1 & v1 & -> & Hv1)];
      [exact H|].
    apply IH; [exact Hv1 | simpl in Hn; lia].
Qed.

End ShortLoop.

Lemma psbt_deserialize_stream_short `{Ext : Externals} (self : PSBT.t)
    (tx : CMutableTransaction.t) (U : dict bytes) (maps : list (list (bytes * bytes)))
    (v : BCDataStream.t) :
  tx_wf tx -> fits (tx_bytes tx) -> unsigned tx -> unknown_wf GLOBAL_KNOWN U ->
  Forall entries_wf maps ->
  (List.length maps
   < List.length (CMutableTransaction.vin tx) + List.length (CMutableTransaction.vout tx))%nat ->
  BCDataStream.remaining v
  = PSBT_MAGIC_BYTES ++ global_bytes tx U ++ List.concat (map encoded_map maps) ->
  exists e st', PSBT.deserialize_stream (self, v) = (Raise e, st')
                /\ is_SerializationError e = true.
Proof.
  intros Hwtx Hftx Hu HU Hall Hlen Hv.
  unfold PSBT.deserialize_stream.
  rewrite (bind_ok _ _ _ _ _
             (parses_on_stream _ self _ _
                (read_bytes_fixed_reads PSBT_MAGIC_BYTES false) v _ Hv)).
  rewrite bytes_eqb_refl. cbn [negb].
  unfold bind at 1. unfold update at 1. cbn [fst snd].
  set (v1 := BCDataStream.advance (List.length PSBT_MAGIC_BYTES) v).
  assert (BCDataStream.remaining v1
          = global_bytes tx U ++ List.concat (map encoded_map maps)) as Hv1.
  { unfold v1. exact (remaining_consumed v PSBT_MAGIC_BYTES _ Hv). }
  assert (parses (while_more PSBT.deserialize_global_entry) PSBT.default
            (global_bytes tx U) tt (PSBT.mk (Some tx) [] [] U)) as Hg.
  { unfold global_bytes. rewrite app_assoc.
    change (map_entry (type_byte PSBT_GLOBAL_UNSIGNED_TX) (tx_bytes tx)
            ++ List.concat (map unknown_entry U))
      with (List.concat (map_entry (type_byte PSBT_GLOBAL_UNSIGNED_TX) (tx_bytes tx)
                         :: map unknown_entry U)).
    eapply while_more_steps;
      [now apply global_steps | apply global_separator_parses | discriminate]. }
  rewrite (bind_ok _ _ _ _ _ (Hg v1 _ Hv1)).
  set (v2 := BCDataStream.advance (List.length (global_bytes tx U)) v1).
  assert (BCDataStream.remaining v2 = List.concat (map encoded_map maps)) as Hv2.
  { unfold v2. exact (remaining_consumed v1 (global_bytes tx U) _ Hv1). }
  unfold bind at 1. unfold this at 1. cbn [fst snd PSBT.tx].
  destruct (Nat.lt_ge_cases (List.length maps) (List.length (CMutableTransaction.vin tx)))
    as [Hshort | Hlong].
  - destruct (short_loop_raises PSBT.inputs PSBT.set_inputs PSBTInput.default
                PSBTInput.deserialize
                (mkPSBTSerializationError
                   "Inputs provided does not match the number of inputs in transaction.")
                (fun w es rest => input_deserialize_exact PSBTInput.default w es rest)
                eq_refl maps _ (PSBT.mk (Some tx) [] [] U) v2 Hall Hv2 Hshort)
      as (e & st' & Hr & He).
    exists e, st'. split; [|exact He]. now apply bind_raise.
  - rewrite <- (app_nil_r (List.concat (map encoded_map maps))) in Hv2.
    destruct (short_loop_maps PSBT.inputs PSBT.set_inputs PSBTInput.default
                PSBTInput.deserialize
                (mkPSBTSerializationError
                   "Inputs provided does not match the number of inputs in transaction.")
                (fun w es rest => input_deserialize_exact PSBTInput.default w es rest)
                maps _ (PSBT.mk (Some tx) [] [] U) v2 [] Hall Hv2 Hlong)
      as [(e & st' & Hr & He) | (s3 & v3 & Hr & Hv3)].
    + exists e, st'. split; [|exact He]. now apply bind_raise.
    + rewrite (bind_ok _ _ _ _ _ Hr). rewrite app_nil_r in Hv3.
      apply (short_loop_raises PSBT.outputs PSBT.set_outputs PSBTOutput.default
               PSBTOutput.deserialize
               (mkPSBTSerializationError
                  "Outputs provided does not match the number of inputs in transaction.")
               (fun w es rest => output_deserialize_exact PSBTOutput.default w es rest)
               eq_refl (skipn (List.length (CMutableTransaction.vin tx)) maps) _ s3 v3).
      * rewrite <- (firstn_skipn (List.length (CMutableTransaction.vin tx)) maps) in Hall.
        apply Forall_app in Hall as [_ Hall]. exact Hall.
      * exact Hv3.
      * rewrite length_skipn. lia.
Qed.

(** ** Equality of the transaction types *)

Lemma list_eqb_eq {A : Type} (eqb : A -> A -> bool) (l1 l2 : list A) :
  (forall x y, eqb x y = true <-> x = y) ->
  list_eqb eqb l1 l2 = true <-> l1 = l2.
Proof.
  intro Heq. revert l2. induction l1 as [|x l1 IH]; intros [|y l2]; simpl;
    try (split; [discriminate | discriminate]); [tauto|].
  rewrite andb_true_iff, Heq, IH. split; [intros [-> ->]; reflexivity|].
  intro H. inversion H. auto.
Qed.

Lemma option_eqb_eq {A : Type} (eqb : A -> A -> bool) (o1 o2 : option A) :
  (forall x y, eqb x y = true <-> x = y) ->
  option_eqb eqb o1 o2 = true <-> o1 = o2.
Proof.
  intro Heq. destruct o1 as [x|], o2 as [y|]; simpl;
    try (split; [discriminate | discriminate]); [|tauto].
  rewrite Heq. split; [now intros -> | now intros [= ->]].
Qed.

Lemma OutputData_eqb_eq (a b : OutputData.t) : OutputData.eqb a b = true <-> a = b.
Proof.
  destruct a as [i1 b1 a1 c1], b as [i2 b2 a2 c2]. unfold OutputData.eqb.
  cbn [OutputData.id OutputData.bitfield OutputData.amount OutputData.commitment].
  rewrite !andb_true_iff, !bytes_eqb_eq, !Z.eqb_eq.
  split; [intros [[[-> ->] ->] ->]; reflexivity|].
  intro H. inversion H. auto.
Qed.

Lemma uint256_eqb_eq (a b : uint256.t) : uint256.eqb a b = true <-> a = b.
Proof.
  destruct a as [d1], b as [d2]. unfold uint256.eqb. cbn [uint256.data].
  rewrite bytes_eqb_eq. split; [now intros -> | now intros [= ->]].
Qed.

Lemma COutPoint_eqb_eq (a b : COutPoint.t) : COutPoint.eqb a b = true <-> a = b.
Proof.
  destruct a as [t1 n1], b as [t2 n2]. unfold COutPoint.eqb.
  cbn [COutPoint.txid COutPoint.n].
  rewrite andb_true_iff, uint256_eqb_eq, Z.eqb_eq.
  split; [intros [-> ->]; reflexivity|].
  intro H. inversion H. auto.
Qed.

Lemma CTxIn_eqb_eq (a b : CTxIn.t) : CTxIn.eqb a b = true <-> a = b.
Proof.
  destruct a as [p1 s1 q1], b as [p2 s2 q2]. unfold CTxIn.eqb.
  cbn [CTxIn.prevout CTxIn.script_sig CTxIn.sequence].
  rewrite !andb_true_iff, COutPoint_eqb_eq, bytes_eqb_eq, Z.eqb_eq.
  split; [intros [[-> ->] ->]; reflexivity|].
  intro H. inversion H. auto.
Qed.

Lemma CTxOut_eqb_eq (a b : CTxOut.t) : CTxOut.eqb a b = true <-> a = b.
Proof.
  destruct a as [v1 s1 t1], b as [v2 s2 t2]. unfold CTxOut.eqb.
  cbn [CTxOut.value CTxOut.script_pub_key CTxOut.token_data].
  rewrite !andb_true_iff, Z.eqb_eq, bytes_eqb_eq, (option_eqb_eq _ _ _ OutputData_eqb_eq).
  split; [intros [[-> ->] ->]; reflexivity|].
  intro H. inversion H. auto.
Qed.

Lemma CMutableTransaction_eqb_eq (a b : CMutableTransaction.t) :
  CMutableTransaction.eqb a b = true <-> a = b.
Proof.
  destruct a as [i1 o1 v1 l1], b as [i2 o2 v2 l2]. unfold CMutableTransaction.eqb.
  cbn [CMutableTransaction.vin CMutableTransaction.vout CMutableTransaction.version
       CMutableTransaction.locktime].
  rewrite !andb_true_iff, (list_eqb_eq _ _ _ CTxIn_eqb_eq),
    (list_eqb_eq _ _ _ CTxOut_eqb_eq), !Z.eqb_eq.
  split; [intros [[[-> ->] ->] ->]; reflexivity|].
  intro H. inversion H. auto.
Qed.

(** * Further properties of the codec *)

(** ** Transaction entities ([bitcoin_types.py]) *)

(** X1.  A transaction input whose attributes are within their types (a
    32-byte identifier, index and sequence in uint32, a script short enough
    for a compact size) is written by [CTxIn.serialize] as identifier,
    index, script vector, sequence, whatever the stream held; and
    [CTxIn.deserialize] reads these bytes back into the same input,
    whatever the receiver held and whatever follows them, consuming them
    and nothing more. *)
Theorem X1_CTxIn_round_trip (i i0 : CTxIn.t) :
  txin_wf i ->
  writes (CTxIn.serialize i) (txin_bytes i)
  /\ parses CTxIn.deserialize i0 (txin_bytes i) tt i.
Proof.
  intro Hwf. split.
  - now apply CTxIn_serialize_writes.
  - now apply CTxIn_deserialize_parses.
Qed.

Lemma X1_CTxIn_round_trip_witness :
  txin_wf CTxIn.default
  /\ writes (CTxIn.serialize CTxIn.default) (txin_bytes CTxIn.default)
  /\ parses CTxIn.deserialize (CTxIn.mk COutPoint.default [x01] 7)
       (txin_bytes CTxIn.default) tt CTxIn.default.
Proof.
  assert (txin_wf CTxIn.default) as Hwf.
  { unfold txin_wf, fits. cbn. repeat split; try lia; discriminate. }
  split; [exact Hwf|].
  apply (X1_CTxIn_round_trip CTxIn.default (CTxIn.mk COutPoint.default [x01] 7) Hwf).
Defined.

(** X2.  A transaction output with a value in int64 and token data that
    satisfy the token invariants (or, without token data, a script that
    does not unwrap to token data) is written by [CTxOut.serialize] as the
    value and the wrapped locking script, and [CTxOut.deserialize] reads
    these bytes back into the same output: value, token data and script. *)
Theorem X2_CTxOut_round_trip `{Ext : Externals} (o o0 : CTxOut.t) :
  txout_wf o ->
  writes (CTxOut.serialize o) (txout_bytes o)
  /\ parses CTxOut.deserialize o0 (txout_bytes o) tt o.
Proof.
  intro Hwf. split.
  - now apply CTxOut_serialize_writes.
  - now apply CTxOut_deserialize_parses.
Qed.

Lemma X2_CTxOut_round_trip_witness :
  @txout_wf test_externals (CTxOut.mk 1 [x51] (Some OutputData.default))
  /\ writes (@CTxOut.serialize test_externals (CTxOut.mk 1 [x51] (Some OutputData.default)))
       (@txout_bytes test_externals (CTxOut.mk 1 [x51] (Some OutputData.default)))
  /\ parses (@CTxOut.deserialize test_externals) CTxOut.default
       (@txout_bytes test_externals (CTxOut.mk 1 [x51] (Some OutputData.default))) tt
       (CTxOut.mk 1 [x51] (Some OutputData.default)).
Proof.
  assert (@txout_wf test_externals (CTxOut.mk 1 [x51] (Some OutputData.default))) as Hwf.
  { unfold txout_wf, token_on_wire, fits. cbn. repeat split; try lia; discriminate. }
  split; [exact Hwf|].
  apply (@X2_CTxOut_round_trip test_externals _ CTxOut.default Hwf).
Defined.

(** X3.  For a transaction within its types, [bytes(tx)] is version,
    input count, inputs, output count, outputs, locktime; [serialize]
    appends exactly these bytes to any stream; and [deserialize] reads them
    back into the same transaction, whatever the receiver held. *)
Theorem X3_CMutableTransaction_round_trip `{Ext : Externals}
    (tx tx0 : CMutableTransaction.t) :
  tx_wf tx ->
  CMutableTransaction.__bytes__ tx = Ok (tx_bytes tx)
  /\ writes (CMutableTransaction.serialize tx) (tx_bytes tx)
  /\ parses CMutableTransaction.deserialize tx0 (tx_bytes tx) tt tx.
Proof.
  intro Hwf. pose proof (CMutableTransaction_serialize_writes tx Hwf) as Hw.
  split; [|split].
  - unfold CMutableTransaction.__bytes__. now rewrite (writes_written_by _ _ tt Hw).
  - exact Hw.
  - now apply CMutableTransaction_deserialize_parses.
Qed.

Lemma X3_CMutableTransaction_round_trip_witness :
  @tx_wf test_externals (CMutableTransaction.mk [CTxIn.default] [CTxOut.mk 1 [x51] None] 2 0)
  /\ @CMutableTransaction.__bytes__ test_externals
       (CMutableTransaction.mk [CTxIn.default] [CTxOut.mk 1 [x51] None] 2 0)
     = Ok (@tx_bytes test_externals
             (CMutableTransaction.mk [CTxIn.default] [CTxOut.mk 1 [x51] None] 2 0))
  /\ writes (@CMutableTransaction.serialize test_externals
               (CMutableTransaction.mk [CTxIn.default] [CTxOut.mk 1 [x51] None] 2 0))
       (@tx_bytes test_externals
          (CMutableTransaction.mk [CTxIn.default] [CTxOut.mk 1 [x51] None] 2 0))
  /\ parses (@CMutableTransaction.deserialize test_externals) CMutableTransaction.default
       (@tx_bytes test_externals
          (CMutableTransaction.mk [CTxIn.default] [CTxOut.mk 1 [x51] None] 2 0)) tt
       (CMutableTransaction.mk [CTxIn.default] [CTxOut.mk 1 [x51] None] 2 0).
Proof.
  assert (@tx_wf test_externals
            (CMutableTransaction.mk [CTxIn.default] [CTxOut.mk 1 [x51] None] 2 0)) as Hwf.
  { unfold tx_wf. cbn [CMutableTransaction.version CMutableTransaction.vin
                       CMutableTransaction.vout CMutableTransaction.locktime].
    split; [lia|]. split.
    { constructor; [|constructor]. unfold txin_wf, fits. cbn.
      repeat split; try lia; discriminate. }
    split; [cbn; lia|]. split.
    { constructor; [|constructor]. unfold txout_wf, fits. cbn.
      repeat split; try lia; discriminate. }
    split; [cbn; lia | lia]. }
  split; [exact Hwf|].
  apply (@X3_CMutableTransaction_round_trip test_externals _ CMutableTransaction.default Hwf).
Defined.

(** X4.  Whatever [CMutableTransaction.deserialize] accepts is canonical:
    the transaction it yields is within its types, and serializing it
    writes exactly the bytes the parse consumed. *)
Theorem X4_CMutableTransaction_decode_encode `{Ext : Externals}
    (tx0 tx : CMutableTransaction.t) (v v' : BCDataStream.t) :
  CMutableTransaction.deserialize (tx0, v) = (Ok tt, (tx, v')) ->
  tx_wf tx
  /\ BCDataStream.remaining v = tx_bytes tx ++ BCDataStream.remaining v'
  /\ writes (CMutableTransaction.serialize tx) (tx_bytes tx).
Proof.
  intro H. apply CMutableTransaction_deserialize_inv in H as (Hwf & Hr & _).
  split; [exact Hwf|]. split; [exact Hr|].
  now apply CMutableTransaction_serialize_writes.
Qed.

Lemma X4_CMutableTransaction_decode_encode_witness :
  @CMutableTransaction.deserialize test_externals
    (CMutableTransaction.default, BCDataStream.new (empty_tx_bytes ++ [x07]))
  = (Ok tt, (CMutableTransaction.default, BCDataStream.mk (empty_tx_bytes ++ [x07]) 10))
  /\ @tx_wf test_externals CMutableTransaction.default
  /\ BCDataStream.remaining (BCDataStream.new (empty_tx_bytes ++ [x07]))
     = @tx_bytes test_externals CMutableTransaction.default
       ++ BCDataStream.remaining (BCDataStream.mk (empty_tx_bytes ++ [x07]) 10)
  /\ writes (@CMutableTransaction.serialize test_externals CMutableTransaction.default)
       (@tx_bytes test_externals CMutableTransaction.default).
Proof.
  split; [reflexivity|].
  apply (@X4_CMutableTransaction_decode_encode test_externals CMutableTransaction.default
           CMutableTransaction.default (BCDataStream.new (empty_tx_bytes ++ [x07]))
           (BCDataStream.mk (empty_tx_bytes ++ [x07]) 10)).
  reflexivity.
Defined.

(** X5.  [CMutableTransaction.deserialize] fails only with a
    [SerializationError]: the [assert] of [uint256.deserialize] cannot
    fail, and token data that do not parse never make the parse of an
    output fail. *)
Theorem X5_CMutableTransaction_deserialize_errors `{Ext : Externals}
    (s s' : CMutableTransaction.t * BCDataStream.t) (e : exn) :
  CMutableTransaction.deserialize s = (Raise e, s') -> is_SerializationError e = true.
Proof.
  intro H. destruct s as [tx v]. destruct s' as [tx' v'].
  now apply CMutableTransaction_deserialize_raise_kind in H.
Qed.

Lemma X5_CMutableTransaction_deserialize_errors_witness :
  @CMutableTransaction.deserialize test_externals
    (CMutableTransaction.default, BCDataStream.new [x02; x00])
  = (Raise BCDataStream.past_end, (CMutableTransaction.default, BCDataStream.new [x02; x00]))
  /\ is_SerializationError BCDataStream.past_end = true.
Proof.
  split; [reflexivity|].
  apply (@X5_CMutableTransaction_deserialize_errors test_externals
           (CMutableTransaction.default, BCDataStream.new [x02; x00])
           (CMutableTransaction.default, BCDataStream.new [x02; x00])).
  reflexivity.
Defined.

(** ** Token data ([token.py]) *)

(** X6.  On a valid bitfield the three NFT kinds partition the tokens that
    have an NFT: exactly one of [is_immutable_nft], [is_mutable_nft] and
    [is_minting_nft] holds when [has_nft] does, and none otherwise; no two
    of them ever hold together. *)
Theorem X6_nft_kinds (td : OutputData.t) :
  OutputData.is_valid_bitfield td = true ->
  (OutputData.is_immutable_nft td || OutputData.is_mutable_nft td
   || OutputData.is_minting_nft td) = OutputData.has_nft td
  /\ OutputData.is_immutable_nft td && OutputData.is_mutable_nft td = false
  /\ OutputData.is_immutable_nft td && OutputData.is_minting_nft td = false
  /\ OutputData.is_mutable_nft td && OutputData.is_minting_nft td = false.
Proof.
  unfold OutputData.is_valid_bitfield, OutputData.is_immutable_nft,
    OutputData.is_mutable_nft, OutputData.is_minting_nft, OutputData.get_capability,
    Capability.NoCapability, Capability.Mutable, Capability.Minting.
  intro Hv.
  assert (0 <= Z.land (OutputData.bitfield td) 15) as Hlo
    by (apply Z.land_nonneg; right; lia).
  assert (Z.land (OutputData.bitfield td) 15 <= 2) as Hhi.
  { destruct ((Z.land (OutputData.bitfield td) 240 >=? 128)
              || (Z.land (OutputData.bitfield td) 240 =? 0)); [discriminate Hv|].
    destruct (Z.land (OutputData.bitfield td) 15 >? 2) eqn:E; [discriminate Hv|].
    rewrite Z.gtb_ltb in E. apply Z.ltb_ge in E. exact E. }
  clear Hv. set (c := Z.land (OutputData.bitfield td) 15) in *.
  destruct (OutputData.has_nft td); cbn [andb orb]; [|auto].
  destruct (c =? 0) eqn:E0; destruct (c =? 1) eqn:E1; destruct (c =? 2) eqn:E2;
    cbn [andb orb]; auto;
    rewrite ?Z.eqb_eq, ?Z.eqb_neq in *; exfalso; lia.
Qed.

Lemma X6_nft_kinds_witness :
  OutputData.is_valid_bitfield (OutputData.mk (repeat x00 32) 34 0 []) = true
  /\ (OutputData.is_immutable_nft (OutputData.mk (repeat x00 32) 34 0 [])
      || OutputData.is_mutable_nft (OutputData.mk (repeat x00 32) 34 0 [])
      || OutputData.is_minting_nft (OutputData.mk (repeat x00 32) 34 0 []))
     = OutputData.has_nft (OutputData.mk (repeat x00 32) 34 0 [])
  /\ OutputData.is_immutable_nft (OutputData.mk (repeat x00 32) 34 0 [])
     && OutputData.is_mutable_nft (OutputData.mk (repeat x00 32) 34 0 []) = false
  /\ OutputData.is_immutable_nft (OutputData.mk (repeat x00 32) 34 0 [])
     && OutputData.is_minting_nft (OutputData.mk (repeat x00 32) 34 0 []) = false
  /\ OutputData.is_mutable_nft (OutputData.mk (repeat x00 32) 34 0 [])
     && OutputData.is_minting_nft (OutputData.mk (repeat x00 32) 34 0 []) = false.
Proof.
  split; [reflexivity|].
  apply (X6_nft_kinds (OutputData.mk (repeat x00 32) 34 0 [])). reflexivity.
Defined.

(** X7.  Whatever [OutputData.deserialize] accepts, [serialize] writes
    back byte for byte: it returns exactly the bytes the parse consumed. *)
Theorem X7_token_decode_encode (td0 td : OutputData.t) (v v' : BCDataStream.t) :
  OutputData.deserialize (td0, v) = (Ok tt, (td, v')) ->
  exists out,
    OutputData.serialize td = Ok out
    /\ BCDataStream.remaining v = out ++ BCDataStream.remaining v'.
Proof.
  intro H. apply token_deserialize_inv in H as (Hwire & _ & Hr & _).
  exists (token_bytes td). split; [|exact Hr].
  now apply token_serialize_ok.
Qed.

Lemma X7_token_decode_encode_witness :
  OutputData.deserialize
    (OutputData.default, BCDataStream.new (repeat x00 32 ++ [x30; x05; x51]))
  = (Ok tt, (OutputData.mk (repeat x00 32) 48 5 [],
             BCDataStream.mk (repeat x00 32 ++ [x30; x05; x51]) 34))
  /\ exists out,
       OutputData.serialize (OutputData.mk (repeat x00 32) 48 5 []) = Ok out
       /\ BCDataStream.remaining (BCDataStream.new (repeat x00 32 ++ [x30; x05; x51]))
          = out ++ BCDataStream.remaining
                     (BCDataStream.mk (repeat x00 32 ++ [x30; x05; x51]) 34).
Proof.
  split; [reflexivity|].
  apply (X7_token_decode_encode OutputData.default (OutputData.mk (repeat x00 32) 48 5 [])
           (BCDataStream.new (repeat x00 32 ++ [x30; x05; x51]))
           (BCDataStream.mk (repeat x00 32 ++ [x30; x05; x51]) 34)).
  reflexivity.
Defined.

(** ** Derivation paths and unknown entries ([psbt.py]) *)

(** X8.  When [_deserialize_hd_keypath] returns, the dictionary has gained
    exactly one entry, appended after the entries it held, none of which
    changed: the key is the PSBT key without its type byte, a public key of
    33 or 65 bytes that [ser_to_point] accepts and that was not in the
    dictionary; the value is a 4-byte fingerprint and uint32 indexes, whose
    bytes, as one byte vector, are what was consumed. *)
Theorem X8_hd_keypath_read `{Ext : Externals} (key : bytes) (d d' : dict KeyOriginInfo.t)
    (v v' : BCDataStream.t) :
  _deserialize_hd_keypath key (d, v) = (Ok tt, (d', v')) ->
  exists pk kp,
    key = hd x00 key :: pk
    /\ (List.length pk = 33%nat \/ List.length pk = 65%nat)
    /\ ser_to_point pk = true
    /\ dict_get pk d = None
    /\ d' = d ++ [(pk, kp)]
    /\ List.length (KeyOriginInfo.fingerprint kp) = 4%nat
    /\ Forall (fun i => 0 <= i < 2 ^ 32) (KeyOriginInfo.path kp)
    /\ BCDataStream.remaining v
       = byte_vector (KeyOriginInfo.fingerprint kp
                      ++ List.concat (map (le_encode 4) (KeyOriginInfo.path kp)))
         ++ BCDataStream.remaining v'.
Proof.
  intro H.
  apply hd_entry_inv in H as (pk & kp & (b & ->) & (Hl & Hp) & Hnew & (Hf & Hr & _) & -> & Hv).
  exists pk, kp. split; [reflexivity|]. split; [exact Hl|]. split; [exact Hp|].
  split.
  { apply dict_contains_false in Hnew. unfold dict_contains in Hnew.
    now destruct (dict_get pk d). }
  split; [reflexivity|]. split; [exact Hf|]. split; [exact Hr | exact Hv].
Qed.

Lemma X8_hd_keypath_read_witness :
  @_deserialize_hd_keypath test_externals (x06 :: sample_pubkey)
    ([], BCDataStream.new (byte_vector (keypath_bytes sample_keypath) ++ [x00]))
  = (Ok tt, ([(sample_pubkey, sample_keypath)],
             BCDataStream.mk (byte_vector (keypath_bytes sample_keypath) ++ [x00]) 13))
  /\ exists pk kp,
       x06 :: sample_pubkey = hd x00 (x06 :: sample_pubkey) :: pk
       /\ (List.length pk = 33%nat \/ List.length pk = 65%nat)
       /\ @ser_to_point test_externals pk = true
       /\ dict_get pk (@nil (bytes * KeyOriginInfo.t)) = None
       /\ [(sample_pubkey, sample_keypath)] = [] ++ [(pk, kp)]
       /\ List.length (KeyOriginInfo.fingerprint kp) = 4%nat
       /\ Forall (fun i => 0 <= i < 2 ^ 32) (KeyOriginInfo.path kp)
       /\ BCDataStream.remaining
            (BCDataStream.new (byte_vector (keypath_bytes sample_keypath) ++ [x00]))
          = byte_vector (KeyOriginInfo.fingerprint kp
                         ++ List.concat (map (le_encode 4) (KeyOriginInfo.path kp)))
            ++ BCDataStream.remaining
                 (BCDataStream.mk (byte_vector (keypath_bytes sample_keypath) ++ [x00]) 13).
Proof.
  split; [vm_compute; reflexivity|].
  apply (@X8_hd_keypath_read test_externals (x06 :: sample_pubkey) []
           [(sample_pubkey, sample_keypath)]
           (BCDataStream.new (byte_vector (keypath_bytes sample_keypath) ++ [x00]))
           (BCDataStream.mk (byte_vector (keypath_bytes sample_keypath) ++ [x00]) 13)).
  vm_compute. reflexivity.
Defined.

(** X9.  [_deserialize_hd_keypath] fails only with a [SerializationError]:
    its closing sanity [assert] on the length of the path cannot fail, and
    reading the indexes never runs past the value. *)
Theorem X9_hd_keypath_errors `{Ext : Externals} (key : bytes)
    (s s' : dict KeyOriginInfo.t * BCDataStream.t) (e : exn) :
  _deserialize_hd_keypath key s = (Raise e, s') ->
  is_SerializationError e = true /\ e <> AssertionError.
Proof.
  intro H. apply hd_entry_raise_kind in H. split; [exact H|].
  intros ->. discriminate H.
Qed.

Lemma X9_hd_keypath_errors_witness :
  @_deserialize_hd_keypath test_externals (x06 :: sample_pubkey)
    ([], BCDataStream.new [x03; x01; x02; x03])
  = (Raise (mkPSBTSerializationError "Invalid length for HD key path"),
     ([], BCDataStream.mk [x03; x01; x02; x03] 4))
  /\ is_SerializationError (mkPSBTSerializationError "Invalid length for HD key path") = true
  /\ mkPSBTSerializationError "Invalid length for HD key path" <> AssertionError.
Proof.
  split; [vm_compute; reflexivity|].
  apply (@X9_hd_keypath_errors test_externals (x06 :: sample_pubkey)
           ([], BCDataStream.new [x03; x01; x02; x03])
           ([], BCDataStream.mk [x03; x01; x02; x03] 4)).
  vm_compute. reflexivity.
Defined.







(** ** Output maps ([PSBTOutput]) *)

Lemma sample_output_wf : @output_wf test_externals sample_output.
Proof.
  split; [vm_compute; reflexivity|]. split.
  - split; [repeat constructor; intros []|]. constructor; [|constructor].
    split; [split; [left; reflexivity | reflexivity]|].
    split; [reflexivity|]. split; [|vm_compute; reflexivity].
    repeat constructor; cbn; lia.
  - split; [repeat constructor; intros []|]. constructor; [|constructor].
    cbn [fst snd]. split; [vm_compute; reflexivity|]. split; [vm_compute; reflexivity|].
    cbn. intros [H | [H | []]]; discriminate H.
Qed.

(** X13.  An output map with a redeem script of any length below 2^64,
    derivations under distinct valid public keys and unknown entries under
    distinct keys whose type byte is neither 0x00 nor 0x02 is written by
    [PSBTOutput.serialize] as the redeem script entry (if the script is not
    empty), the derivations, the unknown entries and the separator; and
    [PSBTOutput.deserialize] reads these bytes back into the same object,
    whatever the receiver held. *)
Theorem X13_PSBTOutput_round_trip `{Ext : Externals} (o o0 : PSBTOutput.t) :
  output_wf o ->
  writes (PSBTOutput.serialize o) (output_bytes o)
  /\ parses PSBTOutput.deserialize o0 (output_bytes o) tt o.
Proof.
  intro Hwf. split.
  - now apply output_serialize_writes.
  - now apply output_deserialize_parses.
Qed.

Lemma X13_PSBTOutput_round_trip_witness :
  @output_wf test_externals sample_output
  /\ writes (@PSBTOutput.serialize test_externals sample_output)
       (@output_bytes test_externals sample_output)
  /\ parses (@PSBTOutput.deserialize test_externals) PSBTOutput.default
       (@output_bytes test_externals sample_output) tt sample_output.
Proof.
  split; [exact sample_output_wf|].
  apply (@X13_PSBTOutput_round_trip test_externals sample_output PSBTOutput.default
           sample_output_wf).
Defined.

(** X14.  What [PSBTOutput.deserialize] accepts, [PSBTOutput.serialize]
    can write, and reading that back gives the same object: the parsed
    output holds only valid public keys, no duplicate key and no unknown
    key of a recognised type, so serialization does not raise, and
    [deserialize(serialize(o))] is [o]. *)
Theorem X14_PSBTOutput_parsed_round_trip `{Ext : Externals} (o0 o o1 : PSBTOutput.t)
    (v v' : BCDataStream.t) :
  PSBTOutput.deserialize (o0, v) = (Ok tt, (o, v')) ->
  exists out,
    (forall w, PSBTOutput.serialize o w = (Ok tt, appended w out))
    /\ (forall w rest,
          BCDataStream.remaining w = out ++ rest ->
          PSBTOutput.deserialize (o1, w)
          = (Ok tt, (o, BCDataStream.advance (List.length out) w))).
Proof.
  intro H. apply output_deserialize_wf in H.
  exists (output_bytes o). split.
  - apply (output_serialize_writes o H).
  - apply (output_deserialize_parses o1 o H).
Qed.

Lemma X14_PSBTOutput_parsed_round_trip_witness :
  @PSBTOutput.deserialize test_externals
    (PSBTOutput.default, BCDataStream.new (@output_bytes test_externals sample_output))
  = (Ok tt, (sample_output,
             BCDataStream.mk (@output_bytes test_externals sample_output) 59))
  /\ exists out,
       (forall w, @PSBTOutput.serialize test_externals sample_output w
                  = (Ok tt, appended w out))
       /\ (forall w rest,
             BCDataStream.remaining w = out ++ rest ->
             @PSBTOutput.deserialize test_externals (PSBTOutput.default, w)
             = (Ok tt, (sample_output, BCDataStream.advance (List.length out) w))).
Proof.
  split; [vm_compute; reflexivity|].
  apply (@X14_PSBTOutput_parsed_round_trip test_externals PSBTOutput.default sample_output
           PSBTOutput.default
           (BCDataStream.new (@output_bytes test_externals sample_output))
           (BCDataStream.mk (@output_bytes test_externals sample_output) 59)).
  vm_compute. reflexivity.
Defined.

(** X15.  [PSBTOutput.deserialize] fails only with a [SerializationError]
    (a [PSBTSerializationError] of its own or the stream's), and its loop
    always ends: every turn that goes on has consumed at least one byte. *)
Theorem X15_PSBTOutput_deserialize_errors `{Ext : Externals}
    (s s' : PSBTOutput.t * BCDataStream.t) (e : exn) :
  PSBTOutput.deserialize s = (Raise e, s') ->
  is_SerializationError e = true /\ e <> FuelExhausted /\ e <> AssertionError.
Proof.
  intro H. apply output_deserialize_raise_kind in H.
  split; [exact H|]. split; intros ->; discriminate H.
Qed.

Lemma X15_PSBTOutput_deserialize_errors_witness :
  @PSBTOutput.deserialize test_externals
    (PSBTOutput.default, BCDataStream.new [x01; x00; x01; x51; x01; x00; x00])
  = (Raise (mkPSBTSerializationError "Duplicate Key, output redeemScript already provided"),
     (PSBTOutput.set_redeem_script [x51] PSBTOutput.default,
      BCDataStream.mk [x01; x00; x01; x51; x01; x00; x00] 6))
  /\ is_SerializationError
       (mkPSBTSerializationError "Duplicate Key, output redeemScript already provided") = true
  /\ mkPSBTSerializationError "Duplicate Key, output redeemScript already provided"
     <> FuelExhausted
  /\ mkPSBTSerializationError "Duplicate Key, output redeemScript already provided"
     <> AssertionError.
Proof.
  split; [vm_compute; reflexivity|].
  apply (@X15_PSBTOutput_deserialize_errors test_externals
           (PSBTOutput.default, BCDataStream.new [x01; x00; x01; x51; x01; x00; x00])
           (PSBTOutput.set_redeem_script [x51] PSBTOutput.default,
            BCDataStream.mk [x01; x00; x01; x51; x01; x00; x00] 6)).
  vm_compute. reflexivity.
Defined.

(** X16.  On a stream that holds an encoded map (entries with non-empty
    keys, then the separator) followed by anything, [PSBTOutput.deserialize]
    either raises a [SerializationError] or returns having consumed the map
    and nothing of what follows it. *)
Theorem X16_PSBTOutput_consumes_one_map `{Ext : Externals} (o0 : PSBTOutput.t)
    (v : BCDataStream.t) (es : list (bytes * bytes)) (rest : bytes) :
  entries_wf es ->
  BCDataStream.remaining v = encoded_map es ++ rest ->
  (exists e st', PSBTOutput.deserialize (o0, v) = (Raise e, st')
                 /\ is_SerializationError e = true)
  \/ (exists o v', PSBTOutput.deserialize (o0, v) = (Ok tt, (o, v'))
                   /\ BCDataStream.remaining v' = rest).
Proof.
  intros Hwf Hv.
  destruct (output_deserialize_exact o0 v es rest Hwf Hv) as [Hraise | Hok].
  - left. exact Hraise.
  - right. exact Hok.
Qed.

Lemma X16_PSBTOutput_consumes_one_map_witness :
  entries_wf [([x09], [xaa; xbb])]
  /\ BCDataStream.remaining (BCDataStream.new (encoded_map [([x09], [xaa; xbb])] ++ [x07]))
     = encoded_map [([x09], [xaa; xbb])] ++ [x07]
  /\ ((exists e st',
         @PSBTOutput.deserialize test_externals
           (PSBTOutput.default,
            BCDataStream.new (encoded_map [([x09], [xaa; xbb])] ++ [x07]))
         = (Raise e, st')
         /\ is_SerializationError e = true)
      \/ (exists o v',
            @PSBTOutput.deserialize test_externals
              (PSBTOutput.default,
               BCDataStream.new (encoded_map [([x09], [xaa; xbb])] ++ [x07]))
            = (Ok tt, (o, v'))
            /\ BCDataStream.remaining v' = [x07])).
Proof.
  assert (entries_wf [([x09], [xaa; xbb])]) as Hwf.
  { constructor; [|constructor]. cbn [fst snd].
    split; [discriminate|]. split; vm_compute; reflexivity. }
  split; [exact Hwf|]. split; [reflexivity|].
  apply (@X16_PSBTOutput_consumes_one_map test_externals PSBTOutput.default
           (BCDataStream.new (encoded_map [([x09], [xaa; xbb])] ++ [x07]))
           [([x09], [xaa; xbb])] [x07] Hwf).
  reflexivity.
Defined.

(** ** Input maps ([PSBTInput]) *)

Lemma sample_input_wf : @input_wf test_externals sample_input.
Proof.
  split.
  { cbn. unfold txout_wf, fits. cbn. repeat split; try lia; discriminate. }
  split.
  { split; [repeat constructor; intros []|]. constructor; [|constructor].
    cbn [fst snd]. split; [reflexivity|].
    split; [split; [left; reflexivity | reflexivity] | vm_compute; reflexivity]. }
  split; [cbn; lia|]. split; [vm_compute; reflexivity|]. split.
  { split; [repeat constructor; intros []|]. constructor; [|constructor].
    split; [split; [left; reflexivity | reflexivity]|].
    split; [reflexivity|]. split; [|vm_compute; reflexivity].
    repeat constructor; cbn; lia. }
  split; [vm_compute; reflexivity|].
  split; [repeat constructor; intros []|]. constructor; [|constructor].
  cbn [fst snd]. split; [vm_compute; reflexivity|]. split; [vm_compute; reflexivity|].
  cbn. intros [H | [H | [H | [H | [H | [H | []]]]]]]; discriminate H.
Qed.

Lemma sample_finalized_input_wf : @input_wf test_externals sample_finalized_input.
Proof.
  destruct sample_input_wf as (H1 & H2 & H3 & H4 & H5 & _ & H7).
  split; [exact H1|]. split; [exact H2|]. split; [exact H3|]. split; [exact H4|].
  split; [exact H5|]. split; [vm_compute; reflexivity | exact H7].
Qed.

(** X17.  [PSBTInput.serialize] writes an input whose attributes are
    within their types as: the UTXO entry if there is one; then, when the
    final unlocking script is not empty, its entry (type 0x07) alone, and
    otherwise the partial signatures in insertion order, the sighash type
    if it is not 0, the redeem script if it is not empty and the
    derivations in insertion order; then the unknown entries and the
    separator.  It does not raise, and appends nothing else. *)
Theorem X17_PSBTInput_serialize_layout `{Ext : Externals} (i : PSBTInput.t)
    (v : BCDataStream.t) :
  input_wf i ->
  PSBTInput.serialize i v
  = (Ok tt,
     BCDataStream.mk
       (BCDataStream.input v
        ++ match PSBTInput.utxo i with
           | Some o => map_entry [x00] (txout_bytes o)
           | None => []
           end
        ++ (if truthy (PSBTInput.final_script_sig i)
            then map_entry [x07] (PSBTInput.final_script_sig i)
            else List.concat (map partial_sig_entry (PSBTInput.partial_sigs i))
                 ++ (if PSBTInput.sighash_type i =? 0 then []
                     else map_entry [x03] (le_encode 4 (PSBTInput.sighash_type i)))
                 ++ (if truthy (PSBTInput.redeem_script i)
                     then map_entry [x04] (PSBTInput.redeem_script i)
                     else [])
                 ++ List.concat (map (hd_entry 6) (PSBTInput.hd_keypaths i)))
        ++ List.concat (map unknown_entry (PSBTInput.unknown i))
        ++ [x00])
       (BCDataStream.read_cursor v)).
Proof.
  intro Hwf. rewrite (input_serialize_writes i Hwf v). reflexivity.
Qed.

Lemma X17_PSBTInput_serialize_layout_witness :
  @input_wf test_externals sample_finalized_input
  /\ @PSBTInput.serialize test_externals sample_finalized_input (BCDataStream.new [])
     = (Ok tt,
        BCDataStream.mk
          (BCDataStream.input (BCDataStream.new [])
           ++ match PSBTInput.utxo sample_finalized_input with
              | Some o => map_entry [x00] (@txout_bytes test_externals o)
              | None => []
              end
           ++ (if truthy (PSBTInput.final_script_sig sample_finalized_input)
               then map_entry [x07] (PSBTInput.final_script_sig sample_finalized_input)
               else List.concat
                      (map (@partial_sig_entry)
                         (PSBTInput.partial_sigs sample_finalized_input))
                    ++ (if PSBTInput.sighash_type sample_finalized_input =? 0 then []
                        else map_entry [x03]
                               (le_encode 4 (PSBTInput.sighash_type sample_finalized_input)))
                    ++ (if truthy (PSBTInput.redeem_script sample_finalized_input)
                        then map_entry [x04] (PSBTInput.redeem_script sample_finalized_input)
                        else [])
                    ++ List.concat
                         (map (hd_entry 6) (PSBTInput.hd_keypaths sample_finalized_input)))
           ++ List.concat (map unknown_entry (PSBTInput.unknown sample_finalized_input))
           ++ [x00])
          (BCDataStream.read_cursor (BCDataStream.new []))).
Proof.
  split; [exact sample_finalized_input_wf|].
  apply (@X17_PSBTInput_serialize_layout test_externals sample_finalized_input
           (BCDataStream.new []) sample_finalized_input_wf).
Defined.

(** X18.  Reading back what [PSBTInput.serialize] wrote gives the input as
    serialization sees it: the same input when its final unlocking script
    is empty, and otherwise the input without its partial signatures,
    sighash type, redeem script and derivations, which serialization left
    out.  An input that holds a final script and none of those fields
    comes back unchanged. *)
Theorem X18_PSBTInput_round_trip `{Ext : Externals} (i i0 : PSBTInput.t) :
  input_wf i ->
  parses PSBTInput.deserialize i0 (input_bytes i) tt (finalized_view i)
  /\ (input_canonical i = true ->
      parses PSBTInput.deserialize i0 (input_bytes i) tt i).
Proof.
  intro Hwf. pose proof (input_deserialize_parses i0 i Hwf) as Hp.
  split; [exact Hp|]. intro Hc. now rewrite (finalized_view_canonical i Hc) in Hp.
Qed.

Lemma X18_PSBTInput_round_trip_witness :
  @input_wf test_externals sample_finalized_input
  /\ parses (@PSBTInput.deserialize test_externals) PSBTInput.default
       (@input_bytes test_externals sample_finalized_input) tt
       (finalized_view sample_finalized_input)
  /\ (input_canonical sample_finalized_input = true ->
      parses (@PSBTInput.deserialize test_externals) PSBTInput.default
        (@input_bytes test_externals sample_finalized_input) tt sample_finalized_input).
Proof.
  split; [exact sample_finalized_input_wf|].
  apply (@X18_PSBTInput_round_trip test_externals sample_finalized_input PSBTInput.default
           sample_finalized_input_wf).
Defined.

(** X19.  What [PSBTInput.deserialize] accepts, [PSBTInput.serialize] can
    write: every attribute of a parsed input is within its type, every
    public key is one [ser_to_point] accepted, no dictionary holds a key
    twice and no unknown key has a recognised type, so serialization does
    not raise; and reading the bytes back gives the parsed input as
    serialization sees it. *)
Theorem X19_PSBTInput_parsed_round_trip `{Ext : Externals} (i0 i i1 : PSBTInput.t)
    (v v' : BCDataStream.t) :
  PSBTInput.deserialize (i0, v) = (Ok tt, (i, v')) ->
  exists out,
    (forall w, PSBTInput.serialize i w = (Ok tt, appended w out))
    /\ (forall w rest,
          BCDataStream.remaining w = out ++ rest ->
          PSBTInput.deserialize (i1, w)
          = (Ok tt, (finalized_view i, BCDataStream.advance (List.length out) w))).
Proof.
  intro H. apply input_deserialize_wf in H.
  exists (input_bytes i). split.
  - apply (input_serialize_writes i H).
  - apply (input_deserialize_parses i1 i H).
Qed.

Lemma X19_PSBTInput_parsed_round_trip_witness :
  @PSBTInput.deserialize test_externals
    (PSBTInput.default, BCDataStream.new (@input_bytes test_externals sample_input))
  = (Ok tt, (sample_input, BCDataStream.mk (@input_bytes test_externals sample_input) 118))
  /\ exists out,
       (forall w, @PSBTInput.serialize test_externals sample_input w
                  = (Ok tt, appended w out))
       /\ (forall w rest,
             BCDataStream.remaining w = out ++ rest ->
             @PSBTInput.deserialize test_externals (PSBTInput.default, w)
             = (Ok tt, (finalized_view sample_input,
                        BCDataStream.advance (List.length out) w))).
Proof.
  split; [vm_compute; reflexivity|].
  apply (@X19_PSBTInput_parsed_round_trip test_externals PSBTInput.default sample_input
           PSBTInput.default
           (BCDataStream.new (@input_bytes test_externals sample_input))
           (BCDataStream.mk (@input_bytes test_externals sample_input) 118)).
  vm_compute. reflexivity.
Defined.

(** X20.  [PSBTInput.deserialize] fails only with a [SerializationError]
    (a [PSBTSerializationError] of its own or the stream's): no [assert]
    fails, no [struct.error] escapes, and its loop always ends. *)
Theorem X20_PSBTInput_deserialize_errors `{Ext : Externals}
    (s s' : PSBTInput.t * BCDataStream.t) (e : exn) :
  PSBTInput.deserialize s = (Raise e, s') ->
  is_SerializationError e = true
  /\ e <> FuelExhausted /\ e <> AssertionError /\ e <> StructError.
Proof.
  intro H. apply input_deserialize_raise_kind in H.
  split; [exact H|]. repeat split; intros ->; discriminate H.
Qed.

Lemma X20_PSBTInput_deserialize_errors_witness :
  @PSBTInput.deserialize test_externals
    (PSBTInput.default,
     BCDataStream.new [x01; x03; x04; x41; x00; x00; x00; x01; x03; x04; x01; x00; x00; x00])
  = (Raise (mkPSBTSerializationError "Duplicate Key, input sighash type already provided"),
     (PSBTInput.set_sighash_type 65 PSBTInput.default,
      BCDataStream.mk
        [x01; x03; x04; x41; x00; x00; x00; x01; x03; x04; x01; x00; x00; x00] 9))
  /\ is_SerializationError
       (mkPSBTSerializationError "Duplicate Key, input sighash type already provided") = true
  /\ mkPSBTSerializationError "Duplicate Key, input sighash type already provided"
     <> FuelExhausted
  /\ mkPSBTSerializationError "Duplicate Key, input sighash type already provided"
     <> AssertionError
  /\ mkPSBTSerializationError "Duplicate Key, input sighash type already provided"
     <> StructError.
Proof.
  split; [vm_compute; reflexivity|].
  apply (@X20_PSBTInput_deserialize_errors test_externals
           (PSBTInput.default,
            BCDataStream.new
              [x01; x03; x04; x41; x00; x00; x00; x01; x03; x04; x01; x00; x00; x00])
           (PSBTInput.set_sighash_type 65 PSBTInput.default,
            BCDataStream.mk
              [x01; x03; x04; x41; x00; x00; x00; x01; x03; x04; x01; x00; x00; x00] 9)).
  vm_compute. reflexivity.
Defined.

(** X21.  On a stream that holds an encoded map (entries with non-empty
    keys, then the separator) followed by anything, [PSBTInput.deserialize]
    either raises a [SerializationError] or returns having consumed the map
    and nothing of what follows it: it never reads into the next map. *)
Theorem X21_PSBTInput_consumes_one_map `{Ext : Externals} (i0 : PSBTInput.t)
    (v : BCDataStream.t) (es : list (bytes * bytes)) (rest : bytes) :
  entries_wf es ->
  BCDataStream.remaining v = encoded_map es ++ rest ->
  (exists e st', PSBTInput.deserialize (i0, v) = (Raise e, st')
                 /\ is_SerializationError e = true)
  \/ (exists i v', PSBTInput.deserialize (i0, v) = (Ok tt, (i, v'))
                   /\ BCDataStream.remaining v' = rest).
Proof.
  intros Hwf Hv.
  destruct (input_deserialize_exact i0 v es rest Hwf Hv) as [Hraise | Hok].
  - left. exact Hraise.
  - right. exact Hok.
Qed.

Lemma X21_PSBTInput_consumes_one_map_witness :
  entries_wf [([x04], [x51]); ([x09], [xaa; xbb])]
  /\ BCDataStream.remaining
       (BCDataStream.new (encoded_map [([x04], [x51]); ([x09], [xaa; xbb])] ++ [x07]))
     = encoded_map [([x04], [x51]); ([x09], [xaa; xbb])] ++ [x07]
  /\ ((exists e st',
         @PSBTInput.deserialize test_externals
           (PSBTInput.default,
            BCDataStream.new (encoded_map [([x04], [x51]); ([x09], [xaa; xbb])] ++ [x07]))
         = (Raise e, st')
         /\ is_SerializationError e = true)
      \/ (exists i v',
            @PSBTInput.deserialize test_externals
              (PSBTInput.default,
               BCDataStream.new
                 (encoded_map [([x04], [x51]); ([x09], [xaa; xbb])] ++ [x07]))
            = (Ok tt, (i, v'))
            /\ BCDataStream.remaining v' = [x07])).
Proof.
  assert (entries_wf [([x04], [x51]); ([x09], [xaa; xbb])]) as Hwf.
  { constructor; [|constructor; [|constructor]]; cbn [fst snd];
      (split; [discriminate|]; split; vm_compute; reflexivity). }
  split; [exact Hwf|]. split; [reflexivity|].
  apply (@X21_PSBTInput_consumes_one_map test_externals PSBTInput.default
           (BCDataStream.new (encoded_map [([x04], [x51]); ([x09], [xaa; xbb])] ++ [x07]))
           [([x04], [x51]); ([x09], [xaa; xbb])] [x07] Hwf).
  reflexivity.
Defined.

(** ** The container ([PSBT]) *)

Lemma sample_tx_wf : @tx_wf test_externals sample_tx.
Proof.
  unfold tx_wf, sample_tx.
  cbn [CMutableTransaction.version CMutableTransaction.vin
       CMutableTransaction.vout CMutableTransaction.locktime].
  split; [lia|]. split.
  { constructor; [|constructor]. unfold txin_wf, fits. cbn.
    repeat split; try lia; discriminate. }
  split; [cbn; lia|]. split.
  { constructor; [|constructor]. unfold txout_wf, fits. cbn.
    repeat split; try lia; discriminate. }
  split; [cbn; lia | lia].
Qed.

Lemma sample_psbt_wf : @psbt_wf test_externals sample_psbt.
Proof.
  split.
  { cbn [PSBT.tx sample_psbt]. split; [exact sample_tx_wf|].
    split; [vm_compute; reflexivity|]. split; [repeat constructor|].
    split; reflexivity. }
  split.
  { split; [repeat constructor; intros []|]. constructor; [|constructor].
    cbn [fst snd]. split; [vm_compute; reflexivity|]. split; [vm_compute; reflexivity|].
    cbn. intros [H | []]. discriminate H. }
  split; [constructor; [exact sample_finalized_input_wf | constructor]
        | constructor; [exact sample_output_wf | constructor]].
Qed.

(** X22.  For a PSBT that holds an unsigned transaction within its types,
    one input map and one output map for each of its inputs and outputs,
    and attributes within their types, [PSBT.serialize] does not raise and
    writes the magic bytes, the global map (transaction, unknown entries,
    separator), the input maps and the output maps, to the stream it is
    given or, without a stream, as hex or base64 text of exactly these
    bytes.  [PSBT.deserialize] reads these bytes back into the same tx,
    outputs and unknown entries and the inputs as serialization sees them,
    whatever the receiver held, and ignores any bytes that follow the last
    output map. *)
Theorem X22_PSBT_round_trip `{Ext : Externals} (p self : PSBT.t) (v : BCDataStream.t)
    (rest : bytes) :
  psbt_wf p ->
  PSBT.serialize p (Some v) false = (Ok None, appended v (psbt_bytes p))
  /\ PSBT.serialize p None true
     = (Ok (Some (bytes_hex (psbt_bytes p))), BCDataStream.new (psbt_bytes p))
  /\ PSBT.serialize p None false
     = (Ok (Some (b2a_base64 (psbt_bytes p))), BCDataStream.new (psbt_bytes p))
  /\ PSBT.deserialize (PSBT.FromBytes (psbt_bytes p ++ rest)) false self
     = (Ok tt, PSBT.set_inputs (map finalized_view (PSBT.inputs p)) p).
Proof.
  intro Hwf. split; [|split; [|split]].
  - unfold PSBT.serialize. now rewrite (psbt_serialize_writes p Hwf v).
  - now apply psbt_serialize_hex.
  - unfold PSBT.serialize. now rewrite (psbt_serialize_writes p Hwf (BCDataStream.new [])).
  - now apply psbt_deserialize_bytes.
Qed.

Lemma X22_PSBT_round_trip_witness :
  @psbt_wf test_externals sample_psbt
  /\ @PSBT.serialize test_externals sample_psbt (Some (BCDataStream.new [x01])) false
     = (Ok None, appended (BCDataStream.new [x01]) (@psbt_bytes test_externals sample_psbt))
  /\ @PSBT.serialize test_externals sample_psbt None true
     = (Ok (Some (bytes_hex (@psbt_bytes test_externals sample_psbt))),
        BCDataStream.new (@psbt_bytes test_externals sample_psbt))
  /\ @PSBT.serialize test_externals sample_psbt None false
     = (Ok (Some (@b2a_base64 test_externals (@psbt_bytes test_externals sample_psbt))),
        BCDataStream.new (@psbt_bytes test_externals sample_psbt))
  /\ @PSBT.deserialize test_externals
       (PSBT.FromBytes (@psbt_bytes test_externals sample_psbt ++ [x00; x00])) false
       PSBT.default
     = (Ok tt, PSBT.set_inputs (map finalized_view (PSBT.inputs sample_psbt)) sample_psbt).
Proof.
  split; [exact sample_psbt_wf|].
  apply (@X22_PSBT_round_trip test_externals sample_psbt PSBT.default
           (BCDataStream.new [x01]) [x00; x00] sample_psbt_wf).
Defined.

(** X23.  Whatever [PSBT.deserialize] accepted, [PSBT.serialize] turns
    into hex text without raising, and deserializing that text gives the
    same PSBT up to what serialization leaves out of finalized inputs: the
    same tx, outputs and unknown entries, and every input as serialization
    sees it.  When no input that holds a final unlocking script also holds
    partial signatures, a sighash type, a redeem script or derivations,
    [deserialize(serialize(p))] is [p]. *)
Theorem X23_PSBT_parsed_round_trip `{Ext : Externals} (src : PSBT.source) (is_hex : bool)
    (self self2 p : PSBT.t) :
  PSBT.deserialize src is_hex self = (Ok tt, p) ->
  exists hex,
    fst (PSBT.serialize p None true) = Ok (Some hex)
    /\ PSBT.deserialize (PSBT.FromStr hex) true self2
       = (Ok tt, PSBT.set_inputs (map finalized_view (PSBT.inputs p)) p)
    /\ (psbt_canonical p = true ->
        PSBT.deserialize (PSBT.FromStr hex) true self2 = (Ok tt, p)).
Proof.
  intro H. apply psbt_deserialize_wf in H.
  exists (bytes_hex (psbt_bytes p)).
  pose proof (psbt_deserialize_hex self2 p H) as Hd.
  split; [now rewrite (psbt_serialize_hex p H)|]. split; [exact Hd|].
  intro Hc. now rewrite (psbt_canonical_view p Hc) in Hd.
Qed.

Lemma X23_PSBT_parsed_round_trip_witness :
  @PSBT.deserialize test_externals (PSBT.FromStr raw_psbt) true PSBT.default
  = (Ok tt, fixture_psbt)
  /\ exists hex,
       fst (@PSBT.serialize test_externals fixture_psbt None true) = Ok (Some hex)
       /\ @PSBT.deserialize test_externals (PSBT.FromStr hex) true sample_psbt
          = (Ok tt, PSBT.set_inputs (map finalized_view (PSBT.inputs fixture_psbt))
                      fixture_psbt)
       /\ (psbt_canonical fixture_psbt = true ->
           @PSBT.deserialize test_externals (PSBT.FromStr hex) true sample_psbt
           = (Ok tt, fixture_psbt)).
Proof.
  split; [vm_compute; reflexivity|].
  apply (@X23_PSBT_parsed_round_trip test_externals (PSBT.FromStr raw_psbt) true
           PSBT.default sample_psbt fixture_psbt).
  vm_compute. reflexivity.
Defined.

(** X24.  [PSBT.deserialize] fails only with a [SerializationError]: a
    [PSBTSerializationError] (or its subclass for bad magic bytes) of its
    own, or the stream's error for truncated or malformed data.  No
    [assert] fails, no [struct.error] escapes, and every loop ends. *)
Theorem X24_PSBT_deserialize_errors `{Ext : Externals} (src : PSBT.source) (is_hex : bool)
    (self self' : PSBT.t) (e : exn) :
  PSBT.deserialize src is_hex self = (Raise e, self') ->
  is_SerializationError e = true
  /\ e <> AssertionError /\ e <> StructError /\ e <> FuelExhausted.
Proof.
  intro H. apply PSBT_loops_total in H as [H _].
  split; [exact H|]. repeat split; intros ->; discriminate H.
Qed.

Lemma X24_PSBT_deserialize_errors_witness :
  @PSBT.deserialize test_externals (PSBT.FromBytes twice_the_tx) false PSBT.default
  = (Raise (mkPSBTSerializationError "Duplicate Key, unsigned tx already provided"),
     PSBT.set_tx (Some CMutableTransaction.default) PSBT.default)
  /\ is_SerializationError
       (mkPSBTSerializationError "Duplicate Key, unsigned tx already provided") = true
  /\ mkPSBTSerializationError "Duplicate Key, unsigned tx already provided" <> AssertionError
  /\ mkPSBTSerializationError "Duplicate Key, unsigned tx already provided" <> StructError
  /\ mkPSBTSerializationError "Duplicate Key, unsigned tx already provided" <> FuelExhausted.
Proof.
  split; [vm_compute; reflexivity|].
  apply (@X24_PSBT_deserialize_errors test_externals (PSBT.FromBytes twice_the_tx) false
           PSBT.default (PSBT.set_tx (Some CMutableTransaction.default) PSBT.default)).
  vm_compute. reflexivity.
Defined.

(** X25.  A PSBT that [PSBT.deserialize] returned holds an unsigned
    transaction (every input's [script_sig] is empty) and exactly one
    input map and one output map for each of the transaction's inputs and
    outputs. *)
Theorem X25_PSBT_deserialize_invariants `{Ext : Externals} (src : PSBT.source)
    (is_hex : bool) (self p : PSBT.t) :
  PSBT.deserialize src is_hex self = (Ok tt, p) ->
  exists tx,
    PSBT.tx p = Some tx
    /\ Forall (fun inp => CTxIn.script_sig inp = []) (CMutableTransaction.vin tx)
    /\ List.length (PSBT.inputs p) = List.length (CMutableTransaction.vin tx)
    /\ List.length (PSBT.outputs p) = List.length (CMutableTransaction.vout tx).
Proof.
  intro H. apply psbt_deserialize_wf in H as (Htx & _).
  destruct (PSBT.tx p) as [tx|]; [|contradiction].
  destruct Htx as (_ & _ & Hu & Hni & Hno).
  exists tx. split; [reflexivity|]. split; [exact Hu|]. split; assumption.
Qed.

Lemma X25_PSBT_deserialize_invariants_witness :
  @PSBT.deserialize test_externals (PSBT.FromStr raw_psbt) true sample_psbt
  = (Ok tt, fixture_psbt)
  /\ exists tx,
       PSBT.tx fixture_psbt = Some tx
       /\ Forall (fun inp => CTxIn.script_sig inp = []) (CMutableTransaction.vin tx)
       /\ List.length (PSBT.inputs fixture_psbt) = List.length (CMutableTransaction.vin tx)
       /\ List.length (PSBT.outputs fixture_psbt)
          = List.length (CMutableTransaction.vout tx).
Proof.
  split; [vm_compute; reflexivity|].
  apply (@X25_PSBT_deserialize_invariants test_externals (PSBT.FromStr raw_psbt) true
           sample_psbt fixture_psbt).
  vm_compute. reflexivity.
Defined.

(** X26.  [PSBT.serialize] checks the transaction only after it has written
    the magic bytes: without a transaction, or with a transaction one of
    whose inputs has a non-empty [script_sig], it raises
    [PSBTSerializationError] and leaves the five magic bytes, and nothing
    else, appended to the stream. *)
Theorem X26_PSBT_serialize_rejects `{Ext : Externals} (p : PSBT.t) (v : BCDataStream.t) :
  match PSBT.tx p with
  | None => True
  | Some tx => exists inp, In inp (CMutableTransaction.vin tx) /\ CTxIn.script_sig inp <> []
  end ->
  exists msg,
    PSBT.serialize p (Some v) false
    = (Raise (mkPSBTSerializationError msg), appended v PSBT_MAGIC_BYTES).
Proof.
  intro H. unfold PSBT.serialize, PSBT.serialize_to.
  rewrite (bind_ok _ _ _ _ _ (writes_write PSBT_MAGIC_BYTES v)).
  destruct (PSBT.tx p) as [tx|]; [|eexists; reflexivity].
  destruct H as (inp & Hin & Hs).
  assert (existsb (fun inp => truthy (CTxIn.script_sig inp)) (CMutableTransaction.vin tx)
          = true) as He.
  { apply existsb_exists. exists inp. split; [exact Hin|].
    destruct (CTxIn.script_sig inp); [contradiction | reflexivity]. }
  rewrite He. eexists. reflexivity.
Qed.

Lemma X26_PSBT_serialize_rejects_witness :
  match PSBT.tx signed_psbt with
  | None => True
  | Some tx => exists inp, In inp (CMutableTransaction.vin tx) /\ CTxIn.script_sig inp <> []
  end
  /\ exists msg,
       @PSBT.serialize test_externals signed_psbt (Some (BCDataStream.new [])) false
       = (Raise (mkPSBTSerializationError msg), appended (BCDataStream.new []) PSBT_MAGIC_BYTES).
Proof.
  assert (match PSBT.tx signed_psbt with
          | None => True
          | Some tx => exists inp, In inp (CMutableTransaction.vin tx)
                                   /\ CTxIn.script_sig inp <> []
          end) as Hyp.
  { exists (CTxIn.mk COutPoint.default [x51] 0). split; [right; left; reflexivity|].
    discriminate. }
  split; [exact Hyp|].
  apply (@X26_PSBT_serialize_rejects test_externals signed_psbt (BCDataStream.new []) Hyp).
Defined.

(** X27.  [PSBTInput.deserialize] tells a repeated key from the value
    stored so far, not from the keys it has seen: after a sighash-type
    entry of value 0 a second sighash-type entry is accepted and its value
    replaces the first, and after an empty redeem script or an empty final
    unlocking script a second entry under the same key is accepted as
    well.  No error is raised. *)
Theorem X27_PSBTInput_repeated_key_after_default `{Ext : Externals} (i0 : PSBTInput.t)
    (z : Z) (x : bytes) :
  0 <= z < 2 ^ 32 -> fits x ->
  parses PSBTInput.deserialize i0
    (map_entry (type_byte PSBT_IN_SIGHASH) (le_encode 4 0)
     ++ map_entry (type_byte PSBT_IN_SIGHASH) (le_encode 4 z) ++ [x00]) tt
    (PSBTInput.set_sighash_type z PSBTInput.default)
  /\ parses PSBTInput.deserialize i0
       (map_entry (type_byte PSBT_IN_REDEEMSCRIPT) []
        ++ map_entry (type_byte PSBT_IN_REDEEMSCRIPT) x ++ [x00]) tt
       (PSBTInput.set_redeem_script x PSBTInput.default)
  /\ parses PSBTInput.deserialize i0
       (map_entry (type_byte PSBT_IN_SCRIPTSIG) []
        ++ map_entry (type_byte PSBT_IN_SCRIPTSIG) x ++ [x00]) tt
       (PSBTInput.set_final_script_sig x PSBTInput.default).
Proof.
  intros Hz Hx.
  assert (forall e1 e2 s1 s2,
            parses PSBTInput.deserialize_entry PSBTInput.default e1 true s1 ->
            parses PSBTInput.deserialize_entry s1 e2 true s2 ->
            e1 <> [] -> e2 <> [] ->
            parses PSBTInput.deserialize i0 (e1 ++ e2 ++ [x00]) tt s2) as Htwo.
  { intros e1 e2 s1 s2 H1 H2 Hn1 Hn2. unfold PSBTInput.deserialize.
    replace (e1 ++ e2 ++ [x00]) with (List.concat [e1; e2] ++ [x00])
      by (cbn [List.concat]; now rewrite app_nil_r, <- app_assoc).
    eapply parses_step;
      [apply (parses_update (fun _ => PSBTInput.default)) | | reflexivity].
    eapply while_more_steps; [| apply input_separator_parses | discriminate].
    eapply steps_cons; [exact Hn1 | exact H1 |].
    eapply steps_cons; [exact Hn2 | exact H2 | constructor]. }
  split; [|split].
  - apply (Htwo _ _ (PSBTInput.set_sighash_type 0 PSBTInput.default));
      try apply map_entry_nonempty.
    + apply (input_sighash_parses PSBTInput.default 0); [reflexivity | lia].
    + apply (input_sighash_parses (PSBTInput.set_sighash_type 0 PSBTInput.default) z);
        [reflexivity | exact Hz].
  - apply (Htwo _ _ (PSBTInput.set_redeem_script [] PSBTInput.default));
      try apply map_entry_nonempty.
    + apply (input_redeem_parses PSBTInput.default []); [reflexivity | apply fits_nil].
    + apply (input_redeem_parses (PSBTInput.set_redeem_script [] PSBTInput.default) x);
        [reflexivity | exact Hx].
  - apply (Htwo _ _ (PSBTInput.set_final_script_sig [] PSBTInput.default));
      try apply map_entry_nonempty.
    + apply (input_final_parses PSBTInput.default []); [reflexivity | apply fits_nil].
    + apply (input_final_parses (PSBTInput.set_final_script_sig [] PSBTInput.default) x);
        [reflexivity | exact Hx].
Qed.

Lemma X27_PSBTInput_repeated_key_after_default_witness :
  0 <= 65 < 2 ^ 32 /\ fits [x51]
  /\ parses (@PSBTInput.deserialize test_externals) PSBTInput.default
       (map_entry (type_byte PSBT_IN_SIGHASH) (le_encode 4 0)
        ++ map_entry (type_byte PSBT_IN_SIGHASH) (le_encode 4 65) ++ [x00]) tt
       (PSBTInput.set_sighash_type 65 PSBTInput.default)
  /\ parses (@PSBTInput.deserialize test_externals) PSBTInput.default
       (map_entry (type_byte PSBT_IN_REDEEMSCRIPT) []
        ++ map_entry (type_byte PSBT_IN_REDEEMSCRIPT) [x51] ++ [x00]) tt
       (PSBTInput.set_redeem_script [x51] PSBTInput.default)
  /\ parses (@PSBTInput.deserialize test_externals) PSBTInput.default
       (map_entry (type_byte PSBT_IN_SCRIPTSIG) []
        ++ map_entry (type_byte PSBT_IN_SCRIPTSIG) [x51] ++ [x00]) tt
       (PSBTInput.set_final_script_sig [x51] PSBTInput.default).
Proof.
  assert (0 <= 65 < 2 ^ 32) as Hz by lia.
  assert (fits [x51]) as Hx by (vm_compute; reflexivity).
  split; [exact Hz|]. split; [exact Hx|].
  apply (@X27_PSBTInput_repeated_key_after_default test_externals PSBTInput.default 65 [x51]
           Hz Hx).
Defined.

(** X28.  The text form of an identifier is its bytes in reverse order, in
    hex, and the constructor reads it back: for a 32-byte identifier [u],
    [uint256(str(u))] is [u], and [str(u)] has 64 characters. *)
Theorem X28_uint256_text_round_trip (u : uint256.t) :
  List.length (uint256.data u) = 32%nat ->
  uint256.of_str (uint256.__str__ u) = Some u
  /\ String.length (uint256.__str__ u) = 64%nat.
Proof.
  intro Hl. unfold uint256.of_str, uint256.__str__. split.
  - rewrite bytes_fromhex_hex, length_rev, Hl. cbn [Nat.eqb].
    rewrite rev_involutive. now destruct u.
  - now rewrite length_bytes_hex, length_rev, Hl.
Qed.

Lemma X28_uint256_text_round_trip_witness :
  List.length (uint256.data (uint256.mk (x01 :: repeat x00 30 ++ [xff]))) = 32%nat
  /\ uint256.of_str (uint256.__str__ (uint256.mk (x01 :: repeat x00 30 ++ [xff])))
     = Some (uint256.mk (x01 :: repeat x00 30 ++ [xff]))
  /\ String.length (uint256.__str__ (uint256.mk (x01 :: repeat x00 30 ++ [xff]))) = 64%nat.
Proof.
  split; [reflexivity|].
  apply (X28_uint256_text_round_trip (uint256.mk (x01 :: repeat x00 30 ++ [xff]))).
  reflexivity.
Defined.

(** X29.  A container with fewer input and output maps than its
    transaction has inputs and outputs is rejected: when the bytes after
    the global map are a sequence of well-formed key-value maps, fewer in
    number than the inputs and outputs together, [PSBT.deserialize] raises
    an error that is a [SerializationError], whatever the maps hold. *)
Theorem X29_PSBT_deserialize_missing_maps `{Ext : Externals} (self : PSBT.t)
    (tx : CMutableTransaction.t) (U : dict bytes) (maps : list (list (bytes * bytes))) :
  tx_wf tx -> fits (tx_bytes tx) -> unsigned tx -> unknown_wf GLOBAL_KNOWN U ->
  Forall entries_wf maps ->
  (List.length maps
   < List.length (CMutableTransaction.vin tx) + List.length (CMutableTransaction.vout tx))%nat ->
  exists e self',
    PSBT.deserialize
      (PSBT.FromBytes
         (PSBT_MAGIC_BYTES ++ global_bytes tx U ++ List.concat (map encoded_map maps)))
      false self
    = (Raise e, self')
    /\ is_SerializationError e = true.
Proof.
  intros Hwtx Hftx Hu HU Hall Hlen.
  destruct (psbt_deserialize_stream_short self tx U maps
              (BCDataStream.new
                 (PSBT_MAGIC_BYTES ++ global_bytes tx U
                  ++ List.concat (map encoded_map maps)))
              Hwtx Hftx Hu HU Hall Hlen (remaining_new _))
    as (e & [p w] & Hr & He).
  exists e, p. split; [|exact He].
  unfold PSBT.deserialize. now rewrite Hr.
Qed.

Lemma X29_PSBT_deserialize_missing_maps_witness :
  @tx_wf test_externals sample_tx
  /\ fits (@tx_bytes test_externals sample_tx)
  /\ unsigned sample_tx
  /\ unknown_wf GLOBAL_KNOWN []
  /\ Forall entries_wf [[([x0a], [x01])]]
  /\ (List.length [[([x0a], [x01])]]
      < List.length (CMutableTransaction.vin sample_tx)
        + List.length (CMutableTransaction.vout sample_tx))%nat
  /\ exists e self',
       @PSBT.deserialize test_externals
         (PSBT.FromBytes
            (PSBT_MAGIC_BYTES ++ @global_bytes test_externals sample_tx []
             ++ List.concat (map encoded_map [[([x0a], [x01])]])))
         false PSBT.default
       = (Raise e, self')
       /\ is_SerializationError e = true.
Proof.
  assert (fits (@tx_bytes test_externals sample_tx)) as Hfit by (vm_compute; reflexivity).
  assert (unsigned sample_tx) as Hu by (constructor; [reflexivity | constructor]).
  assert (unknown_wf GLOBAL_KNOWN []) as HU by (split; constructor).
  assert (Forall entries_wf [[([x0a], [x01])]]) as Hall.
  { constructor; [|constructor]. constructor; [|constructor].
    split; [discriminate|]. split; vm_compute; reflexivity. }
  assert (List.length [[([x0a], [x01])]]
          < List.length (CMutableTransaction.vin sample_tx)
            + List.length (CMutableTransaction.vout sample_tx))%nat as Hlen
    by (simpl; lia).
  split; [exact sample_tx_wf|]. split; [exact Hfit|]. split; [exact Hu|].
  split; [exact HU|]. split; [exact Hall|]. split; [exact Hlen|].
  apply (@X29_PSBT_deserialize_missing_maps test_externals PSBT.default sample_tx []
           [[([x0a], [x01])]] sample_tx_wf Hfit Hu HU Hall Hlen).
Defined.

(** X30.  [==] on the transaction types is equality of all fields, down
    to the bytes: two transactions compare equal exactly when they hold
    the same inputs, outputs, version and locktime, two inputs when they
    hold the same outpoint, unlocking script and sequence number, and two
    outputs when they hold the same value, locking script and token data
    (both absent, or both present with the same id, bitfield, amount and
    commitment). *)
Theorem X30_transaction_eq_structural (a b : CMutableTransaction.t) (i j : CTxIn.t)
    (o p : CTxOut.t) :
  (CMutableTransaction.eqb a b = true <-> a = b)
  /\ (CTxIn.eqb i j = true <-> i = j)
  /\ (CTxOut.eqb o p = true <-> o = p).
Proof.
  split; [apply CMutableTransaction_eqb_eq|].
  split; [apply CTxIn_eqb_eq | apply CTxOut_eqb_eq].
Qed.
